(** * Differentiable indexing of arrays and the differentiable stack

    A shallow embedding of the notebooks [differentiable-indexed-arrays]
    (the array operations: [interp_factor], [linear_lookup],
    [superposition_lookup_vectored], [bandwidthify], [superposition_lookup],
    [asymmetrical_vectored_lookup], [assign_index_vectored],
    [match_shapes], [broadcast_multiply], [tensor_lookup_2d]) and [stacks]
    ([new_stack], [stack_push], [stack_pop], [stack_peek], [reverse_list]).

    Numbers.  The notebooks compute on [float32] tensors and [int32]
    indices.  Here a float is an exact rational in canonical form ([Qc],
    whose equality is Leibniz equality) and an integer index is a [Z]:
    rounding error, infinities and NaN are outside the model.  The cast of
    a float to [int32] is exact as long as the float is in the int32
    range, which a position inside an array of fewer than [2^31] entries
    is; the operations of the first part take it so.  [Module Int32]
    gives the cast as it is computed on every float, and with it the
    encoding of a position and the lookup built on it, for the theorems
    about positions anywhere.

    Tensors.  A rank-1 tensor is a list of numbers; a rank-2 tensor is a
    list of rows together with its number of columns (so that the shape
    [[0, m]] keeps its [m]); a rank-3 tensor is a list of planes together
    with its two inner dimensions.  TensorFlow tensors are rectangular:
    the theorems assume it ([wf_matrix], [wf_tensor3]).  An operation that
    raises in TensorFlow (shapes that do not broadcast, an index out of
    bounds, a failed assertion) returns [None]. *)

From Stdlib Require Import List ZArith QArith Qcanon Qcabs Qround Lia Lqa Bool
  Arith.
Import ListNotations.

Close Scope Qc_scope.
Close Scope Q_scope.

(** ** The error monad of the embedding *)

Definition bind {A B : Type} (c : option A) (k : A -> option B) : option B :=
  match c with
  | Some a => k a
  | None => None
  end.

Notation "x <- c ;; k" := (bind c (fun x => k))
  (at level 61, c at next level, right associativity).
Notation "' p <- c ;; k" := (bind c (fun x => let 'p := x in k))
  (at level 61, p pattern, c at next level, right associativity).

(** ** TensorFlow operations used by the notebooks *)

Module TF.

Abbreviation vec := (list Qc) (only parsing).

Record matrix : Type := Mat { ncols : nat; rows : list vec }.

Record tensor3 : Type := T3 { dim1 : nat; dim2 : nat; planes : list (list vec) }.

(** The argument [arr] of the lookups at the ranks the notebooks call them
    with, 1 and 2.  On an array of rank 3 the weighted-sum lookup is
    [superposition_lookup_vectored_rank3]. *)
Inductive array : Type :=
| Arr1 (v : vec)
| Arr2 (m : matrix).

Definition wf_matrix (a : matrix) : Prop :=
  Forall (fun r => length r = ncols a) (rows a).

Definition wf_tensor3 (a : tensor3) : Prop :=
  Forall (fun p => length p = dim1 a /\ Forall (fun c => length c = dim2 a) p)
         (planes a).

(** [tf.shape] of a rank-2 tensor. *)
Definition shape (a : matrix) : nat * nat := (length (rows a), ncols a).

Definition map2 {A B C : Type} (f : A -> B -> C) (xs : list A) (ys : list B)
  : list C :=
  map (fun p => f (fst p) (snd p)) (combine xs ys).

(** Broadcasting of a binary operation along one axis: equal sizes are
    combined pointwise, a size of 1 is stretched, anything else raises. *)
Definition broadcast {A B C : Type} (f : A -> B -> C) (xs : list A) (ys : list B)
  : option (list C) :=
  if length xs =? length ys then Some (map2 f xs ys)
  else match xs, ys with
       | x :: nil, _ => Some (map (f x) ys)
       | _, y :: nil => Some (map (fun x => f x y) xs)
       | _, _ => None
       end.

Fixpoint mapM {A B : Type} (f : A -> option B) (l : list A) : option (list B) :=
  match l with
  | [] => Some []
  | x :: l' => y <- f x ;; ys <- mapM f l' ;; Some (y :: ys)
  end.

Section Numeric.
Local Open Scope Qc_scope.

Definition Qcleb (x y : Qc) : bool := Qle_bool x y.
Definition Qcltb (x y : Qc) : bool := negb (Qle_bool y x).

Definition maximum (x y : Qc) : Qc := if Qcleb x y then y else x.
Definition minimum (x y : Qc) : Qc := if Qcleb x y then x else y.

(** [tf.clip_by_value(t, lo, hi)] is [maximum(minimum(t, hi), lo)]. *)
Definition clip_by_value (t lo hi : Qc) : Qc := maximum (minimum t hi) lo.

Definition clip_by_value_int (i lo hi : Z) : Z := Z.max (Z.min i hi) lo.

Definition floor (x : Qc) : Qc := Q2Qc (inject_Z (Qfloor x)).
Definition ceil (x : Qc) : Qc := Q2Qc (inject_Z (Qceiling x)).

(** [tf.cast(x, tf.int32)] truncates toward zero.  This is the cast on
    the floats whose truncation is an [int32]; [Int32.cast_int32] below is
    the cast on every float. *)
Definition cast_int32 (x : Qc) : Z :=
  if Qcleb 0 x then Qfloor x else Qceiling x.

(** [tf.math.divide_no_nan]: 0 where the denominator is 0. *)
Definition divide_no_nan (x y : Qc) : Qc :=
  if Qc_eq_bool y 0 then 0 else x / y.

Definition squared_difference (x y : Qc) : Qc := (x - y) * (x - y).

(** [squared_difference] of a row with one target, broadcast over it. *)
Definition squared_difference_row (row : vec) (t : Qc) : vec :=
  map (fun x => squared_difference x t) row.

Definition zeros (n : nat) : vec := repeat 0 n.
Definition ones (n : nat) : vec := repeat 1 n.

Definition zeros2 (sh : nat * nat) : matrix :=
  Mat (snd sh) (repeat (zeros (snd sh)) (fst sh)).

(** [tf.one_hot(i, n)]: all zeros when [i] is not below [n]. *)
Definition one_hot (i n : nat) : vec :=
  map (fun j => if j =? i then 1 else 0) (seq 0 n).

Definition eye (n : nat) : list vec := map (fun i => one_hot i n) (seq 0 n).

Definition vadd (u v : vec) : vec := map2 Qcplus u v.
Definition scale (u : vec) (c : Qc) : vec := map (fun a => a * c) u.

(** [a * w] for [a] of shape [[n, m]] and [w] of shape [[k, 1]]. *)
Definition mul_column (a : matrix) (w : vec) : option matrix :=
  rs <- broadcast scale (rows a) w ;;
  Some (Mat (ncols a) rs).

(** Sum of two tensors of one shape. *)
Definition madd (a b : matrix) : matrix :=
  Mat (ncols a) (map2 vadd (rows a) (rows b)).

(** [tf.reduce_sum(a, axis=0)]. *)
Definition reduce_sum_0 (a : matrix) : vec :=
  fold_left vadd (rows a) (zeros (ncols a)).

(** [tf.expand_dims(v, -1)]; [tf.transpose(tf.expand_dims(v, 0))] is the
    same column, which the embedding keeps as the vector itself. *)
Definition expand_dims_last (v : vec) : matrix :=
  Mat 1 (map (fun x => x :: nil) v).

(** [tf.tile(e, [n])] of a rank-1 tensor. *)
Definition tile (e : vec) (n : nat) : vec := concat (repeat e n).

Fixpoint chunks (m n : nat) (flat : vec) : list vec :=
  match n with
  | O => []
  | S n' => firstn m flat :: chunks m n' (skipn m flat)
  end.

(** [tf.reshape(flat, [n, m])]: raises unless [flat] has [n * m] entries. *)
Definition reshape (flat : vec) (sh : nat * nat) : option matrix :=
  if length flat =? fst sh * snd sh
  then Some (Mat (snd sh) (chunks (snd sh) (fst sh) flat))
  else None.

(** [tf.math.argmax] and [tf.math.argmin] over a rank-1 slice: the smallest
    index of an extremal entry; an empty slice raises.  Both scan the slice
    once and keep the best entry so far, replaced only by a strictly better
    one. *)
Fixpoint arg_from (better : Qc -> Qc -> bool) (bi : nat) (b : Qc) (i : nat)
         (l : vec) : nat :=
  match l with
  | [] => bi
  | x :: l' => if better b x then arg_from better i x (S i) l'
               else arg_from better bi b (S i) l'
  end.

Definition argmax (l : vec) : option nat :=
  match l with
  | [] => None
  | x :: l' => Some (arg_from (fun b y => Qcltb b y) 0 x 1 l')
  end.

Definition argmin (l : vec) : option nat :=
  match l with
  | [] => None
  | x :: l' => Some (arg_from (fun b y => Qcltb y b) 0 x 1 l')
  end.

(** The rational of an integer literal. *)
Definition qc (z : Z) : Qc := Q2Qc (inject_Z z).

(** [tf.math.argmax(a, axis=-1)] and [tf.math.argmin(a, axis=-1)] of a
    rank-2 tensor: an empty reduction axis raises. *)
Definition argmax_last (a : matrix) : option (list nat) :=
  if (ncols a =? 0)%nat then None else mapM argmax (rows a).

Definition argmin_last (a : matrix) : option (list nat) :=
  if (ncols a =? 0)%nat then None else mapM argmin (rows a).

(** [tf.gather_nd(v, idx)] for index pairs: an index out of bounds raises. *)
Definition gather_nd (v : matrix) (idx : list (nat * nat)) : option vec :=
  mapM (fun ab => row <- nth_error (rows v) (fst ab) ;; nth_error row (snd ab))
       idx.

(** [w * a] for [w] of shape [[k, 1]] and [a] of shape [[n, m]]. *)
Definition column_mul (w : vec) (a : matrix) : option matrix :=
  rs <- broadcast (fun x r => map (fun y => x * y) r) w (rows a) ;;
  Some (Mat (ncols a) rs).

(** [tf.tensordot(x, y, axes=0)]: the outer product. *)
Definition tensordot_0 (x y : vec) : matrix :=
  Mat (length y) (map (fun xi => map (fun yj => xi * yj) y) x).

(** [tf.math.reduce_max(a, axis=[0,1])] of a rank-3 tensor.  Over no cell
    at all TensorFlow does not raise: it returns minus infinity in every
    component, which is no rational.  That one result is outside the
    numbers of the model and is [None] here although nothing raises; on an
    array with a cell the function is [Some] of the maximum. *)
Definition vmax (u v : vec) : vec := map2 maximum u v.

Definition reduce_max_01 (a : tensor3) : option vec :=
  match concat (planes a) with
  | [] => if (dim2 a =? 0)%nat then Some [] else None
  | c :: cs => Some (fold_left vmax cs c)
  end.

(** [a * b] for [a] of shape [[X, Y, C]] and [b] of shape [[X, Y, 1]]. *)
Definition mul_last (a b : tensor3) : tensor3 :=
  T3 (dim1 a) (dim2 a)
     (map2 (map2 (fun cell w => scale cell (hd 0 w))) (planes a) (planes b)).

End Numeric.

(** [tf.roll(l, shift, axis=0)]: the entry at [i] moves to [i + shift]
    modulo the length. *)
Definition roll {A : Type} (l : list A) (shift : Z) : list A :=
  match l with
  | [] => []
  | _ :: _ =>
      let k := Z.to_nat ((- shift) mod Z.of_nat (length l)) in
      skipn k l ++ firstn k l
  end.

(** [l[i]] for a scalar integer tensor [i]: a negative index counts from
    the end, an index out of bounds raises. *)
Definition getitem {A : Type} (l : list A) (i : Z) : option A :=
  let j := if (i <? 0)%Z then (Z.of_nat (length l) + i)%Z else i in
  if ((0 <=? j) && (j <? Z.of_nat (length l)))%Z
  then nth_error l (Z.to_nat j)
  else None.

End TF.

Import TF.

(** ** [differentiable-indexed-arrays]: lookups and assignment *)

Section ArrayOps.
Local Open Scope Qc_scope.

Definition interp_factor (index : Qc) : Qc * Z * Z :=
  let t1 := floor index in
  let t2 := ceil index in
  let t := divide_no_nan (index - t1) (t2 - t1) in
  let i1 := cast_int32 t1 in
  let i2 := cast_int32 t2 in
  (t, i1, i2).

(** [linear_lookup] on a rank-1 array: the entries are scalars. *)
Definition linear_lookup (arr : vec) (index : Qc) : option Qc :=
  let '(t, i1, i2) := interp_factor index in
  a1 <- getitem arr i1 ;;
  a2 <- getitem arr i2 ;;
  Some (t * a1 + (1 - t) * a2).

(** [linear_lookup] on a rank-2 array: the entries are rows, and the
    scalars [t] and [1 - t] broadcast over them. *)
Definition linear_lookup_rows (arr : matrix) (index : Qc) : option vec :=
  let '(t, i1, i2) := interp_factor index in
  a1 <- getitem (rows arr) i1 ;;
  a2 <- getitem (rows arr) i2 ;;
  Some (vadd (map (fun a => t * a) a1) (map (fun a => (1 - t) * a) a2)).

Definition superposition_lookup_vectored (arr : array) (indices : vec)
  : option vec :=
  let arr := match arr with
             | Arr1 v => expand_dims_last v
             | Arr2 m => m
             end in
  result <- mul_column arr indices ;;
  Some (reduce_sum_0 result).

Definition bandwidthify (index : Qc) (bandwidth : nat) : option vec :=
  let '(t, i1, i2) := interp_factor index in
  let i1 := clip_by_value_int i1 0 (Z.of_nat bandwidth - 1) in
  let i2 := clip_by_value_int i2 0 (Z.of_nat bandwidth - 1) in
  let t := clip_by_value t 0 1 in
  let eye := eye bandwidth in
  e1 <- getitem eye i1 ;;
  e2 <- getitem eye i2 ;;
  Some (vadd (map (fun a => t * a) e1) (map (fun a => (1 - t) * a) e2)).

Definition bandwidth_of (arr : array) : nat :=
  match arr with
  | Arr1 v => length v
  | Arr2 m => length (rows m)
  end.

Definition superposition_lookup (arr : array) (index : Qc) : option vec :=
  let bandwidth := bandwidth_of arr in
  vectored_index <- bandwidthify index bandwidth ;;
  superposition_lookup_vectored arr vectored_index.

Definition assign_index_vectored (arr : matrix) (index : vec) (element : vec)
  : option matrix :=
  let arr_shape := shape arr in
  let pos_mask := index in
  let neg_mask := map (fun w => 1 - w) pos_mask in
  tiled_element <- reshape (tile element (fst arr_shape)) arr_shape ;;
  kept <- mul_column arr neg_mask ;;
  written <- mul_column tiled_element pos_mask ;;
  Some (madd kept written).

(** [asymmetrical_vectored_lookup] is a [tf.custom_gradient]: it returns
    the forward result together with the function [grad], which maps the
    upstream gradients to the gradients for [v] and for [k]. *)
Definition asymmetrical_vectored_lookup (v k : matrix)
  : option (vec * (vec -> option (matrix * matrix))) :=
  let k_shape := shape k in
  b_idx <- argmax_last k ;;
  let idx_len := length b_idx in
  let a_idx := seq 0 idx_len in
  let idx := combine a_idx b_idx in
  forward_result <- gather_nd v idx ;;
  let grad (upstream_grads : vec) : option (matrix * matrix) :=
    target <- broadcast Qcminus forward_result upstream_grads ;;
    diff_vector <- broadcast squared_difference_row (rows v) target ;;
    d_idx <- argmin_last (Mat (ncols v) diff_vector) ;;
    let ones := repeat (ones (snd k_shape)) (fst k_shape) in
    let eyes := map (fun d => one_hot d (snd k_shape)) d_idx in
    k_grad <-
      broadcast (map2 (fun x y => - (qc 2 * x - y))) eyes ones ;;
    let v_grad := k in
    to_v <- column_mul upstream_grads v_grad ;;
    to_k <- column_mul (map Qcabs upstream_grads) (Mat (snd k_shape) k_grad) ;;
    Some (to_v, to_k) in
  Some (forward_result, grad).

(** [match_shapes(x, y)] at the ranks of its call in [tensor_lookup_2d]:
    [x] is the rank-2 mask and [y] the rank-3 array, so that [low] is [x]
    and [high] is [y]. *)
Definition match_shapes (x : matrix) (y : tensor3) : option (tensor3 * tensor3) :=
  let low := x in
  let high := y in
  let l_shape := shape low in
  let common_shape := (length (planes high), dim1 high) in
  if ((fst common_shape =? fst l_shape) && (snd common_shape =? snd l_shape))%nat
  then Some (high,
             T3 (snd common_shape) 1
                (map (map (fun a => a :: nil)) (rows low)))
  else None.

Definition broadcast_multiply (x : matrix) (y : tensor3) : option tensor3 :=
  xy <- match_shapes x y ;;
  Some (mul_last (fst xy) (snd xy)).

Definition tensor_lookup_2d (arr : tensor3) (x_index y_index : vec)
  : option vec :=
  let mask := tensordot_0 x_index y_index in
  masked_arr <- broadcast_multiply mask arr ;;
  reduce_max_01 masked_arr.

End ArrayOps.

(** ** [stacks]: the stack built on the superposed read and write *)

Definition stack : Type := matrix * vec.

(** [is_learnable] only wraps the two tensors in [tf.Variable]; no function
    of the notebook assigns to them, so a stack is the pair of values. *)
Definition new_stack (stack_shape : nat * nat) : stack :=
  let buffer := zeros2 stack_shape in
  let index := one_hot 0 (fst stack_shape) in
  (buffer, index).

Definition stack_push (s : stack) (element : vec) : option stack :=
  let '(buffer, index) := s in
  buffer <- assign_index_vectored buffer index element ;;
  let index := roll index 1 in
  Some (buffer, index).

Definition stack_pop (s : stack) : option (stack * vec) :=
  let '(buffer, index) := s in
  let index := roll index (-1) in
  element <- superposition_lookup_vectored (Arr2 buffer) index ;;
  Some ((buffer, index), element).

Definition stack_peek (s : stack) : option vec :=
  let '(buffer, index) := s in
  let index := roll index (-1) in
  element <- superposition_lookup_vectored (Arr2 buffer) index ;;
  Some element.

(** The first loop of [reverse_list]: [for element in arr]. *)
Fixpoint push_all (s : stack) (elements : list vec) : option stack :=
  match elements with
  | [] => Some s
  | element :: rest => s' <- stack_push s element ;; push_all s' rest
  end.

(** The second loop of [reverse_list]: [for _ in tf.range(n)]. *)
Fixpoint transfer (n : nat) (s1 s2 : stack) : option (stack * stack) :=
  match n with
  | O => Some (s1, s2)
  | S n' =>
      '(s1', element) <- stack_pop s1 ;;
      s2' <- stack_push s2 element ;;
      transfer n' s1' s2'
  end.

Definition reverse_list (arr : matrix) : option matrix :=
  let arr_shape := shape arr in
  let elements := rows arr in
  let stack1 := new_stack arr_shape in
  stack1 <- push_all stack1 elements ;;
  let stack2 := new_stack arr_shape in
  '(_, stack2) <- transfer (fst arr_shape) stack1 stack2 ;;
  Some (fst stack2).

(** [n] pops in a row, with the elements read, first popped first. *)
Fixpoint pop_n (n : nat) (s : stack) : option (stack * list vec) :=
  match n with
  | O => Some (s, [])
  | S n' =>
      '(s', element) <- stack_pop s ;;
      '(s'', popped) <- pop_n n' s' ;;
      Some (s'', element :: popped)
  end.

Arguments stack_push : simpl never.
Arguments stack_pop : simpl never.

(** ** Notions used to state the properties *)

Section Notions.
Local Open Scope Qc_scope.

Definition has_width (m : nat) (r : vec) : Prop := length r = m.

(** The rows [rs] with the row at [i] replaced by [e]. *)
Definition set_row (i : nat) (e : vec) (rs : list vec) : list vec :=
  firstn i rs ++ e :: skipn (S i) rs.

(** What one row of the buffer becomes under the weight [x]. *)
Definition blend (element : vec) (row : vec) (x : Qc) : vec :=
  vadd (scale row (1 - x)) (scale element x).

Definition wf_array (arr : array) : Prop :=
  match arr with
  | Arr1 _ => True
  | Arr2 m => wf_matrix m
  end.

(** The entry [arr[i]] as a lookup returns it: a row of a rank-2 array;
    for a rank-1 array, which the lookup reads as the column
    [expand_dims(arr, -1)], the one-element row holding [arr[i]]. *)
Definition entry (arr : array) (i : nat) : option vec :=
  match arr with
  | Arr1 v => option_map (fun x => x :: nil) (nth_error v i)
  | Arr2 m => nth_error (rows m) i
  end.

(** [b] is a column of [l] holding a largest entry. *)
Definition is_argmax (l : vec) (b : nat) : Prop :=
  (b < length l)%nat /\
  forall c, (c < length l)%nat -> nth c l 0 <= nth b l 0.

(** [d] is a column of [l] whose entry is nearest to [target]: of least
    squared difference. *)
Definition is_nearest (l : vec) (target : Qc) (d : nat) : Prop :=
  (d < length l)%nat /\
  forall c, (c < length l)%nat ->
            (nth d l 0 - target) * (nth d l 0 - target)
            <= (nth c l 0 - target) * (nth c l 0 - target).

(** The entry of a rank-2 tensor at row [r] and column [c]. *)
Definition at2 (a : list vec) (r c : nat) : Qc := nth c (nth r a []) 0.

(** The dot product of two vectors. *)
Definition dot (u v : vec) : Qc := fold_right Qcplus 0 (map2 Qcmult u v).

(** The sum of the entries of a vector. *)
Definition vsum (u : vec) : Qc := fold_right Qcplus 0 u.

(** [x] lies between [a] and [b], whichever is the smaller. *)
Definition between (a b x : Qc) : Prop :=
  (a <= x /\ x <= b) \/ (b <= x /\ x <= a).

(** Decidable equality of tensors, by the canonical form of the entries. *)
Fixpoint vec_eqb (u v : vec) : bool :=
  match u, v with
  | [], [] => true
  | a :: u', b :: v' => Qc_eq_bool a b && vec_eqb u' v'
  | _, _ => false
  end.

Definition option_vec_eqb (a b : option vec) : bool :=
  match a, b with
  | Some u, Some v => vec_eqb u v
  | None, None => true
  | _, _ => false
  end.

(** The entries of a tensor as fractions in lowest terms. *)
Definition values (u : vec) : list Q := map this u.

Definition values2 (a : matrix) : list (list Q) := map values (rows a).

(** The value and weight matrices of the notebook's example of the
    asymmetrical lookup. *)
Definition example_v : matrix :=
  Mat 3 ((qc 1 :: qc 2 :: qc 3 :: nil) :: (qc 10 :: qc 20 :: qc 30 :: nil)
         :: nil).

Definition example_k : matrix :=
  Mat 3 ((qc 0 :: qc 1 :: qc 0 :: nil) :: (qc 1 :: qc 0 :: qc 0 :: nil)
         :: nil).

(** An array of shape [[2, 2, 2]] with negative entries. *)
Definition example_negative : tensor3 :=
  T3 2 2
     (((qc (-1) :: qc (-1) :: nil) :: (qc (-1) :: qc (-11) :: nil) :: nil)
      :: ((qc (-2) :: qc (-2) :: nil) :: (qc (-2) :: qc (-22) :: nil) :: nil)
      :: nil).

(** The slice [arr[x][y]] of a rank-3 array. *)
Definition slice (arr : tensor3) (x y : nat) : option vec :=
  plane <- nth_error (planes arr) x ;; nth_error plane y.

End Notions.

(** ** The other operations of the notebooks

    The lookups by rounding, the bulk encoding of positions, the
    assignment at an integer index, the two-axis write and the stack made
    from a given buffer. *)

Section OtherOps.
Local Open Scope Qc_scope.

Definition half : Qc := Q2Qc (1 # 2).

(** [tf.round]: the nearest integer, a tie going to the even one. *)
Definition round (x : Qc) : Qc :=
  let f := Qfloor x in
  let d := x - qc f in
  if Qcltb d half then qc f
  else if Qcltb half d then qc (f + 1)
  else if Z.even f then qc f else qc (f + 1).

(** [naive_lookup] and [residual_lookup] index the first axis: the entries
    are scalars on a rank-1 array and rows on a rank-2 array. *)
Definition naive_lookup {A : Type} (arr : list A) (index : Qc) : option A :=
  let index := round index in
  let index := cast_int32 index in
  getitem arr index.

Definition residual_lookup {A : Type} (arr : list A) (index : Qc)
  : option (A * Qc) :=
  let i := round index in
  let residue := index - i in
  let i := cast_int32 i in
  result <- getitem arr i ;;
  Some (result, residue).

(** The loop of [bulk_bandwidthify] over [enumerate(indices)]:
    [result[i] += b_index] on the list of unstacked rows. *)
Fixpoint bulk_loop (bandwidth : nat) (items : list (nat * Qc))
         (result : list vec) : option (list vec) :=
  match items with
  | [] => Some result
  | item :: rest =>
      b_index <- bandwidthify (snd item) bandwidth ;;
      row <- nth_error result (fst item) ;;
      bulk_loop bandwidth rest (set_row (fst item) (vadd row b_index) result)
  end.

(** [bulk_bandwidthify] returns the stacked rows. *)
Definition bulk_bandwidthify (indices : vec) (bandwidth : nat)
  : option (list vec) :=
  let num_indices := length indices in
  let result := repeat (zeros bandwidth) num_indices in
  bulk_loop bandwidth (combine (seq 0 num_indices) indices) result.

(** [assign_index], the same in both notebooks: the mask is the row
    [index] of the identity matrix. *)
Definition assign_index (arr : matrix) (index : Z) (element : vec)
  : option matrix :=
  let arr_shape := shape arr in
  pos_mask <- getitem (eye (fst arr_shape)) index ;;
  let neg_mask := map (fun w => 1 - w) pos_mask in
  tiled_element <- reshape (tile element (fst arr_shape)) arr_shape ;;
  kept <- mul_column arr neg_mask ;;
  written <- mul_column tiled_element pos_mask ;;
  Some (madd kept written).

(** [match_shapes(x, y)] at the ranks of its call in [tensor_write_2d]:
    [x] is the rank-3 array and [y] the rank-2 mask, so that [low] is [y]
    and [high] is [x]. *)
Definition match_shapes_3_2 (x : tensor3) (y : matrix)
  : option (tensor3 * tensor3) :=
  let low := y in
  let high := x in
  let l_shape := shape low in
  let common_shape := (length (planes high), dim1 high) in
  if ((fst common_shape =? fst l_shape) && (snd common_shape =? snd l_shape))%nat
  then Some (high,
             T3 (snd common_shape) 1
                (map (map (fun a => a :: nil)) (rows low)))
  else None.

(** [1.0 - mask]. *)
Definition one_minus (mask : tensor3) : tensor3 :=
  T3 (dim1 mask) (dim2 mask) (map (map (map (fun w => 1 - w))) (planes mask)).

(** [mask * b] for [mask] of shape [[X, Y, 1]] and [b] of shape
    [[X, Y, C]]. *)
Definition mask_mul (mask b : tensor3) : tensor3 :=
  T3 (dim1 b) (dim2 b)
     (map2 (map2 (fun w cell => map (fun a => hd 0 w * a) cell))
           (planes mask) (planes b)).

(** [a + b] for [a] of shape [[X, Y, C]] and [b] of shape [[X, Y, C']]:
    the last axis broadcasts. *)
Definition add_last (a b : tensor3) : option tensor3 :=
  if ((dim2 a =? dim2 b) || (dim2 a =? 1) || (dim2 b =? 1))%nat
  then
    ps <- mapM (fun pq =>
                  mapM (fun cd => broadcast Qcplus (fst cd) (snd cd))
                       (combine (fst pq) (snd pq)))
               (combine (planes a) (planes b)) ;;
    Some (T3 (dim1 a) (if (dim2 a =? 1)%nat then dim2 b else dim2 a) ps)
  else None.

Definition tensor_write_2d (arr : tensor3) (element : vec)
           (x_index y_index : vec) : option tensor3 :=
  let arr_shape := (length (planes arr), dim1 arr, dim2 arr) in
  let mask := tensordot_0 x_index y_index in
  high_mask <- match_shapes_3_2 arr mask ;;
  let mask := snd high_mask in
  let element :=
    T3 (snd (fst arr_shape)) (length element)
       (repeat (repeat element (snd (fst arr_shape))) (fst (fst arr_shape))) in
  add_last (mask_mul (one_minus mask) arr) (mask_mul mask element).

(** [new_stack_from_buffer]; [is_learnable] as for [new_stack]. *)
Definition new_stack_from_buffer (buffer : matrix) : stack :=
  let stack_shape := shape buffer in
  let index := one_hot 0 (fst stack_shape) in
  (buffer, index).

(** Linear interpolation as usually defined: the weight of the entry at
    the ceiling is the fractional part of the position. *)
Definition lerp (arr : vec) (q : Qc) : option Qc :=
  a1 <- getitem arr (Qfloor q) ;;
  a2 <- getitem arr (Qceiling q) ;;
  Some ((1 - (q - floor q)) * a1 + (q - floor q) * a2).

(** The cell that [tensor_write_2d] computes from a cell of the array
    under the mask weight [w]. *)
Definition mixed_cell (w : Qc) (cell element : vec) : vec :=
  vadd (map (fun a => (1 - w) * a) cell) (map (fun a => w * a) element).

(** [a * w] for [a] of shape [[X, Y, C]] and [w] of shape [[k, 1]]: the
    shapes are aligned from the last axis, so that the [k] weights run
    along the second axis of [a]. *)
Definition mul_column_rank3 (a : tensor3) (w : vec) : option tensor3 :=
  if ((dim1 a =? length w) || (dim1 a =? 1) || (length w =? 1))%nat
  then
    ps <- mapM (fun plane => broadcast scale plane w) (planes a) ;;
    Some (T3 (if (dim1 a =? 1)%nat then length w else dim1 a) (dim2 a) ps)
  else None.

(** [tf.reduce_sum(a, axis=0)] of a rank-3 tensor. *)
Definition reduce_sum_0_rank3 (a : tensor3) : matrix :=
  Mat (dim2 a)
      (fold_left (map2 vadd) (planes a) (repeat (zeros (dim2 a)) (dim1 a))).

(** [superposition_lookup_vectored] on a rank-3 array: the rank is not 1,
    so the array is taken as it is, and the column of weights is
    multiplied into it by broadcasting. *)
Definition superposition_lookup_vectored_rank3 (arr : tensor3) (indices : vec)
  : option matrix :=
  result <- mul_column_rank3 arr indices ;;
  Some (reduce_sum_0_rank3 result).

(** A rank-3 array of shape [[2, 2, 2]]. *)
Definition example_cube : tensor3 :=
  T3 2 2
     (((qc 1 :: qc 1 :: nil) :: (qc 1 :: qc 11 :: nil) :: nil)
      :: ((qc 2 :: qc 2 :: nil) :: (qc 2 :: qc 22 :: nil) :: nil)
      :: nil).

End OtherOps.

(** ** The cast to [int32] on every float

    [tf.cast(x, tf.int32)] does not raise on a float whose truncation is
    no [int32]: the conversion of the processor gives the smallest
    [int32], [-2147483648], for every such float.  [interp_factor] casts
    the floor and the ceiling of the position before [bandwidthify] clips
    them, so that a position at or above [2^31] is clipped from the
    smallest [int32] and not from a large index. *)
Module Int32.

Definition min_int : Z := (-2147483648)%Z.
Definition max_int : Z := 2147483647%Z.

(** The [int32] that the conversion gives for the integer [z]. *)
Definition of_Z (z : Z) : Z :=
  if ((min_int <=? z) && (z <=? max_int))%Z then z else min_int.

Definition cast_int32 (x : Qc) : Z := of_Z (TF.cast_int32 x).

Definition interp_factor (index : Qc) : Qc * Z * Z :=
  let t1 := floor index in
  let t2 := ceil index in
  let t := divide_no_nan (index - t1)%Qc (t2 - t1)%Qc in
  let i1 := cast_int32 t1 in
  let i2 := cast_int32 t2 in
  (t, i1, i2).

Definition bandwidthify (index : Qc) (bandwidth : nat) : option vec :=
  let '(t, i1, i2) := interp_factor index in
  let i1 := clip_by_value_int i1 0 (Z.of_nat bandwidth - 1) in
  let i2 := clip_by_value_int i2 0 (Z.of_nat bandwidth - 1) in
  let t := clip_by_value t 0%Qc 1%Qc in
  let eye := eye bandwidth in
  e1 <- getitem eye i1 ;;
  e2 <- getitem eye i2 ;;
  Some (vadd (map (fun a => t * a)%Qc e1) (map (fun a => (1 - t) * a)%Qc e2)).

Definition superposition_lookup (arr : array) (index : Qc) : option vec :=
  let bandwidth := bandwidth_of arr in
  vectored_index <- bandwidthify index bandwidth ;;
  superposition_lookup_vectored arr vectored_index.

End Int32.

(** The stack of the earlier notebook: its position is an integer index,
    written with [assign_index] and read by plain indexing. *)
Module IntStack.

Definition stack : Type := matrix * Z.

Definition stack_push (state : stack) (element : vec) : option stack :=
  let '(buffer, index) := state in
  buffer <- assign_index buffer index element ;;
  let index := (index + 1)%Z in
  Some (buffer, index).

Definition stack_pop (state : stack) : option (stack * vec) :=
  let '(buffer, index) := state in
  let index := (index - 1)%Z in
  element <- getitem (rows buffer) index ;;
  Some ((buffer, index), element).

Fixpoint push_all (state : stack) (elements : list vec) : option stack :=
  match elements with
  | [] => Some state
  | element :: rest => s' <- stack_push state element ;; push_all s' rest
  end.

Fixpoint transfer (n : nat) (state1 state2 : stack) : option (stack * stack) :=
  match n with
  | O => Some (state1, state2)
  | S n' =>
      '(s1', element) <- stack_pop state1 ;;
      s2' <- stack_push state2 element ;;
      transfer n' s1' s2'
  end.

Definition reverse_list (arr : matrix) : option matrix :=
  let arr_shape := shape arr in
  let elements := rows arr in
  let buffer1 := zeros2 arr_shape in
  let index1 := 0%Z in
  let state1 := (buffer1, index1) in
  state1 <- push_all state1 elements ;;
  let buffer2 := zeros2 arr_shape in
  let index2 := 0%Z in
  let state2 := (buffer2, index2) in
  '(_, state2) <- transfer (fst arr_shape) state1 state2 ;;
  Some (fst state2).

End IntStack.

Arguments IntStack.stack_push : simpl never.
Arguments IntStack.stack_pop : simpl never.

(** * Facts about the tensor operations *)

Section ListFacts.
Context {A B C : Type}.

Lemma map2_cons (f : A -> B -> C) x xs y ys :
  map2 f (x :: xs) (y :: ys) = f x y :: map2 f xs ys.
Proof. reflexivity. Qed.

Lemma map2_length (f : A -> B -> C) xs ys :
  length xs = length ys -> length (map2 f xs ys) = length xs.
Proof.
  intros H. unfold map2. rewrite length_map, length_combine, <- H.
  apply Nat.min_id.
Qed.

Lemma map2_app (f : A -> B -> C) xs1 xs2 ys1 ys2 :
  length xs1 = length ys1 ->
  map2 f (xs1 ++ xs2) (ys1 ++ ys2) = map2 f xs1 ys1 ++ map2 f xs2 ys2.
Proof.
  revert ys1. induction xs1 as [|x xs1 IH]; intros [|y ys1] H;
    simpl in H; try discriminate; [reflexivity|].
  simpl. rewrite !map2_cons. f_equal. apply IH. lia.
Qed.

Lemma map2_repeat_r (f : A -> B -> C) xs y :
  map2 f xs (repeat y (length xs)) = map (fun x => f x y) xs.
Proof.
  induction xs as [|x xs IH]; [reflexivity|].
  simpl. rewrite map2_cons. f_equal. exact IH.
Qed.

Lemma broadcast_same (f : A -> B -> C) xs ys :
  length xs = length ys -> broadcast f xs ys = Some (map2 f xs ys).
Proof.
  intros H. unfold broadcast. rewrite H, Nat.eqb_refl. reflexivity.
Qed.

End ListFacts.

Lemma map_id_in {A : Type} (f : A -> A) (l : list A) :
  Forall (fun x => f x = x) l -> map f l = l.
Proof.
  induction 1 as [|x l Hx _ IH]; [reflexivity|].
  simpl. rewrite Hx, IH. reflexivity.
Qed.

Lemma map_constant {A B : Type} (f : A -> B) (c : B) (l : list A) :
  (forall x, In x l -> f x = c) -> map f l = repeat c (length l).
Proof.
  induction l as [|x l IH]; intros H; [reflexivity|].
  simpl. rewrite (H x (or_introl eq_refl)), IH; [reflexivity|].
  intros y Hy. apply H. right. exact Hy.
Qed.

(** A list cut at a valid position. *)
Lemma split_at {A : Type} (l : list A) (i : nat) (d : A) :
  i < length l ->
  exists pre post,
    firstn i l = pre /\ skipn (S i) l = post /\
    l = pre ++ nth i l d :: post /\ length pre = i.
Proof.
  intros Hi. exists (firstn i l), (skipn (S i) l).
  repeat split; [|apply firstn_length_le; lia].
  rewrite <- (firstn_skipn i l) at 1. f_equal.
  revert i Hi. induction l as [|x l IH]; intros i Hi; simpl in Hi; [lia|].
  destruct i as [|i]; [reflexivity|].
  simpl. apply IH. lia.
Qed.

Section VecFacts.
Local Open Scope Qc_scope.

Lemma scale_0 (u : vec) : scale u 0 = zeros (length u).
Proof.
  unfold scale, zeros. induction u as [|a u IH]; simpl; [reflexivity|].
  f_equal; [ring|exact IH].
Qed.

Lemma scale_1 (u : vec) : scale u 1 = u.
Proof.
  apply map_id_in. apply Forall_forall. intros a _. ring.
Qed.

Lemma vadd_zeros_r (u : vec) : vadd u (zeros (length u)) = u.
Proof.
  unfold vadd, zeros. rewrite map2_repeat_r.
  apply map_id_in. apply Forall_forall. intros a _. ring.
Qed.

Lemma vadd_zeros_l (u : vec) : vadd (zeros (length u)) u = u.
Proof.
  unfold vadd, zeros. induction u as [|a u IH]; simpl; [reflexivity|].
  rewrite map2_cons. f_equal; [ring|exact IH].
Qed.

Lemma vadd_length (u v : vec) :
  length u = length v -> length (vadd u v) = length u.
Proof. apply map2_length. Qed.

Lemma zeros_length (n : nat) : length (zeros n) = n.
Proof. apply repeat_length. Qed.

Lemma one_hot_length (i n : nat) : length (one_hot i n) = n.
Proof. unfold one_hot. rewrite length_map. apply length_seq. Qed.

(** The one-hot vector at a valid position, written out. *)
Lemma one_hot_split (i n : nat) :
  (i < n)%nat -> one_hot i n = zeros i ++ 1 :: zeros (n - 1 - i).
Proof.
  intros Hi. unfold one_hot, zeros.
  replace n with (i + S (n - 1 - i))%nat at 1 by lia.
  rewrite seq_app, map_app. simpl. rewrite Nat.eqb_refl.
  f_equal; [|f_equal].
  - rewrite map_constant with (c := 0); [now rewrite length_seq|].
    intros j Hj. apply in_seq in Hj.
    destruct (Nat.eqb_spec j i); [lia|reflexivity].
  - rewrite map_constant with (c := 0); [now rewrite length_seq|].
    intros j Hj. apply in_seq in Hj.
    destruct (Nat.eqb_spec j i); [lia|reflexivity].
Qed.

End VecFacts.

(** ** Tiling and reshaping an element *)

Lemma tile_length (e : vec) (n : nat) : length (tile e n) = n * length e.
Proof.
  unfold tile. induction n as [|n IH]; [reflexivity|].
  simpl. rewrite length_app, IH. reflexivity.
Qed.

Lemma chunks_tile (e : vec) (n : nat) :
  chunks (length e) n (tile e n) = repeat e n.
Proof.
  unfold tile. induction n as [|n IH]; [reflexivity|].
  simpl. rewrite firstn_app, Nat.sub_diag, firstn_all, firstn_O, app_nil_r.
  rewrite skipn_app, Nat.sub_diag, skipn_all, skipn_O. simpl.
  rewrite IH. reflexivity.
Qed.

Lemma reshape_tile (e : vec) (n : nat) :
  reshape (tile e n) (n, length e) = Some (Mat (length e) (repeat e n)).
Proof.
  unfold reshape. simpl. rewrite tile_length, Nat.eqb_refl, chunks_tile.
  reflexivity.
Qed.

(** ** The superposed write and read in closed form *)

Section ReadWrite.
Local Open Scope Qc_scope.

Lemma map2_blend (element : vec) (rs : list vec) (w : vec) :
  map2 vadd (map2 scale rs (map (fun x => 1 - x) w))
            (map2 scale (repeat element (length rs)) w)
  = map2 (blend element) rs w.
Proof.
  revert w. induction rs as [|r rs IH]; intros [|x w]; try reflexivity.
  simpl. rewrite !map2_cons. f_equal. apply IH.
Qed.

Lemma assign_index_vectored_blend (m : nat) (rs : list vec) (w element : vec) :
  length w = length rs ->
  length element = m ->
  assign_index_vectored (Mat m rs) w element
  = Some (Mat m (map2 (blend element) rs w)).
Proof.
  intros Hw He. subst m. unfold assign_index_vectored, shape, mul_column.
  simpl. rewrite reshape_tile. simpl.
  rewrite broadcast_same by (rewrite length_map; auto). simpl.
  rewrite broadcast_same by (rewrite repeat_length; auto). simpl.
  unfold madd. simpl. rewrite map2_blend. reflexivity.
Qed.

Lemma superposition_lookup_vectored_sum (m : nat) (rs : list vec) (w : vec) :
  length w = length rs ->
  superposition_lookup_vectored (Arr2 (Mat m rs)) w
  = Some (fold_left vadd (map2 scale rs w) (zeros m)).
Proof.
  intros Hw. unfold superposition_lookup_vectored, mul_column. simpl.
  rewrite broadcast_same by auto. reflexivity.
Qed.

Lemma blend_0 (element row : vec) :
  length element = length row -> blend element row 0 = row.
Proof.
  intros H. unfold blend.
  replace (1 - 0) with 1 by ring.
  rewrite scale_1, scale_0, H. apply vadd_zeros_r.
Qed.

Lemma blend_1 (element row : vec) :
  length element = length row -> blend element row 1 = element.
Proof.
  intros H. unfold blend.
  replace (1 - 1) with 0 by ring.
  rewrite scale_1, scale_0, <- H. apply vadd_zeros_l.
Qed.

Lemma map2_blend_zeros (m : nat) (element : vec) (rs : list vec) :
  length element = m ->
  Forall (fun r => length r = m) rs ->
  map2 (blend element) rs (zeros (length rs)) = rs.
Proof.
  intros He Hrs. unfold zeros. rewrite map2_repeat_r.
  apply map_id_in. eapply Forall_impl; [|exact Hrs].
  intros r Hr. apply blend_0. congruence.
Qed.

Lemma fold_zero_rows (m : nat) (rs : list vec) (acc : vec) :
  length acc = m ->
  Forall (fun r => length r = m) rs ->
  fold_left vadd (map2 scale rs (zeros (length rs))) acc = acc.
Proof.
  intros Hacc Hrs. unfold zeros at 1. rewrite map2_repeat_r.
  induction Hrs as [|r rs Hr _ IH]; [reflexivity|].
  simpl. rewrite scale_0, Hr, <- Hacc, vadd_zeros_r. exact IH.
Qed.

End ReadWrite.

(** ** Rolling a one-hot vector *)

Lemma roll_right {A : Type} (l : list A) (x : A) :
  roll (l ++ [x]) 1 = x :: l.
Proof.
  unfold roll. destruct (l ++ [x]) eqn:E; [destruct l; discriminate|].
  rewrite <- E.
  replace (Z.to_nat ((- (1)) mod Z.of_nat (length (l ++ [x])))) with (length l).
  - rewrite skipn_app, firstn_app, Nat.sub_diag, skipn_all, firstn_all.
    simpl. rewrite app_nil_r. reflexivity.
  - rewrite length_app. simpl.
    rewrite <- (Z.mod_unique (-1) (Z.of_nat (length l + 1)) (-1)
                  (Z.of_nat (length l))); lia.
Qed.

Lemma roll_left {A : Type} (l : list A) (x : A) :
  roll (x :: l) (-1) = l ++ [x].
Proof.
  unfold roll. destruct l as [|y l]; [reflexivity|].
  replace (Z.to_nat ((- -1) mod Z.of_nat (length (x :: y :: l)))) with 1.
  - reflexivity.
  - simpl length. rewrite Z.mod_small; lia.
Qed.

Section OneHot.
Local Open Scope Qc_scope.

Lemma zeros_snoc (k : nat) : zeros (S k) = zeros k ++ 0 :: nil.
Proof. unfold zeros. simpl. apply repeat_cons. Qed.

Lemma roll_one_hot_succ (i n : nat) :
  (i < n)%nat -> roll (one_hot i n) 1 = one_hot (S i mod n) n.
Proof.
  intros Hi. rewrite (one_hot_split i n Hi).
  destruct (n - 1 - i)%nat as [|k] eqn:Ek.
  - replace (S i) with n by lia. rewrite Nat.Div0.mod_same.
    change (zeros 0) with (@nil Qc).
    rewrite roll_right, one_hot_split by lia.
    replace (n - 1 - 0)%nat with i by lia. reflexivity.
  - rewrite Nat.mod_small by lia.
    rewrite zeros_snoc, app_comm_cons, app_assoc, roll_right.
    rewrite one_hot_split by lia.
    replace (n - 1 - S i)%nat with k by lia. reflexivity.
Qed.

Lemma roll_one_hot_pred (i n : nat) :
  (i < n)%nat -> roll (one_hot (S i mod n) n) (-1) = one_hot i n.
Proof.
  intros Hi. rewrite (one_hot_split i n Hi).
  destruct (n - 1 - i)%nat as [|k] eqn:Ek.
  - replace (S i) with n by lia. rewrite Nat.Div0.mod_same.
    rewrite one_hot_split by lia. change (zeros 0) with (@nil Qc).
    simpl app. rewrite roll_left.
    replace (n - 1 - 0)%nat with i by lia. reflexivity.
  - rewrite Nat.mod_small by lia. rewrite one_hot_split by lia.
    replace (n - 1 - S i)%nat with k by lia.
    change (zeros (S i)) with (0 :: zeros i). simpl app.
    rewrite roll_left, zeros_snoc, <- app_assoc. reflexivity.
Qed.

(** Writing and reading at a one-hot position. *)

Lemma assign_one_hot (m : nat) (l1 : list vec) (r : vec) (l2 : list vec)
      (element : vec) :
  length element = m ->
  Forall (fun r : vec => length r = m) (l1 ++ r :: l2) ->
  assign_index_vectored (Mat m (l1 ++ r :: l2))
    (one_hot (length l1) (length (l1 ++ r :: l2))) element
  = Some (Mat m (l1 ++ element :: l2)).
Proof.
  intros He Hwf.
  rewrite assign_index_vectored_blend by (auto using one_hot_length).
  rewrite one_hot_split by (rewrite length_app; simpl; lia).
  rewrite map2_app by (now rewrite zeros_length).
  rewrite map2_cons.
  apply Forall_app in Hwf. destruct Hwf as [H1 H2].
  inversion H2 as [|r' l2' Hr H2' Heq]; subst r' l2'.
  rewrite (map2_blend_zeros m element l1 He H1), blend_1 by congruence.
  replace (length (l1 ++ r :: l2) - 1 - length l1)%nat with (length l2)
    by (rewrite length_app; simpl; lia).
  rewrite (map2_blend_zeros m element l2 He H2'). reflexivity.
Qed.

Lemma lookup_one_hot (m : nat) (l1 : list vec) (r : vec) (l2 : list vec) :
  Forall (fun r : vec => length r = m) (l1 ++ r :: l2) ->
  superposition_lookup_vectored (Arr2 (Mat m (l1 ++ r :: l2)))
    (one_hot (length l1) (length (l1 ++ r :: l2)))
  = Some r.
Proof.
  intros Hwf.
  rewrite superposition_lookup_vectored_sum by (auto using one_hot_length).
  rewrite one_hot_split by (rewrite length_app; simpl; lia).
  rewrite map2_app by (now rewrite zeros_length).
  rewrite map2_cons, fold_left_app.
  apply Forall_app in Hwf. destruct Hwf as [H1 H2].
  inversion H2 as [|r' l2' Hr H2' Heq]; subst r' l2'.
  rewrite (fold_zero_rows m) by (auto using zeros_length).
  simpl. rewrite scale_1.
  replace (length (l1 ++ r :: l2) - 1 - length l1)%nat with (length l2)
    by (rewrite length_app; simpl; lia).
  rewrite <- Hr at 1. rewrite vadd_zeros_l.
  rewrite (fold_zero_rows m) by auto. reflexivity.
Qed.

End OneHot.

(** ** One step of the stack at a one-hot position

    The buffer is cut at the position: [pre] holds the rows below it. *)

Lemma stack_push_step (m n : nat) (pre : list vec) (p : vec) (post : list vec)
      (e : vec) :
  length pre + S (length post) = n ->
  length e = m ->
  Forall (has_width m) (pre ++ p :: post) ->
  stack_push (Mat m (pre ++ p :: post), one_hot (length pre) n) e
  = Some (Mat m (pre ++ e :: post), one_hot (S (length pre) mod n) n).
Proof.
  intros Hn He Hwf. unfold stack_push.
  assert (Hlen : length (pre ++ p :: post) = n)
    by (rewrite length_app; simpl; lia).
  rewrite <- Hlen at 1. rewrite (assign_one_hot m _ _ _ _ He Hwf). simpl.
  rewrite roll_one_hot_succ by lia. reflexivity.
Qed.

Lemma stack_pop_step (m n : nat) (pre : list vec) (p : vec) (post : list vec) :
  length pre + S (length post) = n ->
  Forall (has_width m) (pre ++ p :: post) ->
  stack_pop (Mat m (pre ++ p :: post), one_hot (S (length pre) mod n) n)
  = Some ((Mat m (pre ++ p :: post), one_hot (length pre) n), p).
Proof.
  intros Hn Hwf. unfold stack_pop.
  rewrite roll_one_hot_pred by lia.
  assert (Hlen : length (pre ++ p :: post) = n)
    by (rewrite length_app; simpl; lia).
  rewrite <- Hlen at 1. rewrite (lookup_one_hot m _ _ _ Hwf).
  reflexivity.
Qed.

(** ** The loops of [reverse_list] *)

(** Pushing a list of elements above [pre], over the rows [post]. *)
Lemma push_all_spec (m n : nat) (es pre post : list vec) :
  length pre + length post = n ->
  length es <= length post ->
  Forall (has_width m) es ->
  Forall (has_width m) pre ->
  Forall (has_width m) post ->
  push_all (Mat m (pre ++ post), one_hot (length pre mod n) n) es
  = Some (Mat m (pre ++ es ++ skipn (length es) post),
          one_hot ((length pre + length es) mod n) n).
Proof.
  revert pre post.
  induction es as [|e es IH]; intros pre post Hn Hle Hes Hpre Hpost.
  - simpl. rewrite Nat.add_0_r. reflexivity.
  - destruct post as [|p post]; simpl in Hle; [lia|].
    inversion Hes as [|e' es' He Hes' Heq]; subst e' es'.
    inversion Hpost as [|p' post' Hp Hpost' Heq]; subst p' post'.
    simpl in Hn. simpl push_all.
    rewrite Nat.mod_small by lia.
    rewrite (stack_push_step m n); auto.
    2: apply Forall_app; auto.
    simpl bind.
    replace (pre ++ e :: post) with ((pre ++ [e]) ++ post)
      by (rewrite <- app_assoc; reflexivity).
    replace (S (length pre)) with (length (pre ++ [e]))
      by (rewrite length_app; simpl; lia).
    rewrite IH; try assumption.
    + rewrite <- !app_assoc. simpl. rewrite length_app. simpl.
      replace (length pre + 1 + length es) with (length pre + S (length es))
        by lia.
      reflexivity.
    + rewrite length_app. simpl. lia.
    + lia.
    + apply Forall_app. auto.
Qed.

(** Popping the rows [taken] that lie between [pre] and [post]. *)
Lemma pop_n_spec (m n : nat) (taken pre post : list vec) :
  length pre + length taken + length post = n ->
  Forall (has_width m) (pre ++ taken ++ post) ->
  pop_n (length taken)
        (Mat m (pre ++ taken ++ post),
         one_hot ((length pre + length taken) mod n) n)
  = Some ((Mat m (pre ++ taken ++ post), one_hot (length pre mod n) n),
          rev taken).
Proof.
  revert post.
  induction taken as [|x tk IH] using rev_ind; intros post Hn Hwf.
  - simpl. rewrite Nat.add_0_r. reflexivity.
  - rewrite length_app in *. simpl length in *.
    rewrite Nat.add_1_r. simpl pop_n.
    rewrite <- app_assoc in *. simpl app in *.
    replace (length pre + S (length tk)) with (S (length (pre ++ tk)))
      by (rewrite length_app; lia).
    rewrite app_assoc in *.
    rewrite (stack_pop_step m n); [|rewrite length_app; lia|assumption].
    simpl bind. rewrite <- app_assoc in *.
    replace (length (pre ++ tk)) with ((length pre + length tk) mod n)
      by (rewrite length_app; apply Nat.mod_small; lia).
    rewrite IH; [|simpl; lia|assumption].
    simpl. rewrite rev_app_distr. reflexivity.
Qed.

(** Moving the rows [taken] of the first stack onto the second one. *)
Lemma transfer_spec (m n n2 : nat) (taken pre post pre2 post2 : list vec) :
  length pre + length taken + length post = n ->
  length pre2 + length post2 = n2 ->
  length taken <= length post2 ->
  Forall (has_width m) (pre ++ taken ++ post) ->
  Forall (has_width m) pre2 ->
  Forall (has_width m) post2 ->
  transfer (length taken)
           (Mat m (pre ++ taken ++ post),
            one_hot ((length pre + length taken) mod n) n)
           (Mat m (pre2 ++ post2), one_hot (length pre2 mod n2) n2)
  = Some ((Mat m (pre ++ taken ++ post), one_hot (length pre mod n) n),
          (Mat m (pre2 ++ rev taken ++ skipn (length taken) post2),
           one_hot ((length pre2 + length taken) mod n2) n2)).
Proof.
  revert post pre2 post2.
  induction taken as [|x tk IH] using rev_ind;
    intros post pre2 post2 Hn Hn2 Hle Hwf Hpre2 Hpost2.
  - simpl. rewrite !Nat.add_0_r. reflexivity.
  - rewrite length_app in *. simpl length in *.
    rewrite Nat.add_1_r in *. simpl transfer.
    destruct post2 as [|p2 post2]; simpl in Hle; [lia|].
    inversion Hpost2 as [|p' post' Hp Hpost2' Heq]; subst p' post'.
    simpl in Hn2.
    rewrite <- app_assoc in *. simpl app in *.
    replace (length pre + S (length tk)) with (S (length (pre ++ tk)))
      by (rewrite length_app; lia).
    assert (Hx : length x = m).
    { apply Forall_app in Hwf. destruct Hwf as [_ Hwf].
      apply Forall_app in Hwf. destruct Hwf as [_ Hwf].
      inversion Hwf; assumption. }
    rewrite app_assoc in *.
    rewrite (stack_pop_step m n); [|rewrite length_app; lia|assumption].
    simpl bind. rewrite <- app_assoc in *.
    rewrite (Nat.mod_small (length pre2)) by lia.
    rewrite (stack_push_step m n2); auto.
    2: apply Forall_app; auto.
    simpl bind.
    replace (length (pre ++ tk)) with ((length pre + length tk) mod n)
      by (rewrite length_app; apply Nat.mod_small; lia).
    replace (pre2 ++ x :: post2) with ((pre2 ++ [x]) ++ post2)
      by (rewrite <- app_assoc; reflexivity).
    replace (S (length pre2)) with (length (pre2 ++ [x]))
      by (rewrite length_app; simpl; lia).
    rewrite IH; try assumption.
    + rewrite rev_app_distr, <- !app_assoc. simpl. rewrite length_app. simpl.
      replace (length pre2 + 1 + length tk) with (length pre2 + S (length tk))
        by lia.
      reflexivity.
    + simpl. lia.
    + rewrite length_app. simpl. lia.
    + lia.
    + apply Forall_app. auto.
Qed.

(** ** The stack at a position given by its index *)

Lemma roll_length {A : Type} (l : list A) (shift : Z) :
  length (roll l shift) = length l.
Proof.
  unfold roll. destruct l as [|x l]; [reflexivity|].
  set (k := Z.to_nat _).
  rewrite length_app, length_skipn, length_firstn.
  assert (k < length (x :: l)); [|lia].
  unfold k.
  pose proof (Z.mod_pos_bound (- shift) (Z.of_nat (length (x :: l)))) as Hb.
  simpl length in *. lia.
Qed.

Lemma Forall_firstn_skipn {A : Type} (P : A -> Prop) (k : nat) (l : list A) :
  Forall P l -> Forall P (firstn k l) /\ Forall P (skipn k l).
Proof.
  intros H. rewrite <- (firstn_skipn k l) in H.
  apply Forall_app in H. exact H.
Qed.

Lemma set_row_length (i : nat) (e : vec) (rs : list vec) :
  i < length rs -> length (set_row i e rs) = length rs.
Proof.
  intros Hi. unfold set_row.
  rewrite length_app, length_firstn.
  change (length (e :: skipn (S i) rs)) with (S (length (skipn (S i) rs))).
  rewrite length_skipn. lia.
Qed.

Lemma set_row_width (m i : nat) (e : vec) (rs : list vec) :
  has_width m e -> Forall (has_width m) rs ->
  Forall (has_width m) (set_row i e rs).
Proof.
  intros He Hrs. unfold set_row. apply Forall_app. split.
  - apply Forall_firstn_skipn. exact Hrs.
  - constructor; [exact He|]. apply Forall_firstn_skipn. exact Hrs.
Qed.

Lemma set_row_nth (i : nat) (e d : vec) (rs : list vec) :
  i < length rs -> nth i (set_row i e rs) d = e.
Proof.
  intros Hi. unfold set_row.
  rewrite app_nth2; rewrite length_firstn; [|lia].
  replace (i - Nat.min i (length rs)) with 0 by lia. reflexivity.
Qed.

Lemma stack_push_at (m n i : nat) (rs : list vec) (e : vec) :
  length rs = n -> Forall (has_width m) rs -> length e = m -> i < n ->
  stack_push (Mat m rs, one_hot i n) e
  = Some (Mat m (set_row i e rs), one_hot (S i mod n) n).
Proof.
  intros Hn Hwf He Hi.
  destruct (split_at rs i [] ltac:(lia)) as (pre & post & Hf & Hs & Hrs & Hpre).
  unfold set_row. rewrite Hf, Hs.
  assert (Hlen : length pre + S (length post) = n).
  { rewrite <- Hn, Hrs at 1. rewrite length_app. reflexivity. }
  remember (nth i rs []) as p eqn:Hp.
  rewrite Hrs in Hwf |- *. rewrite <- Hpre.
  apply stack_push_step; assumption.
Qed.

Lemma stack_pop_at (m n i : nat) (rs : list vec) :
  length rs = n -> Forall (has_width m) rs -> i < n ->
  stack_pop (Mat m rs, one_hot (S i mod n) n)
  = Some ((Mat m rs, one_hot i n), nth i rs []).
Proof.
  intros Hn Hwf Hi.
  destruct (split_at rs i [] ltac:(lia)) as (pre & post & _ & _ & Hrs & Hpre).
  assert (Hlen : length pre + S (length post) = n).
  { rewrite <- Hn, Hrs at 1. rewrite length_app. reflexivity. }
  remember (nth i rs []) as p eqn:Hp.
  rewrite Hrs in Hwf |- *. rewrite <- Hpre.
  apply stack_pop_step; assumption.
Qed.

(** The position below [i], cyclically. *)
Lemma succ_pred_mod (i n : nat) :
  i < n -> S ((i + n - 1) mod n) mod n = i.
Proof.
  intros Hi. destruct i as [|i].
  - replace (0 + n - 1) with (n - 1) by lia.
    rewrite (Nat.mod_small (n - 1)) by lia.
    replace (S (n - 1)) with n by lia. apply Nat.Div0.mod_same.
  - replace (S i + n - 1) with (i + 1 * n) by lia.
    rewrite Nat.Div0.mod_add, (Nat.mod_small i) by lia.
    apply Nat.mod_small. lia.
Qed.

(** The position after pushing a list of elements, wrapping included. *)
Lemma push_all_position (m n : nat) (es rs : list vec) (i : nat) :
  length rs = n -> Forall (has_width m) rs -> Forall (has_width m) es ->
  i < n ->
  exists rs',
    push_all (Mat m rs, one_hot i n) es
    = Some (Mat m rs', one_hot ((i + length es) mod n) n)
    /\ length rs' = n /\ Forall (has_width m) rs'.
Proof.
  revert rs i. induction es as [|e es IH]; intros rs i Hn Hwf Hes Hi.
  - exists rs. simpl. rewrite Nat.add_0_r, Nat.mod_small by lia. auto.
  - inversion Hes as [|e' es' He Hes' Heq]; subst e' es'.
    simpl push_all. rewrite (stack_push_at m n) by assumption.
    simpl bind.
    destruct (IH (set_row i e rs) (S i mod n)) as (rs' & Hpush & Hlen & Hwf').
    + rewrite set_row_length; lia.
    + apply set_row_width; assumption.
    + assumption.
    + apply Nat.mod_upper_bound. lia.
    + exists rs'. rewrite Hpush. repeat split; try assumption.
      rewrite Nat.Div0.add_mod_idemp_l. simpl length.
      replace (S i + length es) with (i + S (length es)) by lia.
      reflexivity.
Qed.

(** * The properties of the differentiable stack *)

Lemma skipn_repeat {A : Type} (x : A) (k n : nat) :
  skipn k (repeat x n) = repeat x (n - k).
Proof.
  revert k. induction n as [|n IH]; intros [|k]; try reflexivity.
  simpl. apply IH.
Qed.

Lemma zeros2_width (m n : nat) : Forall (has_width m) (repeat (zeros m) n).
Proof.
  apply Forall_forall. intros r Hr. apply repeat_spec in Hr. subst r.
  apply zeros_length.
Qed.

(** A push followed by a pop. *)
Lemma push_pop_at (m n i : nat) (rs : list vec) (e : vec) :
  length rs = n -> Forall (has_width m) rs -> has_width m e -> i < n ->
  (s' <- stack_push (Mat m rs, one_hot i n) e ;; stack_pop s')
  = Some ((Mat m (set_row i e rs), one_hot i n), e).
Proof.
  intros Hn Hwf He Hi.
  rewrite (stack_push_at m n) by assumption. simpl bind.
  rewrite (stack_pop_at m n).
  - rewrite set_row_nth by lia. reflexivity.
  - rewrite set_row_length; lia.
  - apply set_row_width; assumption.
  - exact Hi.
Qed.

(** Pushes onto a fresh stack, then as many pops. *)
Lemma fresh_push_pop (m n : nat) (es : list vec) :
  Forall (has_width m) es -> length es <= n ->
  (s <- push_all (new_stack (n, m)) es ;; pop_n (length es) s)
  = Some ((Mat m (es ++ repeat (zeros m) (n - length es)), one_hot 0 n),
          rev es).
Proof.
  intros Hes Hle. unfold new_stack, zeros2. simpl fst. simpl snd.
  pose proof (push_all_spec m n es [] (repeat (zeros m) n)) as Hpush.
  simpl in Hpush. rewrite Nat.Div0.mod_0_l in Hpush.
  rewrite Hpush; auto using zeros2_width; try (rewrite repeat_length; lia).
  simpl bind. rewrite skipn_repeat.
  pose proof (pop_n_spec m n es [] (repeat (zeros m) (n - length es))) as Hpop.
  simpl in Hpop. rewrite Nat.Div0.mod_0_l in Hpop.
  apply Hpop.
  - rewrite repeat_length. lia.
  - apply Forall_app. auto using zeros2_width.
Qed.

(** C1 (as amended): for a stack whose position is one-hot at [i], a push
    of [e] followed by a pop returns [e] and a state whose position is the
    one before the push and whose buffer is the one before the push with
    the row at [i] holding [e]; and [length es <= n] pushes onto a fresh
    stack of bandwidth [n] followed by as many pops return the elements in
    the reverse order of insertion. *)
Theorem stack_round_trip (m n : nat) :
  (forall (rs : list vec) (i : nat) (e : vec),
      length rs = n -> Forall (has_width m) rs -> has_width m e -> i < n ->
      (s' <- stack_push (Mat m rs, one_hot i n) e ;; stack_pop s')
      = Some ((Mat m (set_row i e rs), one_hot i n), e))
  /\
  (forall es : list vec,
      Forall (has_width m) es -> length es <= n ->
      option_map snd
        (s <- push_all (new_stack (n, m)) es ;; pop_n (length es) s)
      = Some (rev es)).
Proof.
  split.
  - intros rs i e. apply push_pop_at.
  - intros es Hes Hle. rewrite fresh_push_pop by assumption. reflexivity.
Qed.

Lemma stack_round_trip_witness :
  (s' <- stack_push (Mat 1 [[qc 5]; [qc 6]], one_hot 1 2) [qc 7] ;;
   stack_pop s')
  = Some ((Mat 1 (set_row 1 [qc 7] [[qc 5]; [qc 6]]), one_hot 1 2), [qc 7])
  /\
  option_map snd
    (s <- push_all (new_stack (2, 1)) [[qc 7]; [qc 8]] ;; pop_n 2 s)
  = Some (rev [[qc 7]; [qc 8]]).
Proof.
  split.
  - apply (proj1 (stack_round_trip 1 2));
      [reflexivity | repeat constructor | reflexivity | lia].
  - apply (proj2 (stack_round_trip 1 2) [[qc 7]; [qc 8]]);
      [repeat constructor | simpl; lia].
Defined.

(** C1 as stated fails: after a push and a pop on the fresh stack of shape
    [[2, 1]] the buffer holds the pushed element in row 0, so the state is
    not the one before the push. *)
Lemma stack_round_trip_buffer_counterexample :
  (s' <- stack_push (new_stack (2, 1)) [qc 1] ;; stack_pop s')
  = Some ((Mat 1 [[qc 1]; [qc 0]], one_hot 0 2), [qc 1])
  /\ Mat 1 [[qc 1]; [qc 0]] <> fst (new_stack (2, 1)).
Proof.
  split.
  - apply (push_pop_at 1 2 0 [[qc 0]; [qc 0]] [qc 1]);
      [reflexivity | repeat constructor | reflexivity | lia].
  - intros H. vm_compute in H. discriminate H.
Qed.

(** C2: [reverse_list] returns the rows of a rank-2 array in reverse
    order, and applied twice it returns the array. *)
Theorem reverse_list_reverses (arr : matrix) :
  wf_matrix arr ->
  reverse_list arr = Some (Mat (ncols arr) (rev (rows arr)))
  /\ (once <- reverse_list arr ;; reverse_list once) = Some arr.
Proof.
  assert (Hrev : forall m rs, Forall (has_width m) rs ->
                              reverse_list (Mat m rs) = Some (Mat m (rev rs))).
  { intros m rs Hwf. unfold reverse_list, shape, new_stack, zeros2.
    simpl fst. simpl snd. simpl rows. simpl ncols.
    remember (length rs) as n eqn:Hn.
    pose proof (push_all_spec m n rs [] (repeat (zeros m) n)) as Hpush.
    simpl in Hpush.
    rewrite <- Hn, Nat.Div0.mod_0_l, Nat.Div0.mod_same, skipn_repeat,
      Nat.sub_diag in Hpush.
    simpl in Hpush. rewrite app_nil_r in Hpush.
    rewrite Hpush; auto using zeros2_width; try (rewrite repeat_length; lia).
    simpl bind.
    pose proof (transfer_spec m n n rs [] [] [] (repeat (zeros m) n)) as Htr.
    simpl in Htr.
    rewrite <- Hn, app_nil_r, Nat.Div0.mod_0_l, Nat.Div0.mod_same,
      skipn_repeat, Nat.sub_diag in Htr.
    simpl in Htr. rewrite app_nil_r in Htr.
    rewrite Htr; auto using zeros2_width; try (rewrite repeat_length; lia). }
  intros Hwf. destruct arr as [m rs]. unfold wf_matrix in Hwf. simpl in *.
  rewrite (Hrev m rs Hwf). split; [reflexivity|].
  simpl bind. rewrite Hrev by (apply Forall_rev; exact Hwf).
  rewrite rev_involutive. reflexivity.
Qed.

Lemma reverse_list_reverses_witness :
  reverse_list (Mat 2 [[qc 1; qc 1]; [qc 2; qc 2]; [qc 3; qc 3]])
  = Some (Mat 2 (rev [[qc 1; qc 1]; [qc 2; qc 2]; [qc 3; qc 3]]))
  /\ (once <- reverse_list (Mat 2 [[qc 1; qc 1]; [qc 2; qc 2]; [qc 3; qc 3]]) ;;
      reverse_list once)
     = Some (Mat 2 [[qc 1; qc 1]; [qc 2; qc 2]; [qc 3; qc 3]]).
Proof.
  apply (reverse_list_reverses
           (Mat 2 [[qc 1; qc 1]; [qc 2; qc 2]; [qc 3; qc 3]])).
  repeat constructor.
Defined.

(** C8: the position of a stack moves by cyclic rotation.  From a position
    that is one-hot at [i], a push leaves it one-hot at [i + 1] modulo the
    bandwidth and a pop one-hot at [i - 1] modulo the bandwidth; a push at
    the last slot succeeds and wraps the position to slot 0; and after
    exactly [n] pushes the position is the one it started from. *)
Theorem position_rotates (m n i : nat) (rs : list vec) :
  length rs = n -> Forall (has_width m) rs -> i < n ->
  (forall e, has_width m e ->
     exists buffer',
       stack_push (Mat m rs, one_hot i n) e
       = Some (buffer', one_hot (S i mod n) n))
  /\ S i mod n < n
  /\ (exists element,
       stack_pop (Mat m rs, one_hot i n)
       = Some ((Mat m rs, one_hot ((i + n - 1) mod n) n), element))
  /\ (i + n - 1) mod n < n
  /\ (forall e, has_width m e ->
        exists buffer',
          stack_push (Mat m rs, one_hot (n - 1) n) e
          = Some (buffer', one_hot 0 n))
  /\ (forall es, length es = n -> Forall (has_width m) es ->
        exists buffer',
          push_all (Mat m rs, one_hot i n) es = Some (buffer', one_hot i n)).
Proof.
  intros Hn Hwf Hi. repeat split.
  - intros e He. eexists. apply stack_push_at; assumption.
  - apply Nat.mod_upper_bound. lia.
  - exists (nth ((i + n - 1) mod n) rs []).
    rewrite <- (succ_pred_mod i n Hi) at 1.
    apply stack_pop_at; try assumption.
    apply Nat.mod_upper_bound. lia.
  - apply Nat.mod_upper_bound. lia.
  - intros e He. eexists.
    rewrite (stack_push_at m n (n - 1)) by (assumption || lia).
    replace (S (n - 1)) with n by lia.
    rewrite Nat.Div0.mod_same. reflexivity.
  - intros es Hes Hwes.
    destruct (push_all_position m n es rs i Hn Hwf Hwes Hi)
      as (rs' & Hpush & _ & _).
    exists (Mat m rs'). rewrite Hpush, Hes.
    replace (i + n) with (i + 1 * n) by lia.
    rewrite Nat.Div0.mod_add, Nat.mod_small by lia. reflexivity.
Qed.

Lemma position_rotates_witness :
  (forall e, has_width 1 e ->
     exists buffer',
       stack_push (Mat 1 [[qc 5]; [qc 6]; [qc 7]], one_hot 2 3) e
       = Some (buffer', one_hot (3 mod 3) 3))
  /\ 3 mod 3 < 3
  /\ (exists element,
       stack_pop (Mat 1 [[qc 5]; [qc 6]; [qc 7]], one_hot 2 3)
       = Some ((Mat 1 [[qc 5]; [qc 6]; [qc 7]],
                one_hot ((2 + 3 - 1) mod 3) 3), element))
  /\ (2 + 3 - 1) mod 3 < 3
  /\ (forall e, has_width 1 e ->
        exists buffer',
          stack_push (Mat 1 [[qc 5]; [qc 6]; [qc 7]], one_hot (3 - 1) 3) e
          = Some (buffer', one_hot 0 3))
  /\ (forall es, length es = 3 -> Forall (has_width 1) es ->
        exists buffer',
          push_all (Mat 1 [[qc 5]; [qc 6]; [qc 7]], one_hot 2 3) es
          = Some (buffer', one_hot 2 3)).
Proof.
  apply (position_rotates 1 3 2 [[qc 5]; [qc 6]; [qc 7]]);
    [reflexivity | repeat constructor | lia].
Defined.

(** C9: on a stack whose position vector has the length of the buffer,
    [stack_pop] returns a state with the buffer it was given (the popped
    row is not cleared) and the rolled position, and [stack_peek] returns
    the element that [stack_pop] returns; [stack_peek] returns no state,
    so the buffer and the position of its argument stay as they are. *)
Theorem pop_keeps_buffer_peek_reads_top (buffer : matrix) (index : vec) :
  length index = length (rows buffer) ->
  exists element,
    stack_pop (buffer, index) = Some ((buffer, roll index (-1)), element)
    /\ stack_peek (buffer, index) = Some element.
Proof.
  intros Hlen. destruct buffer as [m rs]. simpl in Hlen.
  exists (fold_left vadd (map2 scale rs (roll index (-1))) (zeros m)).
  unfold stack_pop, stack_peek.
  rewrite superposition_lookup_vectored_sum
    by (rewrite roll_length; exact Hlen).
  split; reflexivity.
Qed.

Lemma pop_keeps_buffer_peek_reads_top_witness :
  exists element,
    stack_pop (Mat 1 [[qc 5]; [qc 6]], [qc 0; qc 1])
    = Some ((Mat 1 [[qc 5]; [qc 6]], roll [qc 0; qc 1] (-1)), element)
    /\ stack_peek (Mat 1 [[qc 5]; [qc 6]], [qc 0; qc 1]) = Some element.
Proof.
  apply (pop_keeps_buffer_peek_reads_top (Mat 1 [[qc 5]; [qc 6]])
           [qc 0; qc 1]).
  reflexivity.
Defined.

(** * Facts about positions: floor, ceiling and the interpolation factor *)

Section Positions.
Local Open Scope Qc_scope.

Lemma this_qc (z : Z) : this (qc z) = inject_Z z.
Proof.
  change (this (qc z)) with (Qred (inject_Z z)).
  apply Qred_identity. simpl. apply Z.gcd_1_r.
Qed.

Lemma this_plus (x y : Qc) : (this (x + y) == this x + this y)%Q.
Proof. apply Qred_correct. Qed.

Lemma this_opp (x : Qc) : (this (- x) == - this x)%Q.
Proof. apply Qred_correct. Qed.

Lemma this_minus (x y : Qc) : (this (x - y) == this x - this y)%Q.
Proof. unfold Qcminus. rewrite this_plus, this_opp. reflexivity. Qed.

Lemma this_mult (x y : Qc) : (this (x * y) == this x * this y)%Q.
Proof. apply Qred_correct. Qed.

Lemma Qcleb_le (x y : Qc) : Qcleb x y = true <-> x <= y.
Proof. unfold Qcleb, Qcle. apply Qle_bool_iff. Qed.

Lemma Qcleb_gt (x y : Qc) : Qcleb x y = false <-> y < x.
Proof.
  unfold Qcleb, Qclt. split; intros H.
  - apply Qnot_le_lt. intros Hle. apply Qle_bool_iff in Hle. congruence.
  - destruct (Qle_bool x y) eqn:E; [|reflexivity].
    apply Qle_bool_iff in E. exfalso. exact (Qlt_not_le _ _ H E).
Qed.

Lemma Qcltb_lt (x y : Qc) : Qcltb x y = true <-> x < y.
Proof.
  unfold Qcltb. rewrite negb_true_iff. apply Qcleb_gt.
Qed.

Lemma Qcltb_ge (x y : Qc) : Qcltb x y = false <-> y <= x.
Proof.
  unfold Qcltb. rewrite negb_false_iff. apply Qcleb_le.
Qed.

Lemma cast_int32_qc (z : Z) : cast_int32 (qc z) = z.
Proof.
  unfold cast_int32. rewrite this_qc.
  destruct (Qcleb 0 (qc z)); [apply Qfloor_Z|apply Qceiling_Z].
Qed.

Lemma floor_qc (p : Qc) : floor p = qc (Qfloor p).
Proof. reflexivity. Qed.

Lemma ceil_qc (p : Qc) : ceil p = qc (Qceiling p).
Proof. reflexivity. Qed.

Lemma qc_minus (a b : Z) : qc a - qc b = qc (a - b).
Proof.
  apply Qc_is_canon. rewrite this_minus, !this_qc.
  unfold Z.sub. rewrite inject_Z_plus, inject_Z_opp. reflexivity.
Qed.

(** Floor and ceiling of a position, in the integers. *)
Lemma floor_ceiling_gap (p : Qc) :
  (Qfloor p <= Qceiling p <= Qfloor p + 1)%Z.
Proof.
  split; [rewrite Zle_Qle; apply Qle_floor_ceiling|].
  pose proof (Qceiling_lt p) as H1. pose proof (Qlt_floor p) as H2.
  pose proof (Qlt_trans _ _ _ H1 H2) as H3.
  rewrite <- Zlt_Qlt in H3. lia.
Qed.

Lemma floor_nonneg (p : Qc) : 0 <= p -> (0 <= Qfloor p)%Z.
Proof.
  intros H. change 0%Z with (Qfloor 0). apply Qfloor_resp_le. exact H.
Qed.

Lemma floor_nonpos (p : Qc) : p <= 0 -> (Qfloor p <= 0)%Z.
Proof.
  intros H. change 0%Z with (Qfloor 0). apply Qfloor_resp_le. exact H.
Qed.

Lemma ceiling_nonpos (p : Qc) : p <= 0 -> (Qceiling p <= 0)%Z.
Proof.
  intros H. change 0%Z with (Qceiling 0). apply Qceiling_resp_le.
  exact H.
Qed.

Lemma ceiling_le (p : Qc) (z : Z) : p <= qc z -> (Qceiling p <= z)%Z.
Proof.
  intros H. rewrite <- (Qceiling_Z z). apply Qceiling_resp_le.
  unfold Qcle in H. rewrite this_qc in H. exact H.
Qed.

Lemma floor_ge (p : Qc) (z : Z) : qc z <= p -> (z <= Qfloor p)%Z.
Proof.
  intros H. rewrite <- (Qfloor_Z z) at 1. apply Qfloor_resp_le.
  unfold Qcle in H. rewrite this_qc in H. exact H.
Qed.

Lemma floor_of_qc (z : Z) : Qfloor (qc z) = z.
Proof. rewrite this_qc. apply Qfloor_Z. Qed.

Lemma ceiling_of_qc (z : Z) : Qceiling (qc z) = z.
Proof. rewrite this_qc. apply Qceiling_Z. Qed.

(** The fractional part of a position. *)
Lemma frac_bounds (p : Qc) : 0 <= p - floor p /\ p - floor p <= 1.
Proof.
  rewrite floor_qc. unfold Qcle. rewrite this_minus, this_qc.
  change (this 0) with 0%Q. change (this 1) with 1%Q.
  pose proof (Qfloor_le p) as H1. pose proof (Qlt_floor p) as H2.
  rewrite inject_Z_plus in H2. change (inject_Z 1) with 1%Q in H2.
  split; lra.
Qed.

End Positions.

Section Interpolation.
Local Open Scope Qc_scope.

Lemma interp_factor_spec (p : Qc) :
  interp_factor p
  = (if (Qceiling p =? Qfloor p)%Z then 0 else p - floor p,
     Qfloor p, Qceiling p).
Proof.
  unfold interp_factor. rewrite floor_qc, ceil_qc, !cast_int32_qc, qc_minus.
  f_equal. f_equal. unfold divide_no_nan.
  pose proof (floor_ceiling_gap p) as Hgap.
  destruct (Z.eqb_spec (Qceiling p) (Qfloor p)) as [E|E].
  - rewrite E, Z.sub_diag. reflexivity.
  - replace (Qceiling p - Qfloor p)%Z with 1%Z by lia.
    change (Qc_eq_bool (qc 1) 0) with false. cbv iota.
    change (qc 1) with 1. field. exact Q_apart_0_1.
Qed.

(** The interpolation factor of a position lies in [[0, 1]]. *)
Lemma interp_factor_bounds (p : Qc) :
  0 <= fst (fst (interp_factor p)) /\ fst (fst (interp_factor p)) <= 1.
Proof.
  rewrite interp_factor_spec. simpl fst.
  destruct (Qceiling p =? Qfloor p)%Z.
  - split; unfold Qcle; simpl; lra.
  - apply frac_bounds.
Qed.

Lemma clip_by_value_id (t : Qc) : 0 <= t -> t <= 1 -> clip_by_value t 0 1 = t.
Proof.
  intros H0 H1. unfold clip_by_value, minimum, maximum.
  apply Qcleb_le in H1. rewrite H1.
  destruct (Qcleb t 0) eqn:E; [|reflexivity].
  apply Qcleb_le in E. apply Qcle_antisym; assumption.
Qed.

Lemma clip_by_value_int_bounds (i : Z) (n : nat) :
  (0 < n)%nat ->
  (0 <= clip_by_value_int i 0 (Z.of_nat n - 1) < Z.of_nat n)%Z.
Proof. intros Hn. unfold clip_by_value_int. lia. Qed.

Lemma clip_by_value_int_id (i lo hi : Z) :
  (lo <= i <= hi)%Z -> clip_by_value_int i lo hi = i.
Proof. intros H. unfold clip_by_value_int. lia. Qed.

Lemma getitem_in_range {A : Type} (l : list A) (z : Z) :
  (0 <= z < Z.of_nat (length l))%Z ->
  getitem l z = nth_error l (Z.to_nat z).
Proof.
  intros [H0 H1]. unfold getitem.
  destruct (Z.ltb_spec z 0) as [E|E]; [lia|].
  destruct (Z.leb_spec 0 z) as [E0|E0]; [|lia].
  destruct (Z.ltb_spec z (Z.of_nat (length l))) as [E1|E1]; [|lia].
  reflexivity.
Qed.

Lemma eye_length (n : nat) : length (eye n) = n.
Proof. unfold eye. rewrite length_map. apply length_seq. Qed.

Lemma nth_error_eye (i n : nat) :
  (i < n)%nat -> nth_error (eye n) i = Some (one_hot i n).
Proof.
  intros Hi. unfold eye. rewrite nth_error_map.
  rewrite (nth_error_nth' _ 0%nat) by (rewrite length_seq; exact Hi).
  rewrite seq_nth by exact Hi. reflexivity.
Qed.

Lemma getitem_eye (z : Z) (n : nat) :
  (0 <= z < Z.of_nat n)%Z -> getitem (eye n) z = Some (one_hot (Z.to_nat z) n).
Proof.
  intros Hz. rewrite getitem_in_range by (rewrite eye_length; exact Hz).
  apply nth_error_eye. lia.
Qed.

(** [bandwidthify] in closed form: it never raises on a positive
    bandwidth. *)
Lemma bandwidthify_spec (p : Qc) (n : nat) :
  (0 < n)%nat ->
  bandwidthify p n
  = let t := clip_by_value (fst (fst (interp_factor p))) 0 1 in
    let i1 := clip_by_value_int (Qfloor p) 0 (Z.of_nat n - 1) in
    let i2 := clip_by_value_int (Qceiling p) 0 (Z.of_nat n - 1) in
    Some (vadd (map (fun a => t * a) (one_hot (Z.to_nat i1) n))
               (map (fun a => (1 - t) * a) (one_hot (Z.to_nat i2) n))).
Proof.
  intros Hn. unfold bandwidthify. rewrite interp_factor_spec. simpl fst.
  rewrite !getitem_eye by (apply clip_by_value_int_bounds; exact Hn).
  reflexivity.
Qed.

(** Sums of entries. *)

Lemma vsum_vadd (u v : vec) :
  length u = length v -> vsum (vadd u v) = vsum u + vsum v.
Proof.
  revert v. induction u as [|a u IH]; intros [|b v] H; simpl in H;
    try discriminate.
  - simpl. ring.
  - unfold vadd. rewrite map2_cons. simpl. fold (vadd u v).
    rewrite IH by lia. ring.
Qed.

Lemma vsum_scale (c : Qc) (u : vec) :
  vsum (map (fun a => c * a) u) = c * vsum u.
Proof.
  induction u as [|a u IH]; simpl; [ring|]. rewrite IH. ring.
Qed.

Lemma vsum_zeros (n : nat) : vsum (zeros n) = 0.
Proof.
  unfold vsum, zeros. induction n as [|n IH]; simpl; [reflexivity|].
  rewrite IH. ring.
Qed.

Lemma vsum_app (u v : vec) : vsum (u ++ v) = vsum u + vsum v.
Proof.
  induction u as [|a u IH]; simpl; [ring|]. rewrite IH. ring.
Qed.

Lemma vsum_one_hot (i n : nat) : (i < n)%nat -> vsum (one_hot i n) = 1.
Proof.
  intros Hi. rewrite one_hot_split by exact Hi.
  rewrite vsum_app. simpl. rewrite !vsum_zeros. ring.
Qed.

Lemma convex_same (t : Qc) (u : vec) :
  vadd (map (fun a => t * a) u) (map (fun a => (1 - t) * a) u) = u.
Proof.
  induction u as [|a u IH]; [reflexivity|].
  simpl. unfold vadd in *. rewrite map2_cons, IH. f_equal. ring.
Qed.

End Interpolation.

(** * The properties of the lookups *)

Section LookupProperties.
Local Open Scope Qc_scope.

Lemma lookup_at (m n i : nat) (rs : list vec) :
  length rs = n -> Forall (has_width m) rs -> (i < n)%nat ->
  superposition_lookup_vectored (Arr2 (Mat m rs)) (one_hot i n)
  = Some (nth i rs []).
Proof.
  intros Hn Hwf Hi.
  destruct (split_at rs i [] ltac:(lia)) as (pre & post & _ & _ & Hrs & Hpre).
  remember (nth i rs []) as r eqn:Hr.
  rewrite <- Hn, <- Hpre. rewrite Hrs in Hwf |- *.
  apply (lookup_one_hot m). exact Hwf.
Qed.

Lemma lookup_at_rank1 (v : vec) (i : nat) :
  (i < length v)%nat ->
  superposition_lookup_vectored (Arr1 v) (one_hot i (length v))
  = Some (nth i v 0 :: nil).
Proof.
  intros Hi.
  change (superposition_lookup_vectored (Arr1 v) (one_hot i (length v)))
    with (superposition_lookup_vectored
            (Arr2 (Mat 1 (map (fun x => x :: nil) v)))
            (one_hot i (length v))).
  rewrite (lookup_at 1 (length v)).
  - rewrite (nth_indep _ [] (0 :: nil)) by (rewrite length_map; exact Hi).
    rewrite (map_nth (fun x => x :: nil)). reflexivity.
  - apply length_map.
  - apply Forall_forall. intros r Hr. apply in_map_iff in Hr.
    destruct Hr as (x & <- & _). reflexivity.
  - exact Hi.
Qed.

(** C3 (as amended): on every array of rank 1 or 2 and every position
    [i] below its number of entries, the weighted-sum lookup with the exact
    one-hot weights at [i] returns exactly the entry [arr[i]]: the row [i]
    of a rank-2 array, and for a rank-1 array its element [i] as a tensor
    of shape [[1]]. *)
Theorem superposition_lookup_one_hot (arr : array) (i : nat) :
  wf_array arr -> (i < bandwidth_of arr)%nat ->
  exists a,
    entry arr i = Some a /\
    superposition_lookup_vectored arr (one_hot i (bandwidth_of arr)) = Some a.
Proof.
  intros Hwf Hi. destruct arr as [v|[m rs]]; simpl in *.
  - exists (nth i v 0 :: nil). split.
    + rewrite (nth_error_nth' v 0) by exact Hi. reflexivity.
    + apply lookup_at_rank1. exact Hi.
  - exists (nth i rs []). split.
    + apply nth_error_nth'. exact Hi.
    + apply lookup_at; auto.
Qed.

Lemma superposition_lookup_one_hot_witness :
  exists a,
    entry (Arr2 (Mat 2 [[qc 1; qc 2]; [qc 3; qc 4]; [qc 5; qc 6]])) 1
    = Some a /\
    superposition_lookup_vectored
      (Arr2 (Mat 2 [[qc 1; qc 2]; [qc 3; qc 4]; [qc 5; qc 6]]))
      (one_hot 1
         (bandwidth_of (Arr2 (Mat 2 [[qc 1; qc 2]; [qc 3; qc 4];
                                     [qc 5; qc 6]]))))
    = Some a.
Proof.
  apply (superposition_lookup_one_hot
           (Arr2 (Mat 2 [[qc 1; qc 2]; [qc 3; qc 4]; [qc 5; qc 6]])) 1%nat).
  - repeat constructor.
  - simpl. lia.
Defined.

End LookupProperties.

Section LinearLookup.
Local Open Scope Qc_scope.

(** A position inside an array of [n] entries has its floor and its
    ceiling inside the array. *)
Lemma position_in_range (p : Qc) (n : nat) :
  0 <= p -> p <= qc (Z.of_nat n - 1) ->
  (0 <= Qfloor p < Z.of_nat n)%Z /\ (0 <= Qceiling p < Z.of_nat n)%Z.
Proof.
  intros H0 H1.
  pose proof (floor_nonneg p H0). pose proof (ceiling_le p _ H1).
  pose proof (floor_ceiling_gap p). lia.
Qed.

Lemma getitem_nth {A : Type} (l : list A) (z : Z) (d : A) :
  (0 <= z < Z.of_nat (length l))%Z ->
  getitem l z = Some (nth (Z.to_nat z) l d).
Proof.
  intros Hz. rewrite getitem_in_range by exact Hz.
  apply nth_error_nth'. lia.
Qed.

Lemma convex_between (t a b : Qc) :
  0 <= t -> t <= 1 -> between a b (t * a + (1 - t) * b).
Proof.
  unfold between, Qcle. intros H0 H1.
  rewrite !this_plus, !this_mult, !this_minus.
  change (this 0) with 0%Q in *. change (this 1) with 1%Q in *.
  destruct (Qlt_le_dec (this a) (this b)) as [Hab|Hab].
  - left. split; nra.
  - right. split; nra.
Qed.

Lemma nth_convex (t : Qc) (a b : vec) (j : nat) :
  length a = length b -> (j < length a)%nat ->
  nth j (vadd (map (fun x => t * x) a) (map (fun x => (1 - t) * x) b)) 0
  = t * nth j a 0 + (1 - t) * nth j b 0.
Proof.
  revert b j. induction a as [|x a IH]; intros [|y b] j Hlen Hj;
    simpl in Hlen, Hj; try discriminate; try lia.
  simpl map. unfold vadd. rewrite map2_cons. fold (vadd (map (fun x => t * x) a)
                                                   (map (fun x => (1 - t) * x) b)).
  destruct j as [|j]; [reflexivity|].
  simpl nth. apply IH; lia.
Qed.

(** C5: for a position inside the array, [linear_lookup] returns a value
    between the entries at the floor and at the ceiling of the position
    (componentwise on an array of rows); at an integral position the
    interpolation factor is 0 and the value is the entry there. *)
Theorem linear_lookup_between :
  (forall (arr : vec) (p : Qc),
      0 <= p -> p <= qc (Z.of_nat (length arr) - 1) ->
      exists v a b,
        linear_lookup arr p = Some v
        /\ getitem arr (Qfloor p) = Some a
        /\ getitem arr (Qceiling p) = Some b
        /\ between a b v
        /\ (forall z, p = qc z ->
              fst (fst (interp_factor p)) = 0 /\ getitem arr z = Some v))
  /\
  (forall (arr : matrix) (p : Qc),
      wf_matrix arr ->
      0 <= p -> p <= qc (Z.of_nat (length (rows arr)) - 1) ->
      exists v a b,
        linear_lookup_rows arr p = Some v
        /\ getitem (rows arr) (Qfloor p) = Some a
        /\ getitem (rows arr) (Qceiling p) = Some b
        /\ length v = ncols arr
        /\ (forall j, (j < ncols arr)%nat ->
              between (nth j a 0) (nth j b 0) (nth j v 0))
        /\ (forall z, p = qc z ->
              fst (fst (interp_factor p)) = 0
              /\ getitem (rows arr) z = Some v)).
Proof.
  split.
  - intros arr p H0 H1.
    destruct (position_in_range p (length arr) H0 H1) as [Hf Hc].
    pose proof (interp_factor_bounds p) as [Ht0 Ht1].
    unfold linear_lookup.
    destruct (interp_factor p) as [[t i1] i2] eqn:E.
    rewrite interp_factor_spec in E. injection E as Et E1 E2. subst i1 i2.
    simpl fst in *.
    rewrite (getitem_nth arr (Qfloor p) 0 Hf).
    rewrite (getitem_nth arr (Qceiling p) 0 Hc).
    simpl bind. do 3 eexists. repeat split.
    + apply convex_between; assumption.
    + subst p. rewrite floor_of_qc, ceiling_of_qc, Z.eqb_refl in Et.
      symmetry. exact Et.
    + subst p. rewrite floor_of_qc, ceiling_of_qc, Z.eqb_refl in *.
      rewrite (getitem_nth arr z 0 Hf). subst t. f_equal. ring.
  - intros [m rs] p Hwf H0 H1. unfold wf_matrix in Hwf.
    cbn [rows ncols] in *.
    destruct (position_in_range p (length rs) H0 H1) as [Hf Hc].
    pose proof (interp_factor_bounds p) as [Ht0 Ht1].
    unfold linear_lookup_rows. simpl rows.
    destruct (interp_factor p) as [[t i1] i2] eqn:E.
    rewrite interp_factor_spec in E. injection E as Et E1 E2. subst i1 i2.
    simpl fst in *.
    rewrite (getitem_nth rs (Qfloor p) [] Hf).
    rewrite (getitem_nth rs (Qceiling p) [] Hc).
    simpl bind.
    assert (Ha : length (nth (Z.to_nat (Qfloor p)) rs []) = m).
    { apply (proj1 (Forall_forall _ _) Hwf). apply nth_In. lia. }
    assert (Hb : length (nth (Z.to_nat (Qceiling p)) rs []) = m).
    { apply (proj1 (Forall_forall _ _) Hwf). apply nth_In. lia. }
    do 3 eexists. repeat split.
    + rewrite vadd_length; rewrite !length_map; congruence.
    + intros j Hj. rewrite nth_convex by congruence.
      apply convex_between; assumption.
    + subst p. rewrite floor_of_qc, ceiling_of_qc, Z.eqb_refl in Et.
      symmetry. exact Et.
    + subst p. rewrite floor_of_qc, ceiling_of_qc, Z.eqb_refl in *.
      rewrite (getitem_nth rs z [] Hf). f_equal. symmetry. apply convex_same.
Qed.

End LinearLookup.

Lemma linear_lookup_between_witness :
  (exists v a b,
      linear_lookup [qc 1; qc 2; qc 4] (Q2Qc (3 # 2)) = Some v
      /\ getitem [qc 1; qc 2; qc 4] (Qfloor (Q2Qc (3 # 2))) = Some a
      /\ getitem [qc 1; qc 2; qc 4] (Qceiling (Q2Qc (3 # 2))) = Some b
      /\ between a b v
      /\ (forall z, Q2Qc (3 # 2) = qc z ->
            fst (fst (interp_factor (Q2Qc (3 # 2)))) = Q2Qc 0
            /\ getitem [qc 1; qc 2; qc 4] z = Some v))
  /\
  (exists v a b,
      linear_lookup_rows (Mat 2 [[qc 1; qc 2]; [qc 3; qc 5]]) (qc 1) = Some v
      /\ getitem [[qc 1; qc 2]; [qc 3; qc 5]] (Qfloor (qc 1)) = Some a
      /\ getitem [[qc 1; qc 2]; [qc 3; qc 5]] (Qceiling (qc 1)) = Some b
      /\ length v = 2
      /\ (forall j, j < 2 ->
            between (nth j a (Q2Qc 0)) (nth j b (Q2Qc 0)) (nth j v (Q2Qc 0)))
      /\ (forall z, qc 1 = qc z ->
            fst (fst (interp_factor (qc 1))) = Q2Qc 0
            /\ getitem [[qc 1; qc 2]; [qc 3; qc 5]] z = Some v)).
Proof.
  split.
  - apply (proj1 linear_lookup_between [qc 1; qc 2; qc 4] (Q2Qc (3 # 2)));
      vm_compute; discriminate.
  - apply (proj2 linear_lookup_between (Mat 2 [[qc 1; qc 2]; [qc 3; qc 5]])
             (qc 1)).
    + repeat constructor.
    + vm_compute; discriminate.
    + vm_compute; discriminate.
Defined.

(** * The scalar-index superposition lookup against linear interpolation *)

Section ScalarIndex.
Local Open Scope Qc_scope.

Lemma dot_cons (a x : Qc) (u w : vec) :
  dot (a :: u) (x :: w) = a * x + dot u w.
Proof. reflexivity. Qed.

Lemma fold_column (arr w : vec) (acc : Qc) :
  fold_left vadd (map2 scale (map (fun x => x :: nil) arr) w) (acc :: nil)
  = (acc + dot arr w) :: nil.
Proof.
  revert w acc. induction arr as [|a arr IH]; intros [|x w] acc;
    try (simpl; f_equal; unfold dot; simpl; ring).
  simpl map. rewrite map2_cons. simpl fold_left.
  change (vadd (acc :: nil) ((a * x) :: nil)) with ((acc + a * x) :: nil).
  rewrite IH, dot_cons. f_equal. ring.
Qed.

Lemma lookup_rank1 (arr w : vec) :
  length w = length arr ->
  superposition_lookup_vectored (Arr1 arr) w = Some (dot arr w :: nil).
Proof.
  intros Hlen. unfold superposition_lookup_vectored, mul_column.
  simpl rows. rewrite broadcast_same by (rewrite length_map; auto).
  simpl bind. unfold reduce_sum_0. simpl rows. simpl ncols.
  change (zeros 1) with (0 :: nil). rewrite fold_column. f_equal. f_equal.
  ring.
Qed.

Lemma dot_convex (t s : Qc) (arr u v : vec) :
  length u = length v ->
  dot arr (vadd (map (fun a => t * a) u) (map (fun a => s * a) v))
  = t * dot arr u + s * dot arr v.
Proof.
  revert u v. induction arr as [|a arr IH]; intros [|x u] [|y v] Hlen;
    simpl in Hlen; try discriminate; try (unfold dot; simpl; ring).
  simpl map. unfold vadd. rewrite map2_cons.
  fold (vadd (map (fun a => t * a) u) (map (fun a => s * a) v)).
  rewrite !dot_cons, IH by lia. ring.
Qed.

Lemma dot_one_hot (arr : vec) (i : nat) :
  (i < length arr)%nat -> dot arr (one_hot i (length arr)) = nth i arr 0.
Proof.
  intros Hi. pose proof (lookup_at_rank1 arr i Hi) as H.
  rewrite lookup_rank1 in H by apply one_hot_length.
  injection H. auto.
Qed.

Lemma nth_one_hot (i j n : nat) :
  (j < n)%nat -> nth j (one_hot i n) 0 = if (j =? i)%nat then 1 else 0.
Proof.
  intros Hj. apply nth_error_nth. unfold one_hot.
  rewrite nth_error_map.
  rewrite (nth_error_nth' _ 0%nat) by (rewrite length_seq; exact Hj).
  rewrite seq_nth by exact Hj. reflexivity.
Qed.

(** [bandwidthify] at a position inside the range: the weights of the
    interpolation at the floor and at the ceiling, nothing clipped. *)
Lemma bandwidthify_in_range (p : Qc) (n : nat) :
  0 <= p -> p <= qc (Z.of_nat n - 1) ->
  bandwidthify p n
  = Some (vadd (map (fun a => fst (fst (interp_factor p)) * a)
                    (one_hot (Z.to_nat (Qfloor p)) n))
               (map (fun a => (1 - fst (fst (interp_factor p))) * a)
                    (one_hot (Z.to_nat (Qceiling p)) n))).
Proof.
  intros H0 H1.
  destruct (position_in_range p n H0 H1) as [Hf Hc].
  pose proof (interp_factor_bounds p) as [Ht0 Ht1].
  rewrite bandwidthify_spec by lia. cbv zeta.
  rewrite clip_by_value_id by assumption.
  rewrite !clip_by_value_int_id by lia. reflexivity.
Qed.

End ScalarIndex.

Section ScalarIndexProperties.
Local Open Scope Qc_scope.

Lemma linear_lookup_in_range (arr : vec) (p : Qc) :
  0 <= p -> p <= qc (Z.of_nat (length arr) - 1) ->
  linear_lookup arr p
  = Some (fst (fst (interp_factor p)) * nth (Z.to_nat (Qfloor p)) arr 0
          + (1 - fst (fst (interp_factor p)))
            * nth (Z.to_nat (Qceiling p)) arr 0).
Proof.
  intros H0 H1.
  destruct (position_in_range p (length arr) H0 H1) as [Hf Hc].
  unfold linear_lookup.
  destruct (interp_factor p) as [[t i1] i2] eqn:E.
  rewrite interp_factor_spec in E. injection E as Et E1 E2. subst i1 i2.
  rewrite (getitem_nth arr (Qfloor p) 0 Hf).
  rewrite (getitem_nth arr (Qceiling p) 0 Hc).
  reflexivity.
Qed.

(** C10: on a rank-1 array and a position inside it, the scalar-index
    superposition lookup returns the value of [linear_lookup] (as a tensor
    of shape [[1]], the array being read as a column); the weight vector
    built by [bandwidthify] is zero away from the floor and the ceiling of
    the position, which are at most one apart. *)
Theorem superposition_lookup_is_linear_lookup (arr : vec) (p : Qc) :
  0 <= p -> p <= qc (Z.of_nat (length arr) - 1) ->
  exists v w,
    linear_lookup arr p = Some v
    /\ superposition_lookup (Arr1 arr) p = Some (v :: nil)
    /\ bandwidthify p (length arr) = Some w
    /\ (forall j, (j < length arr)%nat ->
          Z.of_nat j <> Qfloor p -> Z.of_nat j <> Qceiling p ->
          nth j w 0 = 0)
    /\ (Qfloor p <= Qceiling p <= Qfloor p + 1)%Z.
Proof.
  intros H0 H1.
  destruct (position_in_range p (length arr) H0 H1) as [Hf Hc].
  do 2 eexists. split; [apply linear_lookup_in_range; assumption|].
  split; [|split; [apply bandwidthify_in_range; assumption|split]].
  - unfold superposition_lookup. simpl bandwidth_of.
    rewrite bandwidthify_in_range by assumption. simpl bind.
    rewrite lookup_rank1
      by (rewrite vadd_length; rewrite !length_map, !one_hot_length;
          reflexivity).
    rewrite dot_convex by (rewrite !one_hot_length; reflexivity).
    rewrite !dot_one_hot by lia. reflexivity.
  - intros j Hj Hjf Hjc.
    rewrite nth_convex by (rewrite !one_hot_length; auto).
    rewrite !nth_one_hot by exact Hj.
    destruct (Nat.eqb_spec j (Z.to_nat (Qfloor p))) as [E|_]; [lia|].
    destruct (Nat.eqb_spec j (Z.to_nat (Qceiling p))) as [E|_]; [lia|].
    ring.
  - apply floor_ceiling_gap.
Qed.

Lemma superposition_lookup_is_linear_lookup_witness :
  exists v w,
    linear_lookup [qc 1; qc 2; qc 3; qc 4; qc 5] (Q2Qc (3 # 2)) = Some v
    /\ superposition_lookup (Arr1 [qc 1; qc 2; qc 3; qc 4; qc 5])
         (Q2Qc (3 # 2))
       = Some (v :: nil)
    /\ bandwidthify (Q2Qc (3 # 2)) (length [qc 1; qc 2; qc 3; qc 4; qc 5])
       = Some w
    /\ (forall j, (j < length [qc 1; qc 2; qc 3; qc 4; qc 5])%nat ->
          Z.of_nat j <> Qfloor (Q2Qc (3 # 2)) ->
          Z.of_nat j <> Qceiling (Q2Qc (3 # 2)) ->
          nth j w 0 = 0)
    /\ (Qfloor (Q2Qc (3 # 2)) <= Qceiling (Q2Qc (3 # 2))
        <= Qfloor (Q2Qc (3 # 2)) + 1)%Z.
Proof.
  apply (superposition_lookup_is_linear_lookup
           [qc 1; qc 2; qc 3; qc 4; qc 5] (Q2Qc (3 # 2)));
    vm_compute; discriminate.
Defined.

End ScalarIndexProperties.

(** * Facts about the scans [argmax] and [argmin] *)

Section ArgScan.
Local Open Scope Qc_scope.

(** [no_better x y]: the entry [y] is at least as good as [x]. *)
Variable no_better : Qc -> Qc -> Prop.
Variable better : Qc -> Qc -> bool.
Hypothesis no_better_refl : forall x, no_better x x.
Hypothesis no_better_trans :
  forall x y z, no_better x y -> no_better y z -> no_better x z.
Hypothesis better_true : forall b x, better b x = true -> no_better b x.
Hypothesis better_false : forall b x, better b x = false -> no_better x b.

Lemma arg_from_spec (l : vec) :
  forall (bi : nat) (b : Qc) (i : nat),
    (bi < i)%nat ->
    let r := arg_from better bi b i l in
    let best := if (r <? i)%nat then b else nth (r - i) l 0 in
    (r = bi \/ (i <= r < i + length l)%nat)
    /\ no_better b best
    /\ forall c, (c < length l)%nat -> no_better (nth c l 0) best.
Proof.
  induction l as [|x l IH]; intros bi b i Hbi; cbv zeta in *;
    simpl arg_from.
  - destruct (Nat.ltb_spec bi i); [|lia].
    repeat split; [left; reflexivity|apply no_better_refl|].
    simpl. intros c Hc. lia.
  - destruct (better b x) eqn:E.
    + destruct (IH i x (S i) ltac:(lia)) as (Hr & Hx & Hall).
      set (r := arg_from better i x (S i) l) in *.
      assert (Hri : (i <= r)%nat) by lia.
      destruct (Nat.ltb_spec r i); [lia|].
      assert (Hbest : (if (r <? S i)%nat then x else nth (r - S i) l 0)
                      = nth (r - i) (x :: l) 0).
      { destruct (Nat.ltb_spec r (S i)).
        - replace (r - i)%nat with 0%nat by lia. reflexivity.
        - replace (r - i)%nat with (S (r - S i)) by lia. reflexivity. }
      rewrite Hbest in *. repeat split.
      * right. simpl length. lia.
      * apply no_better_trans with x; [apply better_true; exact E|exact Hx].
      * intros [|c] Hc; [exact Hx|]. apply Hall. simpl in Hc. lia.
    + destruct (IH bi b (S i) ltac:(lia)) as (Hr & Hb & Hall).
      set (r := arg_from better bi b (S i) l) in *.
      assert (Hbest : (if (r <? S i)%nat then b else nth (r - S i) l 0)
                      = (if (r <? i)%nat then b else nth (r - i) (x :: l) 0)).
      { destruct (Nat.ltb_spec r (S i)); destruct (Nat.ltb_spec r i);
          try reflexivity; try lia.
        replace (r - i)%nat with (S (r - S i)) by lia. reflexivity. }
      rewrite Hbest in *. repeat split.
      * simpl length. lia.
      * exact Hb.
      * intros [|c] Hc.
        -- apply no_better_trans with b; [apply better_false; exact E|].
           exact Hb.
        -- apply Hall. simpl in Hc. lia.
Qed.

(** The scan of a non-empty slice returns the index of a best entry. *)
Lemma arg_scan_spec (x : Qc) (l : vec) :
  let r := arg_from better 0 x 1 l in
  (r < length (x :: l))%nat
  /\ forall c, (c < length (x :: l))%nat ->
               no_better (nth c (x :: l) 0) (nth r (x :: l) 0).
Proof.
  destruct (arg_from_spec l 0 x 1 ltac:(lia)) as (Hr & Hx & Hall).
  cbv zeta. set (r := arg_from better 0 x 1 l) in *.
  assert (Hbest : (if (r <? 1)%nat then x else nth (r - 1) l 0)
                  = nth r (x :: l) 0).
  { destruct (Nat.ltb_spec r 1).
    - replace r with 0%nat by lia. reflexivity.
    - replace r with (S (r - 1)) at 2 by lia. reflexivity. }
  rewrite Hbest in *. split.
  - simpl length. lia.
  - intros [|c] Hc; [exact Hx|]. apply Hall. simpl in Hc. lia.
Qed.

End ArgScan.

Section ArgFacts.
Local Open Scope Qc_scope.

Lemma argmax_spec (l : vec) :
  l <> [] -> exists b, argmax l = Some b /\ is_argmax l b.
Proof.
  destruct l as [|x l]; [congruence|]. intros _.
  eexists. split; [reflexivity|].
  apply (arg_scan_spec Qcle (fun b y => Qcltb b y)).
  - apply Qcle_refl.
  - apply Qcle_trans.
  - intros b y H. apply Qcltb_lt in H. apply Qclt_le_weak. exact H.
  - intros b y H. apply Qcltb_ge in H. exact H.
Qed.

(** [argmin] returns the index of a least entry. *)
Lemma argmin_spec (l : vec) :
  l <> [] ->
  exists d, argmin l = Some d
            /\ (d < length l)%nat
            /\ forall c, (c < length l)%nat -> nth d l 0 <= nth c l 0.
Proof.
  destruct l as [|x l]; [congruence|]. intros _.
  eexists. split; [reflexivity|].
  apply (arg_scan_spec (fun a b => b <= a) (fun b y => Qcltb y b)).
  - apply Qcle_refl.
  - intros a b c H1 H2. apply Qcle_trans with b; assumption.
  - intros b y H. apply Qcltb_lt in H. apply Qclt_le_weak. exact H.
  - intros b y H. apply Qcltb_ge in H. exact H.
Qed.

End ArgFacts.

(** * The asymmetrical lookup *)

Lemma mapM_nth {A B : Type} (f : A -> option B) (l : list A) (d : A) (d' : B) :
  forall P : nat -> B -> Prop,
    (forall i, i < length l -> exists y, f (nth i l d) = Some y /\ P i y) ->
    exists ys,
      mapM f l = Some ys /\ length ys = length l
      /\ forall i, i < length l -> P i (nth i ys d').
Proof.
  induction l as [|x l IH]; intros P H.
  - exists []. repeat split. simpl. intros i Hi. lia.
  - destruct (H 0 ltac:(simpl; lia)) as (y & Hy & Py). simpl in Hy.
    destruct (IH (fun i => P (S i))) as (ys & Hys & Hlen & Pys).
    { intros i Hi. apply (H (S i)). simpl. lia. }
    exists (y :: ys). simpl. rewrite Hy, Hys. simpl.
    repeat split; [congruence|].
    intros [|i] Hi; [exact Py|]. apply Pys. lia.
Qed.

Lemma nth_map2 {A B C : Type} (f : A -> B -> C) (xs : list A) (ys : list B)
      (i : nat) (dx : A) (dy : B) (d : C) :
  length xs = length ys -> i < length xs ->
  nth i (map2 f xs ys) d = f (nth i xs dx) (nth i ys dy).
Proof.
  revert ys i. induction xs as [|x xs IH]; intros [|y ys] i Hlen Hi;
    simpl in Hlen, Hi; try discriminate; try lia.
  rewrite map2_cons. destruct i as [|i]; [reflexivity|].
  simpl. apply IH; lia.
Qed.

Lemma nth_map_in {A B : Type} (f : A -> B) (l : list A) (i : nat) (d : A)
      (d' : B) :
  i < length l -> nth i (map f l) d' = f (nth i l d).
Proof.
  intros Hi. rewrite (nth_indep _ d' (f d)) by (rewrite length_map; exact Hi).
  apply map_nth.
Qed.

Lemma nth_repeat_lt {A : Type} (x d : A) (i n : nat) :
  i < n -> nth i (repeat x n) d = x.
Proof.
  intros Hi. rewrite (nth_indep _ d x) by (rewrite repeat_length; exact Hi).
  apply nth_repeat.
Qed.

Lemma nth_width (m : nat) (rs : list vec) (r : nat) :
  Forall (has_width m) rs -> r < length rs -> length (nth r rs []) = m.
Proof.
  intros Hwf Hr. apply (proj1 (Forall_forall _ _) Hwf). apply nth_In.
  exact Hr.
Qed.

(** Lengths of the intermediate tensors. *)

Lemma map2_length_eq {A B C : Type} (f : A -> B -> C) xs ys (n : nat) :
  length xs = n -> length ys = n -> length (map2 f xs ys) = n.
Proof. intros Hx Hy. rewrite map2_length; congruence. Qed.

Lemma map_length_eq {A B : Type} (f : A -> B) l (n : nat) :
  length l = n -> length (map f l) = n.
Proof. intros H. rewrite length_map. exact H. Qed.

Create HintDb len.
#[local] Hint Resolve map2_length_eq map_length_eq repeat_length
  one_hot_length : len.

Ltac len_eq n := transitivity n; [|symmetry]; auto with len.

Ltac len_lt n :=
  match goal with
  | |- ?i < ?l => replace l with n by (symmetry; auto with len); assumption
  end.

Section Asymmetric.
Local Open Scope Qc_scope.

Lemma qc_2 : qc 2 = 1 + 1.
Proof. apply Qc_is_canon. reflexivity. Qed.

Lemma nth_ones (c n : nat) : (c < n)%nat -> nth c (ones n) 0 = 1.
Proof. intros Hc. unfold ones. apply nth_repeat_lt. exact Hc. Qed.

(** The forward pass: the hard argmax and the gather. *)
Lemma asymmetrical_forward (C : nat) (vr kr : list vec) :
  Forall (has_width C) vr -> Forall (has_width C) kr ->
  length vr = length kr -> (0 < C)%nat ->
  exists b_idx forward_result,
    argmax_last (Mat C kr) = Some b_idx
    /\ length b_idx = length kr
    /\ gather_nd (Mat C vr) (combine (seq 0 (length b_idx)) b_idx)
       = Some forward_result
    /\ length forward_result = length kr
    /\ forall r, (r < length kr)%nat ->
         argmax (nth r kr []) = Some (nth r b_idx 0%nat)
         /\ is_argmax (nth r kr []) (nth r b_idx 0%nat)
         /\ nth r forward_result 0 = at2 vr r (nth r b_idx 0%nat).
Proof.
  intros Hv Hk Hlen HC.
  destruct (mapM_nth argmax kr [] 0%nat
              (fun r b => argmax (nth r kr []) = Some b
                          /\ is_argmax (nth r kr []) b))
    as (b_idx & Hb & Hblen & Hbs).
  { intros r Hr. destruct (argmax_spec (nth r kr [])) as (b & Hb & Hmax).
    - pose proof (nth_width C kr r Hk Hr) as Hw.
      destruct (nth r kr []); [simpl in Hw; lia|discriminate].
    - exists b. auto. }
  destruct (mapM_nth
              (fun ab => row <- nth_error vr (fst ab) ;; nth_error row (snd ab))
              (combine (seq 0 (length b_idx)) b_idx) (0%nat, 0%nat) 0
              (fun r y => y = at2 vr r (nth r b_idx 0%nat)))
    as (fwd & Hf & Hflen & Hfs).
  { intros r Hr. rewrite length_combine, length_seq, Nat.min_id in Hr.
    rewrite combine_nth by apply length_seq.
    rewrite seq_nth by exact Hr. simpl fst. simpl snd.
    rewrite (nth_error_nth' vr []) by lia. simpl bind.
    destruct (Hbs r ltac:(lia)) as (_ & Hbr & _).
    rewrite (nth_error_nth' _ 0).
    - eexists. split; reflexivity.
    - rewrite (nth_width C vr r Hv) by lia.
      rewrite <- (nth_width C kr r Hk) by lia. exact Hbr. }
  rewrite length_combine, length_seq, Nat.min_id in Hflen, Hfs.
  exists b_idx, fwd. unfold argmax_last, gather_nd. simpl ncols. simpl rows.
  destruct (Nat.eqb_spec C 0); [lia|].
  repeat split; try assumption; try congruence.
  - apply Hbs. exact H.
  - apply Hbs. exact H.
  - apply Hbs. exact H.
  - apply Hfs. lia.
Qed.

End Asymmetric.

Section AsymmetricProperties.
Local Open Scope Qc_scope.

(** The column of each row of [v] nearest to the target of that row. *)
Lemma nearest_columns (C : nat) (vr : list vec) (target : vec) :
  Forall (has_width C) vr -> length target = length vr -> (0 < C)%nat ->
  exists d_idx,
    argmin_last (Mat C (map2 squared_difference_row vr target)) = Some d_idx
    /\ length d_idx = length vr
    /\ forall r, (r < length vr)%nat ->
         is_nearest (nth r vr []) (nth r target 0) (nth r d_idx 0%nat).
Proof.
  intros Hv Hlen HC.
  set (diff := map2 squared_difference_row vr target).
  assert (Hdlen : length diff = length vr)
    by (unfold diff; apply map2_length; symmetry; exact Hlen).
  assert (Hrow : forall r, (r < length vr)%nat ->
            nth r diff []
            = squared_difference_row (nth r vr []) (nth r target 0)).
  { intros r Hr. unfold diff.
    apply (nth_map2 _ vr target r [] 0 []); [symmetry; exact Hlen|exact Hr]. }
  destruct (mapM_nth argmin diff [] 0%nat
              (fun r d => is_nearest (nth r vr []) (nth r target 0) d))
    as (d_idx & Hd & Hdl & Hds).
  { intros r Hr. rewrite Hdlen in Hr. rewrite (Hrow r Hr).
    pose proof (nth_width C vr r Hv Hr) as Hw.
    destruct (argmin_spec
                (squared_difference_row (nth r vr []) (nth r target 0)))
      as (d & Hdr & Hdlt & Hmin).
    - destruct (nth r vr []); [simpl in Hw; lia|discriminate].
    - unfold squared_difference_row in Hdlt, Hmin.
      rewrite length_map in Hdlt, Hmin.
      exists d. split; [exact Hdr|]. split; [exact Hdlt|].
      intros c Hc. specialize (Hmin c Hc).
      rewrite !(nth_map_in _ _ _ 0) in Hmin by assumption.
      exact Hmin. }
  exists d_idx. unfold argmin_last. simpl ncols. simpl rows.
  destruct (Nat.eqb_spec C 0); [lia|].
  repeat split; try assumption; try congruence.
  - apply Hds. congruence.
  - apply Hds. congruence.
Qed.

(** C6: on a value matrix and a weight matrix of one shape, the forward
    result holds, row by row, the entry of [v] at the argmax column of
    [k]; and for every upstream gradient [g] the backward rule returns
    [g * k] for [v] and, for [k], [|g|] times the vector that is -1 at the
    column of [v] nearest to [forward_result - g] and +1 elsewhere. *)
Theorem asymmetrical_lookup_forward_backward (v k : matrix) :
  wf_matrix v -> wf_matrix k -> shape v = shape k -> (0 < ncols k)%nat ->
  exists forward_result grad,
    asymmetrical_vectored_lookup v k = Some (forward_result, grad)
    /\ length forward_result = length (rows k)
    /\ (forall r, (r < length (rows k))%nat ->
          exists b,
            argmax (nth r (rows k) []) = Some b
            /\ is_argmax (nth r (rows k) []) b
            /\ nth r forward_result 0 = at2 (rows v) r b)
    /\ (forall g, length g = length (rows k) ->
          exists to_v to_k,
            grad g = Some (to_v, to_k)
            /\ shape to_v = shape k
            /\ shape to_k = shape k
            /\ forall r, (r < length (rows k))%nat ->
                 exists d,
                   is_nearest (nth r (rows v) [])
                              (nth r forward_result 0 - nth r g 0) d
                   /\ forall c, (c < ncols k)%nat ->
                        at2 (rows to_v) r c = nth r g 0 * at2 (rows k) r c
                        /\ at2 (rows to_k) r c
                           = Qcabs (nth r g 0)
                             * (if (c =? d)%nat then - (1) else 1)).
Proof.
  intros Hv Hk Hshape HC. destruct v as [Cv vr], k as [C kr].
  unfold wf_matrix, shape in *. simpl in *.
  injection Hshape as Hlen HCv. subst Cv.
  destruct (asymmetrical_forward C vr kr Hv Hk Hlen HC)
    as (b_idx & fwd & Hb & Hblen & Hg & Hflen & Hrows).
  exists fwd. eexists. unfold asymmetrical_vectored_lookup.
  rewrite Hb. simpl bind. rewrite Hg. simpl bind.
  split; [reflexivity|]. split; [exact Hflen|]. split.
  - intros r Hr. exists (nth r b_idx 0%nat). apply Hrows. exact Hr.
  - intros g Hglen. cbv beta. set (R := length kr) in *.
    rewrite (broadcast_same Qcminus fwd g) by (len_eq R). simpl bind.
    rewrite broadcast_same by (len_eq R). simpl bind.
    destruct (nearest_columns C vr (map2 Qcminus fwd g) Hv)
      as (d_idx & Hd & Hdlen & Hds); [len_eq R|exact HC|].
    simpl ncols. rewrite Hd. simpl bind. unfold shape. simpl fst. simpl snd.
    fold R. rewrite Hlen in Hdlen.
    rewrite broadcast_same by (len_eq R).
    simpl bind. unfold column_mul. simpl rows. simpl ncols.
    rewrite broadcast_same by (len_eq R). simpl bind.
    rewrite broadcast_same by (len_eq R).
    simpl bind. do 2 eexists. split; [reflexivity|]. simpl.
    split; [f_equal; auto with len|].
    split; [f_equal; auto with len|].
    intros r Hr. exists (nth r d_idx 0%nat).
    assert (HkR : length kr = R) by reflexivity.
    specialize (Hds r ltac:(len_lt R)).
    rewrite (nth_map2 Qcminus fwd g r 0 0 0) in Hds;
      [|len_eq R|len_lt R].
    split; [exact Hds|].
    destruct Hds as [Hdlt _].
    rewrite (nth_width C vr r Hv) in Hdlt by (len_lt R).
    intros c Hc. unfold at2. split.
    + rewrite (nth_map2 _ g kr r 0 [] []);
        [|len_eq R|len_lt R].
      apply (nth_map_in _ _ _ 0).
      rewrite (nth_width C kr r Hk); assumption.
    + rewrite (nth_map2 _ (map Qcabs g) _ r 0 [] []);
        [|len_eq R|len_lt R].
      rewrite (nth_map_in Qcabs g r 0) by (len_lt R).
      rewrite (nth_map2 _ _ _ r [] [] []);
        [|len_eq R|len_lt R].
      rewrite (nth_map_in _ d_idx r 0%nat) by (len_lt R).
      rewrite nth_repeat_lt by exact Hr.
      assert (Hlen1 : length (one_hot (nth r d_idx 0%nat) C) = length (ones C))
        by (rewrite one_hot_length; unfold ones; rewrite repeat_length;
            reflexivity).
      rewrite (nth_map_in _ _ _ 0)
        by (rewrite map2_length, one_hot_length; assumption).
      rewrite (nth_map2 _ _ _ c 0 0 0);
        [|exact Hlen1|rewrite one_hot_length; exact Hc].
      rewrite nth_one_hot, nth_ones, qc_2 by assumption.
      destruct (c =? nth r d_idx 0%nat)%nat; ring.
Qed.

End AsymmetricProperties.

Lemma asymmetrical_lookup_forward_backward_witness :
  exists forward_result grad,
    asymmetrical_vectored_lookup example_v example_k
    = Some (forward_result, grad)
    /\ length forward_result = length (rows example_k)
    /\ (forall r, r < length (rows example_k) ->
          exists b,
            argmax (nth r (rows example_k) []) = Some b
            /\ is_argmax (nth r (rows example_k) []) b
            /\ nth r forward_result (Q2Qc 0) = at2 (rows example_v) r b)
    /\ (forall g, length g = length (rows example_k) ->
          exists to_v to_k,
            grad g = Some (to_v, to_k)
            /\ shape to_v = shape example_k
            /\ shape to_k = shape example_k
            /\ forall r, r < length (rows example_k) ->
                 exists d,
                   is_nearest (nth r (rows example_v) [])
                              (nth r forward_result (Q2Qc 0)
                               - nth r g (Q2Qc 0))%Qc d
                   /\ forall c, c < ncols example_k ->
                        at2 (rows to_v) r c
                        = (nth r g (Q2Qc 0) * at2 (rows example_k) r c)%Qc
                        /\ at2 (rows to_k) r c
                           = (Qcabs (nth r g (Q2Qc 0))
                              * (if c =? d then - (1) else 1))%Qc).
Proof.
  apply (asymmetrical_lookup_forward_backward example_v example_k).
  - repeat constructor.
  - repeat constructor.
  - reflexivity.
  - simpl. lia.
Defined.

(** * The two-axis lookup *)

Lemma vec_eqb_eq (u v : vec) : vec_eqb u v = true -> u = v.
Proof.
  revert v. induction u as [|a u IH]; intros [|b v] H; simpl in H;
    try discriminate; [reflexivity|].
  apply andb_true_iff in H. destruct H as [Hab Huv].
  apply Qc_eq_bool_correct in Hab. rewrite Hab, (IH v Huv). reflexivity.
Qed.

Lemma option_vec_eqb_eq (a b : option vec) :
  option_vec_eqb a b = true -> a = b.
Proof.
  destruct a as [u|], b as [v|]; simpl; intros H; try discriminate;
    [|reflexivity].
  rewrite (vec_eqb_eq u v H). reflexivity.
Qed.

Section TwoAxisLookup.
Local Open Scope Qc_scope.

Lemma map2_map_r {A B B' C : Type} (f : A -> B -> C) (g : B' -> B) xs ys :
  map2 f xs (map g ys) = map2 (fun a b => f a (g b)) xs ys.
Proof.
  revert ys. induction xs as [|x xs IH]; intros [|y ys]; try reflexivity.
  simpl map. rewrite !map2_cons, IH. reflexivity.
Qed.

Lemma maximum_same (a : Qc) : maximum a a = a.
Proof. unfold maximum. destruct (Qcleb a a); reflexivity. Qed.

Lemma maximum_0_l (a : Qc) : 0 <= a -> maximum 0 a = a.
Proof. intros H. unfold maximum. apply Qcleb_le in H. rewrite H. reflexivity. Qed.

Lemma maximum_0_r (a : Qc) : 0 <= a -> maximum a 0 = a.
Proof.
  intros H. unfold maximum. destruct (Qcleb a 0) eqn:E; [|reflexivity].
  apply Qcleb_le in E. apply Qcle_antisym; assumption.
Qed.

Lemma vmax_same (u : vec) : vmax u u = u.
Proof.
  unfold vmax. induction u as [|a u IH]; [reflexivity|].
  rewrite map2_cons, IH, maximum_same. reflexivity.
Qed.

Lemma vmax_zeros_l (u : vec) :
  Forall (fun a => 0 <= a) u -> vmax (zeros (length u)) u = u.
Proof.
  unfold vmax, zeros. induction 1 as [|a u Ha _ IH]; [reflexivity|].
  simpl. rewrite map2_cons, IH, maximum_0_l by exact Ha. reflexivity.
Qed.

Lemma vmax_zeros_r (u : vec) :
  Forall (fun a => 0 <= a) u -> vmax u (zeros (length u)) = u.
Proof.
  unfold vmax, zeros. induction 1 as [|a u Ha _ IH]; [reflexivity|].
  simpl. rewrite map2_cons, IH, maximum_0_r by exact Ha. reflexivity.
Qed.

(** The maximum over cells that are all zero but for copies of one cell
    without negative entries is that cell. *)
Lemma fold_vmax_cell (cell : vec) (l : list vec) :
  Forall (fun a => 0 <= a) cell ->
  Forall (fun c => c = zeros (length cell) \/ c = cell) l ->
  fold_left vmax l cell = cell
  /\ (In cell l -> fold_left vmax l (zeros (length cell)) = cell).
Proof.
  intros Hpos Hl. induction Hl as [|c l Hc _ [IH1 IH2]].
  - split; [reflexivity|]. intros [].
  - simpl. destruct Hc as [-> | ->].
    + rewrite vmax_zeros_r by exact Hpos. split; [exact IH1|].
      rewrite vmax_same.
      intros [Hz|Hin].
      * rewrite Hz. exact IH1.
      * apply IH2. exact Hin.
    + rewrite vmax_same, vmax_zeros_l by exact Hpos. split; [exact IH1|].
      intros _. exact IH1.
Qed.

(** On an array without negative entries the two-axis lookup at exact
    one-hot indices returns the stored slice. *)
Lemma tensor_lookup_2d_nonnegative (arr : tensor3) (x y : nat) (cell : vec) :
  wf_tensor3 arr ->
  slice arr x y = Some cell ->
  Forall (fun a => 0 <= a) cell ->
  tensor_lookup_2d arr (one_hot x (length (planes arr))) (one_hot y (dim1 arr))
  = Some cell.
Proof.
  intros Hwf Hslice Hpos. destruct arr as [Y C ps].
  unfold wf_tensor3, slice in *. simpl in *.
  destruct (nth_error ps x) as [p|] eqn:Hp; [|discriminate]. simpl in Hslice.
  assert (Hx : (x < length ps)%nat)
    by (apply nth_error_Some; congruence).
  assert (Hy : (y < length p)%nat)
    by (apply nth_error_Some; congruence).
  pose proof (proj1 (Forall_forall _ _) Hwf) as Hall.
  destruct (Hall p (nth_error_In _ _ Hp)) as [HpY HpC].
  pose proof (proj1 (Forall_forall _ _) HpC) as Hcells.
  assert (HcellC : length cell = C)
    by (apply Hcells; eapply nth_error_In; exact Hslice).
  unfold tensor_lookup_2d, broadcast_multiply, match_shapes, tensordot_0, shape.
  simpl. rewrite length_map, !one_hot_length, !Nat.eqb_refl. simpl.
  unfold mul_last, reduce_max_01. simpl.
  rewrite !map2_map_r.
  set (M := map2 _ ps (one_hot x (length ps))).
  (* the masked cell at plane [i] and row [j] *)
  assert (Hcell : forall i j, (i < length ps)%nat ->
            (j < length (nth i ps []))%nat ->
            length (nth i M []) = length (nth i ps [])
            /\ nth j (nth i M []) []
               = scale (nth j (nth i ps []) [])
                       ((if (i =? x)%nat then 1 else 0)
                        * (if (j =? y)%nat then 1 else 0))).
  { intros i j Hi Hj. unfold M.
    destruct (Hall (nth i ps []) ltac:(apply nth_In; exact Hi)) as [HiY HiC].
    rewrite (nth_map2 _ ps _ i [] 0 [])
      by (rewrite ?one_hot_length; auto).
    rewrite !map2_map_r. split.
    - apply map2_length. rewrite one_hot_length. exact HiY.
    - rewrite (nth_map2 _ _ _ j [] 0 [])
        by (rewrite ?one_hot_length; auto).
      simpl hd. rewrite !nth_one_hot by lia. reflexivity. }
  assert (HMlen : length M = length ps)
    by (unfold M; apply map2_length; now rewrite one_hot_length).
  (* every masked cell is zero or the addressed cell *)
  assert (HM : Forall (fun c => c = zeros (length cell) \/ c = cell)
                      (concat M)).
  { apply Forall_forall. intros c Hc. apply in_concat in Hc.
    destruct Hc as (pl & Hpl & Hc).
    destruct (In_nth _ _ [] Hpl) as (i & Hi & <-). rewrite HMlen in Hi.
    destruct (In_nth _ _ [] Hc) as (j & Hj & <-).
    destruct (Hall (nth i ps []) ltac:(apply nth_In; exact Hi)) as [HiY HiC].
    assert (Hj' : (j < length (nth i ps []))%nat).
    { destruct (nth i ps []) as [|c0 pl0] eqn:Epl.
      - simpl in HiY. subst Y. simpl in Hy. lia.
      - rewrite <- Epl in *.
        rewrite (proj1 (Hcell i 0%nat Hi ltac:(rewrite Epl; simpl; lia)))
          in Hj.
        exact Hj. }
    rewrite (proj2 (Hcell i j Hi Hj')).
    assert (HijC : length (nth j (nth i ps []) []) = C).
    { apply (proj1 (Forall_forall _ _) HiC). apply nth_In. exact Hj'. }
    destruct (Nat.eqb_spec i x) as [->|_];
      [destruct (Nat.eqb_spec j y) as [->|_]|].
    - right. replace (1 * 1) with 1 by ring. rewrite scale_1.
      rewrite (nth_error_nth ps x [] Hp).
      apply (nth_error_nth p y [] Hslice).
    - left. replace (1 * 0) with 0 by ring. rewrite scale_0. congruence.
    - left. replace (0 * (if (j =? y)%nat then 1 else 0)) with 0 by ring.
      rewrite scale_0. congruence. }
  (* the addressed cell is among them *)
  assert (Hin : In cell (concat M)).
  { pose proof (nth_error_nth ps x [] Hp) as Hpx.
    destruct (Hcell x y Hx ltac:(rewrite Hpx; exact Hy)) as [Hl Hc].
    rewrite !Nat.eqb_refl, Hpx, (nth_error_nth p y [] Hslice) in Hc.
    replace (1 * 1) with 1 in Hc by ring. rewrite scale_1 in Hc.
    apply in_concat. exists (nth x M []). split.
    - apply nth_In. rewrite HMlen. exact Hx.
    - rewrite <- Hc. apply nth_In. rewrite Hl, Hpx. exact Hy. }
  destruct (concat M) as [|c0 cs] eqn:E; [destruct Hin|].
  inversion HM as [|c0' cs' Hc0 Hcs Heq]; subst c0' cs'.
  f_equal. destruct (fold_vmax_cell cell cs Hpos Hcs) as [H1 H2].
  destruct Hc0 as [-> | ->]; [|exact H1].
  destruct Hin as [Hz|Hin]; [|exact (H2 Hin)].
  rewrite Hz. exact H1.
Qed.

End TwoAxisLookup.

(** C7 fails on the code: on an array with negative entries the two-axis
    lookup at exact one-hot indices returns zeros, not the stored slice:
    the maximum runs over the masked cells too, which are 0. *)
Theorem tensor_lookup_2d_negative_slice :
  wf_tensor3 example_negative
  /\ slice example_negative 1 1 = Some [qc (-2); qc (-22)]
  /\ tensor_lookup_2d example_negative (one_hot 1 2) (one_hot 1 2)
     = Some [qc 0; qc 0].
Proof.
  split; [repeat constructor|]. split.
  - reflexivity.
  - apply option_vec_eqb_eq. vm_compute. reflexivity.
Qed.

(** * The results printed in the notebooks

    The embedding evaluated on the inputs of the notebooks' cells. *)

Section Notebooks.
Local Open Scope Q_scope.

Example notebook_three_pushes :
  option_map (fun s => (values2 (fst s), values (snd s)))
    (push_all (new_stack (3, 3)%nat)
       [[qc 1; qc 1; qc 1]; [qc 2; qc 2; qc 2]; [qc 3; qc 3; qc 3]])
  = Some ([[1; 1; 1]; [2; 2; 2]; [3; 3; 3]], [1; 0; 0]).
Proof. vm_compute. reflexivity. Qed.

Example notebook_two_pops :
  option_map (fun r => (values (snd (fst r)), map values (snd r)))
    (pop_n 2 (Mat 3 [[qc 1; qc 1; qc 1]; [qc 2; qc 2; qc 2];
                     [qc 3; qc 3; qc 3]], one_hot 0 3))
  = Some ([0; 1; 0], [[3; 3; 3]; [2; 2; 2]]).
Proof. vm_compute. reflexivity. Qed.

Example notebook_reverse_list :
  option_map values2
    (reverse_list (Mat 4 [[qc 1; qc 1; qc 1; qc 1]; [qc 2; qc 2; qc 2; qc 2];
                          [qc 3; qc 3; qc 3; qc 3]; [qc 4; qc 4; qc 4; qc 4]]))
  = Some [[4; 4; 4; 4]; [3; 3; 3; 3]; [2; 2; 2; 2]; [1; 1; 1; 1]].
Proof. vm_compute. reflexivity. Qed.

Example notebook_linear_lookup :
  option_map this
    (linear_lookup [qc 1; qc 2; qc 3; qc 4; qc 5] (Q2Qc (3 # 2)))
  = Some (5 # 2).
Proof. vm_compute. reflexivity. Qed.

Example notebook_superposition_lookup_vectored :
  option_map values
    (superposition_lookup_vectored
       (Arr1 [qc 1; qc 2; qc 3; qc 5; qc 4])
       [Q2Qc 0; Q2Qc (1 # 10); Q2Qc (8 # 10); Q2Qc 0; Q2Qc (1 # 10)])
  = Some [3].
Proof. vm_compute. reflexivity. Qed.

Example notebook_bandwidthify :
  option_map values (bandwidthify (Q2Qc (5 # 2)) 5)
  = Some [0; 0; 1 # 2; 1 # 2; 0].
Proof. vm_compute. reflexivity. Qed.

Example notebook_superposition_lookup :
  option_map values
    (superposition_lookup (Arr1 [qc 1; qc 2; qc 3; qc 4; qc 5])
                          (Q2Qc (3 # 2)))
  = Some [5 # 2].
Proof. vm_compute. reflexivity. Qed.

Example notebook_assign_index_vectored :
  option_map values2
    (assign_index_vectored
       (Mat 3 [[qc 1; qc 1; qc 1]; [qc 2; qc 2; qc 2]; [qc 3; qc 3; qc 3]])
       [Q2Qc (1 # 2); Q2Qc (1 # 2); Q2Qc 0] [qc 4; qc 4; qc 4])
  = Some [[5 # 2; 5 # 2; 5 # 2]; [3; 3; 3]; [3; 3; 3]].
Proof. vm_compute. reflexivity. Qed.

Example notebook_asymmetrical_vectored_lookup :
  match asymmetrical_vectored_lookup example_v example_k with
  | Some (forward_result, grad) =>
      Some (values forward_result,
            option_map (fun g => values2 (snd g)) (grad [qc 1; qc 1]),
            option_map (fun g => values2 (snd g)) (grad [qc (-1); qc (-10)]))
  | None => None
  end
  = Some ([2; 10],
          Some [[-1; 1; 1]; [-1; 1; 1]],
          Some [[1; 1; -1]; [10; -10; 10]]).
Proof. vm_compute. reflexivity. Qed.

Example notebook_tensor_lookup_2d :
  option_map values
    (tensor_lookup_2d
       (T3 3 2 [[[qc 1; qc 1]; [qc 1; qc 11]; [qc 1; qc 111]];
                [[qc 2; qc 2]; [qc 2; qc 22]; [qc 2; qc 222]];
                [[qc 3; qc 3]; [qc 3; qc 33]; [qc 3; qc 333]]])
       (one_hot 1 3) (one_hot 2 3))
  = Some [2; 222].
Proof. vm_compute. reflexivity. Qed.

End Notebooks.

(** * Further properties of the stack *)

Lemma roll_there_and_back {A : Type} (l : list A) : roll (roll l 1) (-1) = l.
Proof.
  destruct l as [|x l] using rev_ind; [reflexivity|].
  rewrite roll_right, roll_left. reflexivity.
Qed.

(** X1: a push followed by a pop restores the position vector of the
    stack whatever it is, one-hot or a blend of positions: both succeed
    whenever the position vector has the length of the buffer and the
    element its width. *)
Theorem push_then_pop_restores_position (m : nat) (rs : list vec)
        (index element : vec) :
  length index = length rs -> length element = m ->
  exists buffer' read,
    stack_push (Mat m rs, index) element = Some (buffer', roll index 1)
    /\ shape buffer' = (length rs, m)
    /\ stack_pop (buffer', roll index 1) = Some ((buffer', index), read).
Proof.
  intros Hi He. exists (Mat m (map2 (blend element) rs index)).
  eexists. unfold stack_push, stack_pop.
  rewrite assign_index_vectored_blend by assumption. simpl bind.
  rewrite roll_there_and_back.
  rewrite superposition_lookup_vectored_sum
    by (rewrite map2_length; congruence).
  split; [reflexivity|]. split; [|reflexivity].
  unfold shape. simpl. rewrite map2_length; congruence.
Qed.

Lemma push_then_pop_restores_position_witness :
  exists buffer' read,
    stack_push (Mat 1 [[qc 5]; [qc 6]], [Q2Qc (1 # 3); Q2Qc (2 # 3)]) [qc 7]
    = Some (buffer', roll [Q2Qc (1 # 3); Q2Qc (2 # 3)] 1)
    /\ shape buffer' = (length [[qc 5]; [qc 6]], 1)
    /\ stack_pop (buffer', roll [Q2Qc (1 # 3); Q2Qc (2 # 3)] 1)
       = Some ((buffer', [Q2Qc (1 # 3); Q2Qc (2 # 3)]), read).
Proof.
  apply (push_then_pop_restores_position 1 [[qc 5]; [qc 6]]
           [Q2Qc (1 # 3); Q2Qc (2 # 3)] [qc 7]); reflexivity.
Defined.

Lemma push_all_app (s : stack) (es1 es2 : list vec) :
  push_all s (es1 ++ es2) = (s' <- push_all s es1 ;; push_all s' es2).
Proof.
  revert s. induction es1 as [|e es1 IH]; intros s; [reflexivity|].
  simpl. destruct (stack_push s e) as [s'|]; [|reflexivity].
  simpl. apply IH.
Qed.

(** X2: a push onto a full stack does not fail: after as many pushes as
    the bandwidth, one more push overwrites the first element pushed and
    leaves the position at slot 1 (modulo the bandwidth). *)
Theorem push_past_bandwidth_overwrites (m : nat) (e0 : vec) (es : list vec)
        (e : vec) :
  Forall (has_width m) (e0 :: es) -> has_width m e ->
  push_all (new_stack (length (e0 :: es), m)) ((e0 :: es) ++ [e])
  = Some (Mat m (e :: es),
          one_hot (1 mod length (e0 :: es)) (length (e0 :: es))).
Proof.
  intros Hes He. remember (length (e0 :: es)) as n eqn:Hn.
  rewrite push_all_app. unfold new_stack, zeros2. simpl fst. simpl snd.
  pose proof (push_all_spec m n (e0 :: es) [] (repeat (zeros m) n)) as Hpush.
  rewrite <- Hn in Hpush. simpl app in Hpush. simpl (length []) in Hpush.
  rewrite Nat.Div0.mod_0_l, skipn_repeat, Nat.sub_diag, Nat.Div0.mod_same
    in Hpush.
  simpl repeat in Hpush. rewrite app_nil_r in Hpush.
  rewrite Hpush; auto using zeros2_width; try (rewrite repeat_length; lia).
  simpl bind. simpl push_all.
  rewrite (stack_push_at m n 0 (e0 :: es) e);
    [reflexivity|congruence|exact Hes|exact He|simpl in Hn; lia].
Qed.

Lemma push_past_bandwidth_overwrites_witness :
  push_all (new_stack (length [[qc 1]; [qc 2]], 1))
           ([[qc 1]; [qc 2]] ++ [[qc 3]])
  = Some (Mat 1 [[qc 3]; [qc 2]],
          one_hot (1 mod length [[qc 1]; [qc 2]]) (length [[qc 1]; [qc 2]])).
Proof.
  apply (push_past_bandwidth_overwrites 1 [qc 1] [[qc 2]] [qc 3]);
    repeat constructor.
Defined.

(** X3: the stack made from a buffer is a full stack: its first pop reads
    the last row, and as many pops as rows read all the rows, the last one
    first, leaving the buffer as it was and the position back at slot 0. *)
Theorem new_stack_from_buffer_pops_rows (buffer : matrix) :
  wf_matrix buffer ->
  pop_n (length (rows buffer)) (new_stack_from_buffer buffer)
  = Some (new_stack_from_buffer buffer, rev (rows buffer)).
Proof.
  destruct buffer as [m rs]. unfold wf_matrix, new_stack_from_buffer, shape.
  simpl. intros Hwf.
  pose proof (pop_n_spec m (length rs) rs [] []) as Hpop.
  simpl in Hpop. rewrite app_nil_r, Nat.Div0.mod_same, Nat.Div0.mod_0_l in Hpop.
  apply Hpop; [lia|exact Hwf].
Qed.

Lemma new_stack_from_buffer_pops_rows_witness :
  pop_n (length (rows (Mat 1 [[qc 1]; [qc 2]; [qc 3]])))
        (new_stack_from_buffer (Mat 1 [[qc 1]; [qc 2]; [qc 3]]))
  = Some (new_stack_from_buffer (Mat 1 [[qc 1]; [qc 2]; [qc 3]]),
          rev (rows (Mat 1 [[qc 1]; [qc 2]; [qc 3]]))).
Proof.
  apply (new_stack_from_buffer_pops_rows (Mat 1 [[qc 1]; [qc 2]; [qc 3]])).
  repeat constructor.
Defined.

(** * Further properties of the assignment *)

Section AssignProperties.

Lemma assign_at (m n i : nat) (rs : list vec) (e : vec) :
  length rs = n -> Forall (has_width m) rs -> length e = m -> i < n ->
  assign_index_vectored (Mat m rs) (one_hot i n) e
  = Some (Mat m (set_row i e rs)).
Proof.
  intros Hn Hwf He Hi.
  destruct (split_at rs i [] ltac:(lia)) as (pre & post & Hf & Hs & Hrs & Hpre).
  unfold set_row. rewrite Hf, Hs.
  remember (nth i rs []) as p eqn:Hp.
  rewrite Hrs in Hwf, Hn |- *. rewrite <- Hpre, <- Hn.
  apply assign_one_hot; assumption.
Qed.

Lemma set_row_nth_other (i j : nat) (e d : vec) (rs : list vec) :
  (i < length rs)%nat -> j <> i -> nth j (set_row i e rs) d = nth j rs d.
Proof.
  intros Hi Hji. unfold set_row.
  destruct (Nat.lt_ge_cases j i) as [Hlt|Hge].
  - rewrite app_nth1 by (rewrite length_firstn; lia).
    rewrite <- (firstn_skipn i rs) at 2.
    rewrite app_nth1 by (rewrite length_firstn; lia). reflexivity.
  - rewrite app_nth2; rewrite length_firstn; [|lia].
    replace (Nat.min i (length rs)) with i by lia.
    destruct (j - i)%nat as [|k] eqn:Ek; [lia|].
    change (nth (S k) (e :: skipn (S i) rs) d)
      with (nth k (skipn (S i) rs) d).
    rewrite nth_skipn. f_equal. lia.
Qed.

(** The row of the identity matrix that an integer index selects, with
    the index counted from the end when it is negative. *)
Lemma getitem_eye_wrap (z : Z) (n : nat) :
  (- Z.of_nat n <= z < Z.of_nat n)%Z ->
  getitem (eye n) z
  = Some (one_hot (Z.to_nat (if (z <? 0)%Z then Z.of_nat n + z else z)) n).
Proof.
  intros Hz. unfold getitem. rewrite eye_length.
  destruct (Z.ltb_spec z 0) as [E|E].
  - destruct (Z.leb_spec 0 (Z.of_nat n + z)); [|lia].
    destruct (Z.ltb_spec (Z.of_nat n + z) (Z.of_nat n)); [|lia].
    apply nth_error_eye. lia.
  - destruct (Z.leb_spec 0 z); [|lia].
    destruct (Z.ltb_spec z (Z.of_nat n)); [|lia].
    apply nth_error_eye. lia.
Qed.

Lemma getitem_out_of_range {A : Type} (l : list A) (z : Z) :
  (z < - Z.of_nat (length l) \/ Z.of_nat (length l) <= z)%Z ->
  getitem l z = None.
Proof.
  intros Hz. unfold getitem.
  destruct (Z.ltb_spec z 0) as [E|E].
  - destruct (Z.leb_spec 0 (Z.of_nat (length l) + z)); [lia|reflexivity].
  - destruct (Z.leb_spec 0 z); [|lia].
    destruct (Z.ltb_spec z (Z.of_nat (length l))); [lia|reflexivity].
Qed.

(** X4: [assign_index] at an index inside the array replaces that one row
    by the element and keeps every other row; a negative index down to
    [-n] counts from the end; and the result is the one of
    [assign_index_vectored] with the one-hot vector of that row. *)
Theorem assign_index_sets_row (arr : matrix) (index : Z) (element : vec) :
  wf_matrix arr -> length element = ncols arr ->
  (- Z.of_nat (length (rows arr)) <= index < Z.of_nat (length (rows arr)))%Z ->
  let i := Z.to_nat (if (index <? 0)%Z
                     then Z.of_nat (length (rows arr)) + index else index) in
  assign_index arr index element
  = Some (Mat (ncols arr) (set_row i element (rows arr)))
  /\ assign_index arr index element
     = assign_index_vectored arr (one_hot i (length (rows arr))) element.
Proof.
  intros Hwf He Hi i. destruct arr as [m rs]. unfold wf_matrix in Hwf.
  simpl in *.
  assert (Hvec : assign_index (Mat m rs) index element
                 = assign_index_vectored (Mat m rs) (one_hot i (length rs))
                                         element).
  { unfold assign_index, shape. simpl fst.
    rewrite getitem_eye_wrap by exact Hi. reflexivity. }
  split; [|exact Hvec]. rewrite Hvec.
  apply assign_at; try assumption; try reflexivity.
  unfold i. destruct (Z.ltb_spec index 0); lia.
Qed.

Lemma assign_index_sets_row_witness :
  let i := Z.to_nat (if (-1 <? 0)%Z
                     then Z.of_nat
                            (length (rows (Mat 1 [[qc 1]; [qc 2]; [qc 3]])))
                          + -1
                     else -1) in
  assign_index (Mat 1 [[qc 1]; [qc 2]; [qc 3]]) (-1) [qc 4]
  = Some (Mat (ncols (Mat 1 [[qc 1]; [qc 2]; [qc 3]]))
              (set_row i [qc 4] (rows (Mat 1 [[qc 1]; [qc 2]; [qc 3]]))))
  /\ assign_index (Mat 1 [[qc 1]; [qc 2]; [qc 3]]) (-1) [qc 4]
     = assign_index_vectored (Mat 1 [[qc 1]; [qc 2]; [qc 3]])
         (one_hot i (length (rows (Mat 1 [[qc 1]; [qc 2]; [qc 3]]))))
         [qc 4].
Proof.
  apply (assign_index_sets_row (Mat 1 [[qc 1]; [qc 2]; [qc 3]]) (-1) [qc 4]).
  - repeat constructor.
  - reflexivity.
  - simpl. lia.
Defined.

(** X5: [assign_index] raises on an index outside the array, at or above
    the number of rows or below its opposite. *)
Theorem assign_index_out_of_bounds (arr : matrix) (index : Z) (element : vec) :
  (index < - Z.of_nat (length (rows arr))
   \/ Z.of_nat (length (rows arr)) <= index)%Z ->
  assign_index arr index element = None.
Proof.
  intros Hi. unfold assign_index, shape. simpl fst.
  rewrite getitem_out_of_range; [reflexivity|].
  rewrite eye_length. exact Hi.
Qed.

Lemma assign_index_out_of_bounds_witness :
  assign_index (Mat 1 [[qc 1]; [qc 2]; [qc 3]]) 3 [qc 4] = None.
Proof.
  apply (assign_index_out_of_bounds (Mat 1 [[qc 1]; [qc 2]; [qc 3]]) 3
           [qc 4]).
  simpl. lia.
Defined.

(** X6: on an array with at least one row, [assign_index_vectored] raises
    when the element has not the width of the rows, whatever the index
    vector: the tiled element cannot be reshaped to the array. *)
Theorem assign_index_vectored_wrong_width (arr : matrix) (index element : vec) :
  rows arr <> [] -> length element <> ncols arr ->
  assign_index_vectored arr index element = None.
Proof.
  intros Hrows He. unfold assign_index_vectored, reshape, shape.
  simpl fst. simpl snd. rewrite tile_length.
  destruct (Nat.eqb_spec (length (rows arr) * length element)
                         (length (rows arr) * ncols arr)) as [E|E];
    [|reflexivity].
  exfalso. apply He. apply Nat.mul_cancel_l in E; [exact E|].
  destruct (rows arr); [congruence|discriminate].
Qed.

Lemma assign_index_vectored_wrong_width_witness :
  assign_index_vectored (Mat 2 [[qc 1; qc 2]]) [qc 1] [qc 4; qc 4; qc 4]
  = None.
Proof.
  apply (assign_index_vectored_wrong_width (Mat 2 [[qc 1; qc 2]]) [qc 1]
           [qc 4; qc 4; qc 4]).
  - discriminate.
  - simpl. lia.
Defined.

(** X7: reading after writing.  After the element is assigned at the
    one-hot position [i], the weighted-sum lookup at the one-hot position
    [j] returns the element if [j] is [i], and the row [j] of the array
    before the assignment otherwise. *)
Theorem read_after_write (arr : matrix) (i j : nat) (element : vec) :
  wf_matrix arr -> length element = ncols arr ->
  (i < length (rows arr))%nat -> (j < length (rows arr))%nat ->
  (written <- assign_index_vectored arr (one_hot i (length (rows arr)))
                                    element ;;
   superposition_lookup_vectored (Arr2 written)
                                 (one_hot j (length (rows arr))))
  = Some (if (j =? i)%nat then element else nth j (rows arr) []).
Proof.
  intros Hwf He Hi Hj. destruct arr as [m rs]. unfold wf_matrix in Hwf.
  simpl in *.
  rewrite (assign_at m (length rs)) by auto. simpl bind.
  rewrite (lookup_at m (length rs)).
  - destruct (Nat.eqb_spec j i) as [->|Hne].
    + rewrite set_row_nth by exact Hi. reflexivity.
    + rewrite set_row_nth_other by assumption. reflexivity.
  - apply set_row_length. exact Hi.
  - apply set_row_width; assumption.
  - exact Hj.
Qed.

Lemma read_after_write_witness :
  (written <- assign_index_vectored (Mat 1 [[qc 1]; [qc 2]; [qc 3]])
                (one_hot 0 (length (rows (Mat 1 [[qc 1]; [qc 2]; [qc 3]]))))
                [qc 4] ;;
   superposition_lookup_vectored (Arr2 written)
     (one_hot 2 (length (rows (Mat 1 [[qc 1]; [qc 2]; [qc 3]])))))
  = Some (if (2 =? 0)%nat then [qc 4]
          else nth 2 (rows (Mat 1 [[qc 1]; [qc 2]; [qc 3]])) []).
Proof.
  apply (read_after_write (Mat 1 [[qc 1]; [qc 2]; [qc 3]]) 0 2 [qc 4]).
  - repeat constructor.
  - reflexivity.
  - simpl. lia.
  - simpl. lia.
Defined.

End AssignProperties.

(** * Further properties of the lookups *)

Section MoreLookups.
Local Open Scope Qc_scope.

Lemma qc_le (a b : Z) : (a <= b)%Z -> qc a <= qc b.
Proof.
  intros H. unfold Qcle. rewrite !this_qc, <- Zle_Qle. exact H.
Qed.

Lemma qc_0 : qc 0 = 0.
Proof. reflexivity. Qed.

(** A position whose floor and ceiling coincide is that integer. *)
Lemma integral_position (p : Qc) : Qceiling p = Qfloor p -> p = qc (Qfloor p).
Proof.
  intros E. apply Qc_is_canon. rewrite this_qc.
  pose proof (Qfloor_le p) as H1. pose proof (Qle_ceiling p) as H2.
  rewrite E in H2. apply Qle_antisym; assumption.
Qed.

Lemma interp_factor_at_integer (i : Z) : interp_factor (qc i) = (0, i, i).
Proof.
  rewrite interp_factor_spec, floor_of_qc, ceiling_of_qc, Z.eqb_refl.
  reflexivity.
Qed.

Lemma bandwidthify_at_integer (i n : nat) :
  (i < n)%nat -> bandwidthify (qc (Z.of_nat i)) n = Some (one_hot i n).
Proof.
  intros Hi.
  rewrite bandwidthify_in_range;
    [|rewrite <- qc_0; apply qc_le; lia|apply qc_le; lia].
  rewrite interp_factor_at_integer, floor_of_qc, ceiling_of_qc, Nat2Z.id.
  simpl fst. rewrite convex_same. reflexivity.
Qed.

Lemma entry_lookup (arr : array) (i : nat) :
  wf_array arr -> (i < bandwidth_of arr)%nat ->
  superposition_lookup_vectored arr (one_hot i (bandwidth_of arr))
  = entry arr i
  /\ entry arr i <> None.
Proof.
  intros Hwf Hi. destruct arr as [v|[m rs]]; simpl in *.
  - rewrite lookup_at_rank1 by exact Hi.
    rewrite (nth_error_nth' v 0) by exact Hi. split; [reflexivity|discriminate].
  - rewrite (lookup_at m (length rs)) by auto.
    rewrite (nth_error_nth' rs []) by exact Hi.
    split; [reflexivity|discriminate].
Qed.

(** X9: at an integral position inside the array the scalar-index
    encoding is the exact one-hot vector, and the scalar-index
    superposition lookup returns the entry at that position, on arrays of
    rank 1 and of rank 2. *)
Theorem superposition_lookup_at_integer (arr : array) (i : nat) :
  wf_array arr -> (i < bandwidth_of arr)%nat ->
  bandwidthify (qc (Z.of_nat i)) (bandwidth_of arr)
  = Some (one_hot i (bandwidth_of arr))
  /\ superposition_lookup arr (qc (Z.of_nat i)) = entry arr i
  /\ entry arr i <> None.
Proof.
  intros Hwf Hi. split; [apply bandwidthify_at_integer; exact Hi|].
  unfold superposition_lookup. rewrite bandwidthify_at_integer by exact Hi.
  simpl bind. apply entry_lookup; assumption.
Qed.

(** X11: [linear_lookup] does not clamp: a position above the last index
    raises, on a rank-1 array and on a rank-2 array. *)
Theorem linear_lookup_above_range :
  (forall (arr : vec) (p : Qc),
      qc (Z.of_nat (length arr) - 1) < p -> linear_lookup arr p = None)
  /\ (forall (arr : matrix) (p : Qc),
      qc (Z.of_nat (length (rows arr)) - 1) < p ->
      linear_lookup_rows arr p = None).
Proof.
  assert (Hc : forall (n : nat) (p : Qc),
             qc (Z.of_nat n - 1) < p -> (Z.of_nat n <= Qceiling p)%Z).
  { intros n p Hp. unfold Qclt in Hp. rewrite this_qc in Hp.
    pose proof (Qle_ceiling p) as H.
    pose proof (Qlt_le_trans _ _ _ Hp H) as H'.
    rewrite <- Zlt_Qlt in H'. lia. }
  split; intros arr p Hp.
  - unfold linear_lookup. rewrite interp_factor_spec.
    rewrite (getitem_out_of_range arr (Qceiling p)) by (right; auto).
    destruct (getitem arr (Qfloor p)); reflexivity.
  - unfold linear_lookup_rows. rewrite interp_factor_spec.
    rewrite (getitem_out_of_range (rows arr) (Qceiling p)) by (right; auto).
    destruct (getitem (rows arr) (Qfloor p)); reflexivity.
Qed.

End MoreLookups.

Lemma superposition_lookup_at_integer_witness :
  bandwidthify (qc (Z.of_nat 1))
               (bandwidth_of (Arr2 (Mat 2 [[qc 1; qc 2]; [qc 3; qc 4]])))
  = Some (one_hot 1 (bandwidth_of (Arr2 (Mat 2 [[qc 1; qc 2]; [qc 3; qc 4]]))))
  /\ superposition_lookup (Arr2 (Mat 2 [[qc 1; qc 2]; [qc 3; qc 4]]))
                          (qc (Z.of_nat 1))
     = entry (Arr2 (Mat 2 [[qc 1; qc 2]; [qc 3; qc 4]])) 1
  /\ entry (Arr2 (Mat 2 [[qc 1; qc 2]; [qc 3; qc 4]])) 1 <> None.
Proof.
  apply (superposition_lookup_at_integer
           (Arr2 (Mat 2 [[qc 1; qc 2]; [qc 3; qc 4]])) 1).
  - repeat constructor.
  - simpl. lia.
Defined.

Lemma linear_lookup_above_range_witness :
  linear_lookup [qc 1; qc 2; qc 3] (Q2Qc (5 # 2)) = None
  /\ linear_lookup_rows (Mat 1 [[qc 1]; [qc 2]]) (qc 2) = None.
Proof.
  split.
  - apply (proj1 linear_lookup_above_range [qc 1; qc 2; qc 3] (Q2Qc (5 # 2))).
    vm_compute. reflexivity.
  - apply (proj2 linear_lookup_above_range (Mat 1 [[qc 1]; [qc 2]]) (qc 2)).
    vm_compute. reflexivity.
Defined.

Section RowsLookup.
Local Open Scope Qc_scope.

Lemma dot_nil_r (u : vec) : dot u [] = 0.
Proof. destruct u; reflexivity. Qed.

Lemma fold_rows_length (m : nat) (rs : list vec) :
  forall (w acc : vec),
    Forall (has_width m) rs -> length acc = m ->
    length (fold_left vadd (map2 scale rs w) acc) = m.
Proof.
  induction rs as [|r rs IH]; intros w acc Hwf Hacc; [exact Hacc|].
  destruct w as [|x w]; [exact Hacc|].
  inversion Hwf as [|r' rs' Hr Hwf' Heq]; subst r' rs'.
  rewrite map2_cons. simpl fold_left. apply IH; [exact Hwf'|].
  rewrite vadd_length; [exact Hacc|].
  unfold scale. rewrite length_map. congruence.
Qed.

(** One column of the weighted sum of rows is the dot product of that
    column of the array with the weights. *)
Lemma fold_rows_column (m j : nat) (rs : list vec) :
  forall (w acc : vec),
    Forall (has_width m) rs -> length acc = m -> (j < m)%nat ->
    nth j (fold_left vadd (map2 scale rs w) acc) 0
    = nth j acc 0 + dot (map (fun r => nth j r 0) rs) w.
Proof.
  induction rs as [|r rs IH]; intros w acc Hwf Hacc Hj.
  - simpl. unfold dot. simpl. ring.
  - destruct w as [|x w].
    + simpl. rewrite dot_nil_r. ring.
    + inversion Hwf as [|r' rs' Hr Hwf' Heq]; subst r' rs'.
      rewrite map2_cons. simpl fold_left. simpl map. rewrite dot_cons.
      assert (Hlen : length (vadd acc (scale r x)) = m).
      { rewrite vadd_length; [exact Hacc|].
        unfold scale. rewrite length_map. congruence. }
      rewrite (IH w (vadd acc (scale r x)) Hwf' Hlen Hj). unfold vadd at 1.
      rewrite (nth_map2 Qcplus acc (scale r x) j 0 0 0);
        [|unfold scale; rewrite length_map; congruence|lia].
      unfold scale. rewrite (nth_map_in _ r j 0) by (rewrite Hr; exact Hj).
      ring.
Qed.

Lemma column_of_rows (j : nat) (rs : list vec) (i : nat) :
  (i < length rs)%nat ->
  nth i (map (fun r => nth j r 0) rs) 0 = nth j (nth i rs []) 0.
Proof. intros Hi. apply (nth_map_in (fun r => nth j r 0) rs i []). exact Hi. Qed.

(** X12: on a rank-2 array and a position inside it, the scalar-index
    superposition lookup returns the row that [linear_lookup] computes:
    the blend of the rows at the floor and at the ceiling. *)
Theorem superposition_lookup_rows_is_linear_lookup (arr : matrix) (p : Qc) :
  wf_matrix arr ->
  0 <= p -> p <= qc (Z.of_nat (length (rows arr)) - 1) ->
  exists v,
    linear_lookup_rows arr p = Some v
    /\ superposition_lookup (Arr2 arr) p = Some v.
Proof.
  intros Hwf H0 H1. destruct arr as [m rs]. unfold wf_matrix in Hwf.
  cbn [rows ncols] in *.
  destruct (position_in_range p (length rs) H0 H1) as [Hf Hc].
  set (t := fst (fst (interp_factor p))).
  set (f := Z.to_nat (Qfloor p)). set (c := Z.to_nat (Qceiling p)).
  assert (Hfn : (f < length rs)%nat) by (unfold f; lia).
  assert (Hcn : (c < length rs)%nat) by (unfold c; lia).
  assert (Ha : length (nth f rs []) = m) by (apply nth_width; assumption).
  assert (Hb : length (nth c rs []) = m) by (apply nth_width; assumption).
  exists (vadd (map (fun a => t * a) (nth f rs []))
               (map (fun a => (1 - t) * a) (nth c rs []))).
  split.
  - unfold linear_lookup_rows. cbn [rows].
    destruct (interp_factor p) as [[t' i1] i2] eqn:E.
    rewrite interp_factor_spec in E. injection E as Et E1 E2. subst i1 i2.
    rewrite (getitem_nth rs (Qfloor p) [] Hf).
    rewrite (getitem_nth rs (Qceiling p) [] Hc).
    reflexivity.
  - unfold superposition_lookup. cbn [bandwidth_of rows].
    rewrite bandwidthify_in_range by assumption. cbn [bind].
    fold t. fold f. fold c.
    set (w := vadd (map (fun a => t * a) (one_hot f (length rs)))
                   (map (fun a => (1 - t) * a) (one_hot c (length rs)))).
    assert (Hw : length w = length rs).
    { unfold w. rewrite vadd_length; rewrite !length_map, !one_hot_length;
        reflexivity. }
    rewrite superposition_lookup_vectored_sum by exact Hw. f_equal.
    assert (Hl : length (fold_left vadd (map2 scale rs w) (zeros m)) = m)
      by (apply fold_rows_length; [exact Hwf|apply zeros_length]).
    apply (nth_ext _ _ 0 0).
    + rewrite Hl, vadd_length by (rewrite !length_map; congruence).
      rewrite length_map. congruence.
    + intros j Hj. rewrite Hl in Hj.
      rewrite (fold_rows_column m j rs w (zeros m) Hwf (zeros_length m) Hj).
      unfold w. rewrite dot_convex by (rewrite !one_hot_length; reflexivity).
      rewrite <- (length_map (fun r => nth j r 0) rs) at 1 2.
      rewrite !dot_one_hot by (rewrite length_map; assumption).
      rewrite !column_of_rows by assumption.
      rewrite nth_convex by congruence.
      unfold zeros. rewrite nth_repeat_lt by exact Hj. ring.
Qed.

End RowsLookup.

Lemma superposition_lookup_rows_is_linear_lookup_witness :
  exists v,
    linear_lookup_rows (Mat 2 [[qc 1; qc 2]; [qc 3; qc 5]]) (Q2Qc (1 # 4))
    = Some v
    /\ superposition_lookup (Arr2 (Mat 2 [[qc 1; qc 2]; [qc 3; qc 5]]))
                            (Q2Qc (1 # 4))
       = Some v.
Proof.
  apply (superposition_lookup_rows_is_linear_lookup
           (Mat 2 [[qc 1; qc 2]; [qc 3; qc 5]]) (Q2Qc (1 # 4))).
  - repeat constructor.
  - vm_compute; discriminate.
  - vm_compute; discriminate.
Defined.

Section Mirror.
Local Open Scope Qc_scope.

Lemma Qfloor_unique (q : Q) (z : Z) :
  (inject_Z z <= q)%Q -> (q < inject_Z (z + 1))%Q -> Qfloor q = z.
Proof.
  intros H1 H2.
  pose proof (Qfloor_resp_le _ _ H1) as Hlo. rewrite Qfloor_Z in Hlo.
  pose proof (Qle_lt_trans _ _ _ (Qfloor_le q) H2) as Hhi.
  rewrite <- Zlt_Qlt in Hhi. lia.
Qed.

Lemma Qceiling_unique (q : Q) (z : Z) :
  (inject_Z (z - 1) < q)%Q -> (q <= inject_Z z)%Q -> Qceiling q = z.
Proof.
  intros H1 H2. unfold Qceiling.
  rewrite (Qfloor_unique (- q) (- z)); [lia| |].
  - rewrite inject_Z_opp. lra.
  - replace (- z + 1)%Z with (- (z - 1))%Z by lia.
    rewrite inject_Z_opp. lra.
Qed.

(** X13: [linear_lookup] gives the fractional part of the position as
    weight to the entry at the floor, not to the one at the ceiling: at a
    position [p] inside the array its value is the one that linear
    interpolation has at the mirrored position [floor p + ceil p - p]. *)
Theorem linear_lookup_mirrors_interpolation (arr : vec) (p : Qc) :
  0 <= p -> p <= qc (Z.of_nat (length arr) - 1) ->
  exists v,
    linear_lookup arr p = Some v
    /\ lerp arr (qc (Qfloor p) + qc (Qceiling p) - p) = Some v.
Proof.
  intros H0 H1.
  destruct (position_in_range p (length arr) H0 H1) as [Hf Hc].
  rewrite linear_lookup_in_range by assumption. eexists.
  split; [reflexivity|].
  rewrite interp_factor_spec. simpl fst. unfold lerp.
  pose proof (floor_ceiling_gap p) as Hgap.
  destruct (Z.eqb_spec (Qceiling p) (Qfloor p)) as [E|E].
  - rewrite E. pose proof (integral_position p E) as Hp.
    replace (qc (Qfloor p) + qc (Qfloor p) - p) with (qc (Qfloor p))
      by (rewrite <- Hp; ring).
    rewrite floor_qc, floor_of_qc, ceiling_of_qc.
    rewrite (getitem_nth arr (Qfloor p) 0 Hf). cbn [bind].
    f_equal. ring.
  - assert (Ec : Qceiling p = (Qfloor p + 1)%Z) by lia.
    set (q := qc (Qfloor p) + qc (Qceiling p) - p).
    assert (Hq : (this q == inject_Z (Qfloor p) + inject_Z (Qceiling p)
                            - this p)%Q).
    { unfold q. rewrite this_minus, this_plus, !this_qc. reflexivity. }
    pose proof (Qfloor_le p) as Hp1. pose proof (Qlt_floor p) as Hp2.
    pose proof (Qceiling_lt p) as Hp3. pose proof (Qle_ceiling p) as Hp4.
    rewrite Ec in Hq, Hp3, Hp4.
    replace (Qfloor p + 1 - 1)%Z with (Qfloor p) in Hp3 by lia.
    rewrite inject_Z_plus in Hq, Hp2, Hp4.
    change (inject_Z 1) with 1%Q in Hq, Hp2, Hp4.
    assert (Hfq : Qfloor q = Qfloor p).
    { apply Qfloor_unique.
      - rewrite Hq. lra.
      - rewrite Hq, inject_Z_plus. change (inject_Z 1) with 1%Q. lra. }
    assert (Hcq : Qceiling q = Qceiling p).
    { rewrite Ec. apply Qceiling_unique.
      - replace (Qfloor p + 1 - 1)%Z with (Qfloor p) by lia.
        rewrite Hq. lra.
      - rewrite Hq, inject_Z_plus. change (inject_Z 1) with 1%Q. lra. }
    rewrite Hfq, Hcq.
    rewrite (getitem_nth arr (Qfloor p) 0 Hf).
    rewrite (getitem_nth arr (Qceiling p) 0 Hc). cbn [bind].
    f_equal. rewrite (floor_qc q), Hfq. unfold q. rewrite Ec.
    replace (qc (Qfloor p + 1)) with (qc (Qfloor p) + 1)
      by (apply Qc_is_canon; rewrite this_plus, !this_qc, inject_Z_plus;
          reflexivity).
    rewrite floor_qc. ring.
Qed.

End Mirror.

Lemma linear_lookup_mirrors_interpolation_witness :
  exists v,
    linear_lookup [qc 0; qc 1; qc 2; qc 3] (Q2Qc (5 # 4)) = Some v
    /\ lerp [qc 0; qc 1; qc 2; qc 3]
            (qc (Qfloor (Q2Qc (5 # 4))) + qc (Qceiling (Q2Qc (5 # 4)))
             - Q2Qc (5 # 4))%Qc
       = Some v.
Proof.
  apply (linear_lookup_mirrors_interpolation [qc 0; qc 1; qc 2; qc 3]
           (Q2Qc (5 # 4))); vm_compute; discriminate.
Defined.

Section Rounding.
Local Open Scope Qc_scope.

(** [tf.round] returns the floor or the next integer, at distance at most
    one half. *)
Lemma round_spec (p : Qc) :
  exists r,
    round p = qc r
    /\ (r = Qfloor p \/ r = (Qfloor p + 1)%Z)
    /\ - half <= p - qc r /\ p - qc r <= half.
Proof.
  unfold round. cbv zeta.
  pose proof (Qfloor_le p) as Hp1. pose proof (Qlt_floor p) as Hp2.
  rewrite inject_Z_plus in Hp2. change (inject_Z 1) with 1%Q in Hp2.
  assert (Hd : (this (p - qc (Qfloor p)) == this p - inject_Z (Qfloor p))%Q)
    by (rewrite this_minus, this_qc; reflexivity).
  assert (Hd1 : (this (p - qc (Qfloor p + 1))
                 == this p - inject_Z (Qfloor p) - 1)%Q).
  { rewrite this_minus, this_qc, inject_Z_plus.
    change (inject_Z 1) with 1%Q. ring. }
  assert (Hh : (this (- half) == - (1 # 2))%Q) by reflexivity.
  destruct (Qcltb (p - qc (Qfloor p)) half) eqn:E1.
  - apply Qcltb_lt in E1. unfold Qclt in E1. rewrite Hd in E1.
    change (this half) with (1 # 2)%Q in E1.
    exists (Qfloor p). split; [reflexivity|]. split; [left; reflexivity|].
    unfold Qcle. rewrite Hh, Hd. change (this half) with (1 # 2)%Q.
    split; lra.
  - apply Qcltb_ge in E1. unfold Qcle in E1. rewrite Hd in E1.
    change (this half) with (1 # 2)%Q in E1.
    destruct (Qcltb half (p - qc (Qfloor p))) eqn:E2.
    + exists (Qfloor p + 1)%Z. split; [reflexivity|].
      split; [right; reflexivity|].
      unfold Qcle. rewrite Hh, Hd1. change (this half) with (1 # 2)%Q.
      split; lra.
    + apply Qcltb_ge in E2. unfold Qcle in E2. rewrite Hd in E2.
      change (this half) with (1 # 2)%Q in E2.
      destruct (Z.even (Qfloor p)).
      * exists (Qfloor p). split; [reflexivity|]. split; [left; reflexivity|].
        unfold Qcle. rewrite Hh, Hd. change (this half) with (1 # 2)%Q.
        split; lra.
      * exists (Qfloor p + 1)%Z. split; [reflexivity|].
        split; [right; reflexivity|].
        unfold Qcle. rewrite Hh, Hd1. change (this half) with (1 # 2)%Q.
        split; lra.
Qed.

(** X14: on a position inside the array, [naive_lookup] returns the entry
    at the rounded position and [residual_lookup] that entry together with
    the residue; the rounded position plus the residue is the position,
    and the residue is at most one half in absolute value. *)
Theorem residual_lookup_rounds {A : Type} (arr : list A) (p : Qc) :
  0 <= p -> p <= qc (Z.of_nat (length arr) - 1) ->
  exists (i : nat) (a : A),
    round p = qc (Z.of_nat i)
    /\ nth_error arr i = Some a
    /\ naive_lookup arr p = Some a
    /\ residual_lookup arr p = Some (a, p - qc (Z.of_nat i))
    /\ - half <= p - qc (Z.of_nat i) /\ p - qc (Z.of_nat i) <= half.
Proof.
  intros H0 H1.
  destruct (round_spec p) as (r & Hr & Hrf & Hlo & Hhi).
  pose proof (floor_nonneg p H0) as Hf0.
  assert (Hrn : (0 <= r < Z.of_nat (length arr))%Z).
  { split; [lia|].
    unfold Qcle in Hlo, H1. rewrite this_minus, !this_qc in *.
    change (this (- half)) with (- (1 # 2))%Q in Hlo.
    assert (Hlt : (inject_Z r < inject_Z (Z.of_nat (length arr)))%Q).
    { replace (Z.of_nat (length arr))
        with (Z.of_nat (length arr) - 1 + 1)%Z by lia.
      rewrite (inject_Z_plus (Z.of_nat (length arr) - 1) 1).
      change (inject_Z 1) with 1%Q. lra. }
    rewrite <- Zlt_Qlt in Hlt. exact Hlt. }
  destruct (nth_error arr (Z.to_nat r)) as [a|] eqn:Ea;
    [|apply nth_error_None in Ea; lia].
  exists (Z.to_nat r), a. rewrite Z2Nat.id by lia.
  repeat split; try assumption.
  - unfold naive_lookup. rewrite Hr, cast_int32_qc.
    rewrite getitem_in_range by exact Hrn. exact Ea.
  - unfold residual_lookup. rewrite Hr, cast_int32_qc.
    rewrite getitem_in_range by exact Hrn. rewrite Ea. reflexivity.
Qed.

End Rounding.

Lemma residual_lookup_rounds_witness :
  exists (i : nat) (a : Qc),
    round (Q2Qc (5 # 2)) = qc (Z.of_nat i)
    /\ nth_error [qc 1; qc 2; qc 3; qc 4; qc 5] i = Some a
    /\ naive_lookup [qc 1; qc 2; qc 3; qc 4; qc 5] (Q2Qc (5 # 2)) = Some a
    /\ residual_lookup [qc 1; qc 2; qc 3; qc 4; qc 5] (Q2Qc (5 # 2))
       = Some (a, (Q2Qc (5 # 2) - qc (Z.of_nat i))%Qc)
    /\ (- half <= Q2Qc (5 # 2) - qc (Z.of_nat i))%Qc
    /\ (Q2Qc (5 # 2) - qc (Z.of_nat i) <= half)%Qc.
Proof.
  apply (residual_lookup_rounds [qc 1; qc 2; qc 3; qc 4; qc 5]
           (Q2Qc (5 # 2))); vm_compute; discriminate.
Defined.

(** * Further properties of the bulk encoding of positions *)

Section Bulk.
Local Open Scope Qc_scope.

Lemma bandwidthify_length (p : Qc) (n : nat) (w : vec) :
  (0 < n)%nat -> bandwidthify p n = Some w -> length w = n.
Proof.
  intros Hn. rewrite bandwidthify_spec by exact Hn. cbv zeta.
  intros H. injection H as <-.
  rewrite vadd_length; rewrite !length_map, !one_hot_length; reflexivity.
Qed.

Lemma bulk_loop_spec (n : nat) (rest : vec) :
  forall (done : list vec),
    (0 < n)%nat ->
    exists rows,
      bulk_loop n (combine (seq (length done) (length rest)) rest)
                (done ++ repeat (zeros n) (length rest))
      = Some (done ++ rows)
      /\ Forall2 (fun index row => bandwidthify index n = Some row) rest rows.
Proof.
  induction rest as [|index rest IH]; intros done Hn.
  - exists []. split; [reflexivity|constructor].
  - simpl length. simpl seq. simpl combine. simpl repeat. simpl bulk_loop.
    destruct (bandwidthify index n) as [b|] eqn:Eb;
      [|rewrite bandwidthify_spec in Eb by exact Hn; discriminate].
    cbn [bind].
    rewrite nth_error_app2, Nat.sub_diag by lia. cbn [nth_error bind].
    pose proof (bandwidthify_length index n b Hn Eb) as Hb.
    assert (Hz : vadd (zeros n) b = b)
      by (rewrite <- Hb; apply vadd_zeros_l).
    rewrite Hz. unfold set_row. rewrite firstn_app, Nat.sub_diag, firstn_all, firstn_O,
      app_nil_r.
    replace (skipn (S (length done))
                   (done ++ zeros n :: repeat (zeros n) (length rest)))
      with (repeat (zeros n) (length rest)).
    2: { rewrite skipn_app, skipn_all2 by lia.
         replace (S (length done) - length done)%nat with 1%nat by lia.
         reflexivity. }
    destruct (IH (done ++ [b]) Hn) as (rows & Hloop & Hrows).
    rewrite length_app in Hloop. simpl length in Hloop.
    rewrite Nat.add_1_r, <- app_assoc in Hloop. simpl app in Hloop.
    exists (b :: rows). rewrite Hloop, <- app_assoc. split; [reflexivity|].
    constructor; assumption.
Qed.

(** X15: on a positive bandwidth, [bulk_bandwidthify] returns one row per
    position, each row being the encoding that [bandwidthify] gives to
    that position alone (so of the bandwidth's length); no position makes
    it fail. *)
Theorem bulk_bandwidthify_rows (indices : vec) (bandwidth : nat) :
  (0 < bandwidth)%nat ->
  exists rows,
    bulk_bandwidthify indices bandwidth = Some rows
    /\ Forall2 (fun index row => bandwidthify index bandwidth = Some row)
               indices rows.
Proof.
  intros Hn. unfold bulk_bandwidthify.
  destruct (bulk_loop_spec bandwidth indices [] Hn) as (rows & Hloop & Hrows).
  exists rows. split; [exact Hloop|exact Hrows].
Qed.

End Bulk.

Lemma bulk_bandwidthify_rows_witness :
  exists rows,
    bulk_bandwidthify [qc 1; Q2Qc (7 # 2); qc 9] 5 = Some rows
    /\ Forall2 (fun index row => bandwidthify index 5 = Some row)
               [qc 1; Q2Qc (7 # 2); qc 9] rows.
Proof.
  apply (bulk_bandwidthify_rows [qc 1; Q2Qc (7 # 2); qc 9] 5). lia.
Defined.

(** * Further properties of the two-axis lookup and write *)

Lemma mapM_map2 {A B C : Type} (f : A * B -> option C) (g : A -> B -> C)
      (l1 : list A) (l2 : list B) :
  (forall a b, In (a, b) (combine l1 l2) -> f (a, b) = Some (g a b)) ->
  mapM f (combine l1 l2) = Some (map2 g l1 l2).
Proof.
  revert l2. induction l1 as [|a l1 IH]; intros [|b l2] H; try reflexivity.
  simpl combine. simpl mapM. rewrite (H a b) by (left; reflexivity).
  simpl bind. rewrite IH by (intros a' b' Hin; apply H; right; exact Hin).
  reflexivity.
Qed.

Section TwoAxisWrite.
Local Open Scope Qc_scope.

Lemma mixed_cell_length (w : Qc) (cell element : vec) :
  length element = length cell -> length (mixed_cell w cell element) = length cell.
Proof.
  intros H. unfold mixed_cell. rewrite vadd_length; rewrite !length_map; auto.
Qed.

Lemma mixed_cell_0 (cell element : vec) :
  length element = length cell -> mixed_cell 0 cell element = cell.
Proof.
  unfold mixed_cell. revert element.
  induction cell as [|a cell IH]; intros [|b element] H; simpl in H;
    try discriminate; [reflexivity|].
  simpl map. unfold vadd in *. rewrite map2_cons, IH by lia. f_equal. ring.
Qed.

Lemma mixed_cell_1 (cell element : vec) :
  length element = length cell -> mixed_cell 1 cell element = element.
Proof.
  unfold mixed_cell. revert element.
  induction cell as [|a cell IH]; intros [|b element] H; simpl in H;
    try discriminate; [reflexivity|].
  simpl map. unfold vadd in *. rewrite map2_cons, IH by lia. f_equal. ring.
Qed.

Lemma Forall_map2 {A B C : Type} (P : C -> Prop) (f : A -> B -> C)
      (l1 : list A) (l2 : list B) :
  (forall a b, In a l1 -> In b l2 -> P (f a b)) -> Forall P (map2 f l1 l2).
Proof.
  intros H. apply Forall_forall. intros c Hc. unfold map2 in Hc.
  apply in_map_iff in Hc. destruct Hc as ([a b] & <- & Hin).
  apply H; [eapply in_combine_l|eapply in_combine_r]; exact Hin.
Qed.

Lemma add_cells (C : nat) (K W : list (list vec)) :
  Forall (Forall (has_width C)) K -> Forall (Forall (has_width C)) W ->
  mapM (fun pq =>
          mapM (fun cd => broadcast Qcplus (fst cd) (snd cd))
               (combine (fst pq) (snd pq)))
       (combine K W)
  = Some (map2 (map2 vadd) K W).
Proof.
  intros HK HW.
  apply (mapM_map2 (fun pq : list vec * list vec =>
                      mapM (fun cd : vec * vec =>
                              broadcast Qcplus (fst cd) (snd cd))
                           (combine (fst pq) (snd pq)))
                   (map2 vadd)).
  intros kp wp Hin. simpl fst. simpl snd.
  apply (mapM_map2 (fun cd : vec * vec => broadcast Qcplus (fst cd) (snd cd))
                   vadd).
  intros kc wc Hc. simpl fst. simpl snd. apply broadcast_same.
  pose proof (proj1 (Forall_forall _ _) HK kp (in_combine_l _ _ _ _ Hin)) as Hk.
  pose proof (proj1 (Forall_forall _ _) HW wp (in_combine_r _ _ _ _ Hin)) as Hw.
  rewrite (proj1 (Forall_forall _ _) Hk kc (in_combine_l _ _ _ _ Hc)).
  rewrite (proj1 (Forall_forall _ _) Hw wc (in_combine_r _ _ _ _ Hc)).
  reflexivity.
Qed.

(** [tensor_write_2d] cell by cell: every cell of the array is blended
    with the element by the product of the two index weights. *)
Lemma tensor_write_2d_cells (arr : tensor3) (e xs ys : vec) :
  wf_tensor3 arr -> length e = dim2 arr ->
  length xs = length (planes arr) -> length ys = dim1 arr ->
  exists ps,
    tensor_write_2d arr e xs ys = Some (T3 (dim1 arr) (dim2 arr) ps)
    /\ length ps = length (planes arr)
    /\ forall i, (i < length (planes arr))%nat ->
         length (nth i ps []) = dim1 arr
         /\ forall j, (j < dim1 arr)%nat ->
              nth j (nth i ps []) []
              = mixed_cell (nth i xs 0 * nth j ys 0)
                           (nth j (nth i (planes arr) []) []) e.
Proof.
  intros Hwf He Hxs Hys. destruct arr as [Y C A].
  unfold wf_tensor3 in Hwf. cbn [planes dim1 dim2] in *.
  pose proof (proj1 (Forall_forall _ _) Hwf) as Hall.
  unfold tensor_write_2d, match_shapes_3_2, tensordot_0, shape.
  cbn [planes dim1 dim2 rows ncols fst snd].
  rewrite length_map, Hxs, Hys, !Nat.eqb_refl. cbn [andb bind snd fst].
  unfold add_last, mask_mul, one_minus. cbn [planes dim1 dim2].
  rewrite He, Nat.eqb_refl. cbn [orb].
  set (Mk := map (map (fun a : Qc => a :: nil))
                 (map (fun xi => map (fun yj => xi * yj) ys) xs)).
  set (fm := fun (w : vec) (cell : vec) => map (fun a => hd 0 w * a) cell).
  set (K := map2 (map2 fm) (map (map (map (fun w => 1 - w))) Mk) A).
  set (W := map2 (map2 fm) Mk (repeat (repeat e Y) (length A))).
  assert (HK : Forall (Forall (has_width C)) K).
  { apply Forall_map2. intros o a _ Ha. apply Forall_map2.
    intros w cell _ Hcell. unfold fm, has_width. rewrite length_map.
    destruct (Hall a Ha) as [_ Hcells].
    apply (proj1 (Forall_forall _ _) Hcells). exact Hcell. }
  assert (HW : Forall (Forall (has_width C)) W).
  { apply Forall_map2. intros o a _ Ha. apply Forall_map2.
    intros w cell _ Hcell. unfold fm, has_width. rewrite length_map.
    apply repeat_spec in Ha. subst a. apply repeat_spec in Hcell.
    subst cell. exact He. }
  rewrite (add_cells C K W HK HW). cbn [bind].
  replace (if (C =? 1)%nat then C else C) with C by (destruct (C =? 1)%nat; auto).
  exists (map2 (map2 vadd) K W). split; [reflexivity|].
  assert (HMk : length Mk = length A)
    by (unfold Mk; rewrite !length_map; exact Hxs).
  assert (HMki : forall i, (i < length A)%nat ->
            nth i Mk []
            = map (fun a : Qc => a :: nil)
                  (map (fun yj => nth i xs 0 * yj) ys)).
  { intros i Hi. unfold Mk.
    rewrite (nth_map_in _ _ i []) by (rewrite length_map; lia).
    rewrite (nth_map_in _ xs i 0) by lia. reflexivity. }
  assert (HKlen : length K = length A).
  { unfold K. apply map2_length_eq; [rewrite length_map; exact HMk|reflexivity]. }
  assert (HWlen : length W = length A).
  { unfold W. apply map2_length_eq; [exact HMk|apply repeat_length]. }
  split; [apply map2_length_eq; assumption|].
  intros i Hi.
  destruct (Hall (nth i A []) (nth_In _ _ Hi)) as [HiY HiC].
  set (row := map (fun yj => nth i xs 0 * yj) ys).
  assert (Hrow : length row = Y) by (unfold row; rewrite length_map; exact Hys).
  assert (HKi : nth i K []
                = map2 fm (map (map (fun w => 1 - w))
                               (map (fun a : Qc => a :: nil) row))
                       (nth i A [])).
  { unfold K. rewrite (nth_map2 _ _ A i [] [] []).
    - rewrite (nth_map_in _ Mk i []) by lia.
      rewrite HMki by exact Hi. reflexivity.
    - rewrite length_map. exact HMk.
    - rewrite length_map. lia. }
  assert (HWi : nth i W []
                = map2 fm (map (fun a : Qc => a :: nil) row) (repeat e Y)).
  { unfold W. rewrite (nth_map2 _ _ _ i [] [] []).
    - rewrite HMki by exact Hi. rewrite nth_repeat_lt by exact Hi.
      reflexivity.
    - rewrite repeat_length. exact HMk.
    - lia. }
  rewrite (nth_map2 _ K W i [] [] []) by lia.
  rewrite HKi, HWi.
  split.
  - apply map2_length_eq; apply map2_length_eq;
      rewrite ?length_map, ?repeat_length; auto.
  - intros j Hj.
    rewrite (nth_map2 _ _ _ j [] [] [])
      by (rewrite !map2_length_eq with (n := Y);
          rewrite ?length_map, ?repeat_length; auto; lia).
    rewrite (nth_map2 fm _ (nth i A []) j [] [] [])
      by (rewrite !length_map; lia).
    rewrite (nth_map2 fm _ (repeat e Y) j [] [] [])
      by (rewrite ?length_map, ?repeat_length; lia).
    rewrite nth_repeat_lt by exact Hj.
    rewrite (nth_map_in _ _ j [] []) by (rewrite length_map; lia).
    rewrite !(nth_map_in _ row j 0 []) by lia.
    unfold row. rewrite (nth_map_in _ ys j 0 0) by lia.
    unfold fm, mixed_cell. simpl hd. reflexivity.
Qed.

(** The write at exact one-hot indices, cell by cell. *)
Lemma tensor_write_2d_one_hot (arr : tensor3) (e : vec) (x y : nat) :
  wf_tensor3 arr -> length e = dim2 arr ->
  (x < length (planes arr))%nat -> (y < dim1 arr)%nat ->
  exists ps,
    tensor_write_2d arr e (one_hot x (length (planes arr)))
                    (one_hot y (dim1 arr))
    = Some (T3 (dim1 arr) (dim2 arr) ps)
    /\ length ps = length (planes arr)
    /\ forall i, (i < length (planes arr))%nat ->
         length (nth i ps []) = dim1 arr
         /\ forall j, (j < dim1 arr)%nat ->
              nth j (nth i ps []) []
              = if ((i =? x) && (j =? y))%nat then e
                else nth j (nth i (planes arr) []) [].
Proof.
  intros Hwf He Hx Hy.
  destruct (tensor_write_2d_cells arr e (one_hot x (length (planes arr)))
              (one_hot y (dim1 arr)) Hwf He
              (one_hot_length _ _) (one_hot_length _ _))
    as (ps & Hw & Hlen & Hcells).
  exists ps. split; [exact Hw|]. split; [exact Hlen|].
  intros i Hi. destruct (Hcells i Hi) as [HY Hc]. split; [exact HY|].
  intros j Hj. rewrite (Hc j Hj), !nth_one_hot by assumption.
  assert (Hcell : length e = length (nth j (nth i (planes arr) []) [])).
  { pose proof (proj1 (Forall_forall _ _) Hwf (nth i (planes arr) [])
                      (nth_In _ _ Hi)) as [HiY HiC].
    rewrite He. symmetry.
    apply (proj1 (Forall_forall _ _) HiC). apply nth_In. lia. }
  destruct (i =? x)%nat; [destruct (j =? y)%nat|]; cbn [andb].
  - replace (1 * 1) with 1 by ring. apply mixed_cell_1. exact Hcell.
  - replace (1 * 0) with 0 by ring. apply mixed_cell_0. exact Hcell.
  - replace (0 * (if (j =? y)%nat then 1 else 0)) with 0 by ring.
    apply mixed_cell_0. exact Hcell.
Qed.

Lemma slice_in (a : tensor3) (x y : nat) :
  (x < length (planes a))%nat -> (y < length (nth x (planes a) []))%nat ->
  slice a x y = Some (nth y (nth x (planes a) []) []).
Proof.
  intros Hx Hy. unfold slice.
  rewrite (nth_error_nth' _ [] Hx). cbn [bind].
  apply nth_error_nth'. exact Hy.
Qed.

Lemma slice_out (a : tensor3) (x y : nat) :
  (length (nth x (planes a) []) <= y)%nat -> slice a x y = None.
Proof.
  intros Hy. unfold slice.
  destruct (nth_error (planes a) x) as [p|] eqn:Hp; [|reflexivity].
  cbn [bind]. apply nth_error_None.
  rewrite (nth_error_nth _ _ [] Hp) in Hy. exact Hy.
Qed.

End TwoAxisWrite.

(** X16: [tensor_write_2d] at exact one-hot indices succeeds on a
    well-formed array and an element of the array's cell width: the result
    has the shape of the array, holds the element at the addressed slice
    and every other slice as it was. *)
Theorem tensor_write_2d_writes_slice (arr : tensor3) (e : vec) (x y : nat) :
  wf_tensor3 arr -> length e = dim2 arr ->
  x < length (planes arr) -> y < dim1 arr ->
  exists arr',
    tensor_write_2d arr e (one_hot x (length (planes arr)))
                    (one_hot y (dim1 arr)) = Some arr'
    /\ wf_tensor3 arr'
    /\ length (planes arr') = length (planes arr)
    /\ dim1 arr' = dim1 arr /\ dim2 arr' = dim2 arr
    /\ slice arr' x y = Some e
    /\ forall x' y', (x', y') <> (x, y) ->
         slice arr' x' y' = slice arr x' y'.
Proof.
  intros Hwf He Hx Hy.
  destruct (tensor_write_2d_one_hot arr e x y Hwf He Hx Hy)
    as (ps & Hw & Hlen & Hcells).
  pose proof (proj1 (Forall_forall _ _) Hwf) as Hall.
  exists (T3 (dim1 arr) (dim2 arr) ps). split; [exact Hw|].
  cbn [planes dim1 dim2].
  split; [|split; [exact Hlen|split; [reflexivity|split; [reflexivity|split]]]].
  - unfold wf_tensor3. cbn [planes dim1 dim2].
    apply Forall_forall. intros p Hp.
    destruct (In_nth _ _ [] Hp) as (i & Hi & <-). rewrite Hlen in Hi.
    destruct (Hcells i Hi) as [HY Hc]. split; [exact HY|].
    apply Forall_forall. intros c Hc'.
    destruct (In_nth _ _ [] Hc') as (j & Hj & <-). rewrite HY in Hj.
    rewrite (Hc j Hj).
    destruct ((i =? x) && (j =? y))%bool; [exact He|].
    destruct (Hall (nth i (planes arr) []) (nth_In _ _ Hi)) as [HiY HiC].
    apply (proj1 (Forall_forall _ _) HiC). apply nth_In. lia.
  - destruct (Hcells x Hx) as [HY Hc].
    rewrite slice_in; cbn [planes]; try lia.
    rewrite (Hc y Hy), !Nat.eqb_refl. reflexivity.
  - intros x' y' Hne.
    destruct (Nat.lt_ge_cases x' (length (planes arr))) as [Hx'|Hx'].
    + destruct (Hcells x' Hx') as [HY Hc].
      destruct (Hall (nth x' (planes arr) []) (nth_In _ _ Hx'))
        as [HiY _].
      destruct (Nat.lt_ge_cases y' (dim1 arr)) as [Hy'|Hy'].
      * rewrite !slice_in; cbn [planes]; try lia.
        rewrite (Hc y' Hy').
        destruct (Nat.eqb_spec x' x) as [->|_];
          [destruct (Nat.eqb_spec y' y) as [->|_]|]; cbn [andb];
          try reflexivity.
        exfalso. apply Hne. reflexivity.
      * rewrite !slice_out; cbn [planes]; try lia. reflexivity.
    + rewrite !slice_out; cbn [planes]; try reflexivity;
        rewrite nth_overflow by lia; simpl; lia.
Qed.

Lemma tensor_write_2d_writes_slice_witness :
  exists arr',
    tensor_write_2d example_negative [qc 5; qc 555] (one_hot 1 2) (one_hot 0 2)
    = Some arr'
    /\ wf_tensor3 arr'
    /\ length (planes arr') = 2
    /\ dim1 arr' = 2 /\ dim2 arr' = 2
    /\ slice arr' 1 0 = Some [qc 5; qc 555]
    /\ forall x' y', (x', y') <> (1, 0) ->
         slice arr' x' y' = slice example_negative x' y'.
Proof.
  apply (tensor_write_2d_writes_slice example_negative [qc 5; qc 555] 1 0).
  - repeat constructor.
  - reflexivity.
  - simpl. lia.
  - simpl. lia.
Defined.

(** X17: after a write at exact one-hot indices, [tensor_lookup_2d] at the
    same indices returns the written element, when the element has no
    negative entry. *)
Theorem tensor_lookup_2d_after_write (arr : tensor3) (e : vec) (x y : nat) :
  wf_tensor3 arr -> length e = dim2 arr ->
  x < length (planes arr) -> y < dim1 arr ->
  Forall (fun a => (0 <= a)%Qc) e ->
  exists arr',
    tensor_write_2d arr e (one_hot x (length (planes arr)))
                    (one_hot y (dim1 arr)) = Some arr'
    /\ tensor_lookup_2d arr' (one_hot x (length (planes arr)))
                        (one_hot y (dim1 arr)) = Some e.
Proof.
  intros Hwf He Hx Hy Hpos.
  destruct (tensor_write_2d_one_hot arr e x y Hwf He Hx Hy)
    as (ps & Hw & Hlen & Hcells).
  pose proof (proj1 (Forall_forall _ _) Hwf) as Hall.
  exists (T3 (dim1 arr) (dim2 arr) ps). split; [exact Hw|].
  rewrite <- Hlen.
  apply (tensor_lookup_2d_nonnegative (T3 (dim1 arr) (dim2 arr) ps) x y e).
  - unfold wf_tensor3. cbn [planes dim1 dim2].
    apply Forall_forall. intros p Hp.
    destruct (In_nth _ _ [] Hp) as (i & Hi & <-). rewrite Hlen in Hi.
    destruct (Hcells i Hi) as [HY Hc]. split; [exact HY|].
    apply Forall_forall. intros c Hc'.
    destruct (In_nth _ _ [] Hc') as (j & Hj & <-). rewrite HY in Hj.
    rewrite (Hc j Hj).
    destruct ((i =? x) && (j =? y))%bool; [exact He|].
    destruct (Hall (nth i (planes arr) []) (nth_In _ _ Hi)) as [HiY HiC].
    apply (proj1 (Forall_forall _ _) HiC). apply nth_In. lia.
  - destruct (Hcells x Hx) as [HY Hc].
    rewrite slice_in; cbn [planes]; try lia.
    rewrite (Hc y Hy), !Nat.eqb_refl. reflexivity.
  - exact Hpos.
Qed.

Lemma tensor_lookup_2d_after_write_witness :
  exists arr',
    tensor_write_2d example_negative [qc 5; qc 555] (one_hot 1 2) (one_hot 0 2)
    = Some arr'
    /\ tensor_lookup_2d arr' (one_hot 1 2) (one_hot 0 2)
       = Some [qc 5; qc 555].
Proof.
  apply (tensor_lookup_2d_after_write example_negative [qc 5; qc 555] 1 0).
  - repeat constructor.
  - reflexivity.
  - simpl. lia.
  - simpl. lia.
  - repeat constructor; vm_compute; discriminate.
Defined.

(** X18: index vectors whose lengths are not the first two dimensions of
    the array make both two-axis operations raise: [match_shapes] finds no
    common shape. *)
Theorem two_axis_shape_mismatch (arr : tensor3) (e x_index y_index : vec) :
  length x_index <> length (planes arr) \/ length y_index <> dim1 arr ->
  tensor_lookup_2d arr x_index y_index = None
  /\ tensor_write_2d arr e x_index y_index = None.
Proof.
  intros H.
  unfold tensor_lookup_2d, broadcast_multiply, match_shapes,
    tensor_write_2d, match_shapes_3_2, tensordot_0, shape.
  cbn [planes dim1 dim2 rows ncols fst snd]. rewrite length_map.
  assert (E : ((length (planes arr) =? length x_index)
               && (dim1 arr =? length y_index))%nat = false).
  { apply andb_false_iff.
    destruct H as [H|H]; [left|right]; apply Nat.eqb_neq; congruence. }
  rewrite E. split; reflexivity.
Qed.

Lemma two_axis_shape_mismatch_witness :
  tensor_lookup_2d example_negative [qc 1; qc 0; qc 0] [qc 1; qc 0] = None
  /\ tensor_write_2d example_negative [qc 5; qc 555] [qc 1; qc 0; qc 0]
                     [qc 1; qc 0] = None.
Proof.
  apply (two_axis_shape_mismatch example_negative [qc 5; qc 555]
           [qc 1; qc 0; qc 0] [qc 1; qc 0]).
  left. simpl. lia.
Defined.

(** X19: an element whose width is neither the cell width of the array
    nor 1 cannot be broadcast against the array, whose cell width is not 1
    either: [tensor_write_2d] raises. *)
Theorem tensor_write_2d_wrong_width (arr : tensor3) (e x_index y_index : vec) :
  length e <> dim2 arr -> length e <> 1 -> dim2 arr <> 1 ->
  tensor_write_2d arr e x_index y_index = None.
Proof.
  intros H1 H2 H3. unfold tensor_write_2d.
  destruct (match_shapes_3_2 arr (tensordot_0 x_index y_index)) as [hm|];
    [|reflexivity].
  cbn [bind]. unfold add_last, mask_mul, one_minus. cbn [dim2 fst snd].
  apply Nat.eqb_neq in H2, H3.
  assert (E : (dim2 arr =? length e)%nat = false)
    by (apply Nat.eqb_neq; congruence).
  rewrite E, H2, H3. reflexivity.
Qed.

Lemma tensor_write_2d_wrong_width_witness :
  tensor_write_2d example_negative [qc 5; qc 55; qc 555] (one_hot 1 2)
                  (one_hot 0 2) = None.
Proof.
  apply (tensor_write_2d_wrong_width example_negative).
  - simpl. lia.
  - simpl. lia.
  - simpl. lia.
Defined.

(** * The stack with an integer index *)

Lemma assign_index_at (m n i : nat) (rs : list vec) (e : vec) :
  length rs = n -> Forall (has_width m) rs -> length e = m -> i < n ->
  assign_index (Mat m rs) (Z.of_nat i) e = Some (Mat m (set_row i e rs)).
Proof.
  intros Hn Hwf He Hi. subst n.
  rewrite <- (assign_at m (length rs) i rs e eq_refl Hwf He Hi).
  unfold assign_index, shape. simpl fst.
  rewrite getitem_eye by lia. rewrite Nat2Z.id. reflexivity.
Qed.

Lemma set_row_app (pre : list vec) (x e : vec) (rest : list vec) :
  set_row (length pre) e (pre ++ x :: rest) = pre ++ e :: rest.
Proof.
  unfold set_row. induction pre as [|a pre IH]; [reflexivity|].
  simpl length. rewrite <- !app_comm_cons, firstn_cons, skipn_cons.
  rewrite <- app_comm_cons. f_equal. exact IH.
Qed.

Lemma int_stack_push_at (m n i : nat) (rs : list vec) (e : vec) :
  length rs = n -> Forall (has_width m) rs -> length e = m -> i < n ->
  IntStack.stack_push (Mat m rs, Z.of_nat i) e
  = Some (Mat m (set_row i e rs), Z.of_nat (S i)).
Proof.
  intros Hn Hwf He Hi. unfold IntStack.stack_push.
  rewrite (assign_index_at m n i rs e Hn Hwf He Hi). cbn [bind].
  do 2 f_equal. lia.
Qed.

Lemma int_stack_pop_at (m i : nat) (rs : list vec) :
  i < length rs ->
  IntStack.stack_pop (Mat m rs, Z.of_nat (S i))
  = Some ((Mat m rs, Z.of_nat i), nth i rs []).
Proof.
  intros Hi. unfold IntStack.stack_pop. cbn [rows].
  replace (Z.of_nat (S i) - 1)%Z with (Z.of_nat i) by lia.
  rewrite (getitem_nth rs (Z.of_nat i) []) by lia.
  rewrite Nat2Z.id. reflexivity.
Qed.

(** Pushes onto the integer-index stack fill the rows from the index
    on. *)
Lemma int_push_all_spec (m : nat) (es pre mid post : list vec) :
  Forall (has_width m) (pre ++ mid ++ post) -> Forall (has_width m) es ->
  length mid = length es ->
  IntStack.push_all (Mat m (pre ++ mid ++ post), Z.of_nat (length pre)) es
  = Some (Mat m (pre ++ es ++ post), Z.of_nat (length pre + length es)).
Proof.
  revert pre mid. induction es as [|e es IH]; intros pre mid Hwf Hes Hlen.
  - destruct mid; [|discriminate]. simpl. rewrite Nat.add_0_r. reflexivity.
  - destruct mid as [|x mid]; [discriminate|]. simpl in Hlen.
    inversion Hes as [|e' es' He Hes']; subst e' es'.
    cbn [IntStack.push_all].
    rewrite (int_stack_push_at m (length (pre ++ (x :: mid) ++ post)));
      [|reflexivity|exact Hwf|exact He|rewrite length_app; simpl; lia].
    cbn [bind]. rewrite <- app_comm_cons, set_row_app.
    replace (S (length pre)) with (length (pre ++ [e]))
      by (rewrite length_app; simpl; lia).
    replace (pre ++ e :: mid ++ post) with ((pre ++ [e]) ++ mid ++ post)
      by (rewrite <- app_assoc; reflexivity).
    rewrite (IH (pre ++ [e]) mid).
    + rewrite <- app_assoc, length_app. simpl.
      do 3 f_equal. lia.
    + rewrite <- app_assoc. simpl.
      rewrite <- app_comm_cons in Hwf.
      apply Forall_app in Hwf. destruct Hwf as [Hpre Hrest].
      inversion Hrest; subst.
      apply Forall_app. split; [exact Hpre|]. constructor; assumption.
    + exact Hes'.
    + lia.
Qed.

(** A transfer pops a segment below the index of the first stack and
    pushes it, topmost row first, onto the second. *)
Lemma int_transfer_spec (m : nat) (seg lo hi pre mid post : list vec) :
  Forall (has_width m) (lo ++ seg ++ hi) ->
  Forall (has_width m) (pre ++ mid ++ post) ->
  length mid = length seg ->
  IntStack.transfer (length seg)
    (Mat m (lo ++ seg ++ hi), Z.of_nat (length lo + length seg))
    (Mat m (pre ++ mid ++ post), Z.of_nat (length pre))
  = Some ((Mat m (lo ++ seg ++ hi), Z.of_nat (length lo)),
          (Mat m (pre ++ rev seg ++ post),
           Z.of_nat (length pre + length seg))).
Proof.
  revert hi pre mid.
  induction seg as [|el seg IH] using rev_ind; intros hi pre mid H1 H2 Hlen.
  - destruct mid; [|discriminate]. simpl. rewrite !Nat.add_0_r. reflexivity.
  - rewrite length_app in Hlen |- *. simpl length in Hlen |- *.
    rewrite Nat.add_1_r in Hlen |- *.
    destruct mid as [|x mid]; [discriminate|]. simpl in Hlen.
    cbn [IntStack.transfer].
    replace (length lo + S (length seg)) with (S (length lo + length seg))
      by lia.
    rewrite int_stack_pop_at
      by (rewrite !length_app; simpl; lia).
    cbn [bind].
    assert (Hel : nth (length lo + length seg) (lo ++ (seg ++ [el]) ++ hi) []
                  = el).
    { rewrite app_nth2 by lia.
      replace (length lo + length seg - length lo) with (length seg) by lia.
      rewrite <- app_assoc. rewrite app_nth2 by lia.
      rewrite Nat.sub_diag. reflexivity. }
    rewrite Hel.
    assert (Hw : has_width m el).
    { apply (proj1 (Forall_forall _ _) H1).
      apply in_or_app. right. apply in_or_app. left.
      apply in_or_app. right. left. reflexivity. }
    rewrite (int_stack_push_at m (length (pre ++ (x :: mid) ++ post)));
      [|reflexivity|exact H2|exact Hw|rewrite length_app; simpl; lia].
    cbn [bind]. rewrite <- app_comm_cons, set_row_app.
    replace (S (length pre)) with (length (pre ++ [el]))
      by (rewrite length_app; simpl; lia).
    replace (pre ++ el :: mid ++ post) with ((pre ++ [el]) ++ mid ++ post)
      by (rewrite <- app_assoc; reflexivity).
    replace (lo ++ (seg ++ [el]) ++ hi) with (lo ++ seg ++ el :: hi)
      by (rewrite <- (app_assoc seg); reflexivity).
    rewrite (IH (el :: hi) (pre ++ [el]) mid).
    + rewrite rev_app_distr, <- app_assoc, length_app. simpl.
      do 4 f_equal. lia.
    + rewrite <- (app_assoc seg) in H1. exact H1.
    + rewrite <- app_assoc. simpl.
      rewrite <- app_comm_cons in H2.
      apply Forall_app in H2. destruct H2 as [Hpre Hrest].
      inversion Hrest; subst.
      apply Forall_app. split; [exact Hpre|]. constructor; assumption.
    + lia.
Qed.

(** X20: on the stack with an integer index, a push at an index inside
    the buffer followed by a pop returns the pushed element and the index
    before the push; the buffer keeps the element in that row. *)
Theorem int_stack_push_pop (m n i : nat) (rs : list vec) (e : vec) :
  length rs = n -> Forall (has_width m) rs -> length e = m -> i < n ->
  (s' <- IntStack.stack_push (Mat m rs, Z.of_nat i) e ;;
   IntStack.stack_pop s')
  = Some ((Mat m (set_row i e rs), Z.of_nat i), e).
Proof.
  intros Hn Hwf He Hi.
  rewrite (int_stack_push_at m n i rs e Hn Hwf He Hi). cbn [bind].
  rewrite int_stack_pop_at by (rewrite set_row_length; lia).
  rewrite set_row_nth by lia. reflexivity.
Qed.

Lemma int_stack_push_pop_witness :
  (s' <- IntStack.stack_push (Mat 1 [[qc 5]; [qc 6]], Z.of_nat 1) [qc 7] ;;
   IntStack.stack_pop s')
  = Some ((Mat 1 (set_row 1 [qc 7] [[qc 5]; [qc 6]]), Z.of_nat 1), [qc 7]).
Proof.
  apply (int_stack_push_pop 1 2 1 [[qc 5]; [qc 6]] [qc 7]);
    [reflexivity | repeat constructor | reflexivity | lia].
Defined.

(** X21: the [reverse_list] of the notebook with the integer index returns
    the rows of a rank-2 array in reverse order. *)
Theorem int_reverse_list_reverses (arr : matrix) :
  wf_matrix arr ->
  IntStack.reverse_list arr = Some (Mat (ncols arr) (rev (rows arr))).
Proof.
  intros Hwf. destruct arr as [m rs]. unfold wf_matrix in Hwf.
  cbn [rows ncols] in *.
  unfold IntStack.reverse_list, shape, zeros2.
  cbn [rows ncols fst snd].
  assert (Hz : Forall (has_width m) (repeat (zeros m) (length rs))).
  { apply Forall_forall. intros r Hr. apply repeat_spec in Hr. subst r.
    apply zeros_length. }
  pose proof (int_push_all_spec m rs [] (repeat (zeros m) (length rs)) [])
    as Hpush.
  cbn [app length Nat.add] in Hpush. rewrite !app_nil_r in Hpush.
  change (Z.of_nat 0) with 0%Z in Hpush.
  rewrite Hpush; [|exact Hz|exact Hwf|apply repeat_length].
  cbn [bind Nat.add].
  pose proof (int_transfer_spec m rs [] [] []
                (repeat (zeros m) (length rs)) []) as Htr.
  cbn [app length Nat.add] in Htr. rewrite !app_nil_r in Htr.
  change (Z.of_nat 0) with 0%Z in Htr.
  rewrite Htr; [|exact Hwf|exact Hz|apply repeat_length].
  reflexivity.
Qed.

Lemma int_reverse_list_reverses_witness :
  IntStack.reverse_list (Mat 2 [[qc 1; qc 1]; [qc 2; qc 2]; [qc 3; qc 3]])
  = Some (Mat (ncols (Mat 2 [[qc 1; qc 1]; [qc 2; qc 2]; [qc 3; qc 3]]))
              (rev (rows (Mat 2 [[qc 1; qc 1]; [qc 2; qc 2]; [qc 3; qc 3]])))).
Proof.
  apply (int_reverse_list_reverses
           (Mat 2 [[qc 1; qc 1]; [qc 2; qc 2]; [qc 3; qc 3]])).
  repeat constructor.
Defined.

(** X22: the stack with an integer index does not wrap: after as many
    pushes as the buffer has rows the buffer holds the pushed elements in
    order, the index is the number of rows, and one more push raises. *)
Theorem int_stack_push_full_raises (m : nat) (es : list vec) (e : vec) :
  Forall (has_width m) es ->
  IntStack.push_all (zeros2 (length es, m), 0%Z) es
  = Some (Mat m es, Z.of_nat (length es))
  /\ IntStack.stack_push (Mat m es, Z.of_nat (length es)) e = None.
Proof.
  intros Hes. split.
  - unfold zeros2. cbn [fst snd].
    pose proof (int_push_all_spec m es [] (repeat (zeros m) (length es)) [])
      as Hpush.
    cbn [app length Nat.add] in Hpush. rewrite !app_nil_r in Hpush.
    change (Z.of_nat 0) with 0%Z in Hpush.
    apply Hpush; [|exact Hes|apply repeat_length].
    apply Forall_forall. intros r Hr. apply repeat_spec in Hr. subst r.
    apply zeros_length.
  - unfold IntStack.stack_push, assign_index, shape. cbn [rows fst].
    rewrite getitem_out_of_range by (rewrite eye_length; lia).
    reflexivity.
Qed.

Lemma int_stack_push_full_raises_witness :
  IntStack.push_all (zeros2 (length [[qc 1]; [qc 2]], 1), 0%Z)
                    [[qc 1]; [qc 2]]
  = Some (Mat 1 [[qc 1]; [qc 2]], Z.of_nat (length [[qc 1]; [qc 2]]))
  /\ IntStack.stack_push (Mat 1 [[qc 1]; [qc 2]],
                          Z.of_nat (length [[qc 1]; [qc 2]])) [qc 3]
     = None.
Proof.
  apply (int_stack_push_full_raises 1 [[qc 1]; [qc 2]] [qc 3]).
  repeat constructor.
Defined.

Lemma nth_pred_last {A : Type} (l : list A) (d : A) :
  nth (length l - 1) l d = last l d.
Proof.
  induction l as [|a [|b l] IH]; try reflexivity.
  change (last (a :: b :: l) d) with (last (b :: l) d). rewrite <- IH.
  replace (length (a :: b :: l) - 1) with (S (length (b :: l) - 1))
    by (simpl; lia).
  reflexivity.
Qed.

(** X23: a pop of the stack with an integer index at index 0 does not
    raise on a buffer with rows: the index becomes -1 and the element is
    the last row of the buffer; on a buffer without rows it raises. *)
Theorem int_stack_pop_empty_wraps (m : nat) (rs : list vec) :
  IntStack.stack_pop (Mat m rs, 0%Z)
  = match rs with
    | [] => None
    | _ :: _ => Some ((Mat m rs, (-1)%Z), last rs [])
    end.
Proof.
  unfold IntStack.stack_pop. cbn [rows]. change (0 - 1)%Z with (-1)%Z.
  destruct rs as [|r rs]; [reflexivity|].
  unfold getitem. change (-1 <? 0)%Z with true. cbn iota.
  set (l := r :: rs).
  assert (Hl : (0 < length l)%nat) by (unfold l; simpl; lia).
  destruct (Z.leb_spec 0 (Z.of_nat (length l) + -1)); [|lia].
  destruct (Z.ltb_spec (Z.of_nat (length l) + -1) (Z.of_nat (length l)));
    [|lia].
  cbn [andb].
  replace (Z.to_nat (Z.of_nat (length l) + -1)) with (length l - 1)%nat by lia.
  rewrite (nth_error_nth' l []) by lia. cbn [bind].
  rewrite nth_pred_last. reflexivity.
Qed.

(** X24: while the position stays inside the buffer, the stack with a
    one-hot position and the stack with an integer index do the same to
    the buffer: a push at row [i] writes the same buffer, and a pop from
    the position above row [i] returns the same element. *)
Theorem one_hot_stack_simulates_int_stack (m n i : nat) (rs : list vec)
        (e : vec) :
  length rs = n -> Forall (has_width m) rs -> length e = m -> i < n ->
  option_map fst (stack_push (Mat m rs, one_hot i n) e)
  = option_map fst (IntStack.stack_push (Mat m rs, Z.of_nat i) e)
  /\ option_map snd (stack_pop (Mat m rs, one_hot (S i mod n) n))
     = option_map snd (IntStack.stack_pop (Mat m rs, Z.of_nat (S i))).
Proof.
  intros Hn Hwf He Hi. split.
  - rewrite (stack_push_at m n i rs e Hn Hwf He Hi).
    rewrite (int_stack_push_at m n i rs e Hn Hwf He Hi). reflexivity.
  - rewrite (stack_pop_at m n i rs Hn Hwf Hi).
    rewrite int_stack_pop_at by lia. reflexivity.
Qed.

Lemma one_hot_stack_simulates_int_stack_witness :
  option_map fst (stack_push (Mat 1 [[qc 5]; [qc 6]], one_hot 1 2) [qc 7])
  = option_map fst
      (IntStack.stack_push (Mat 1 [[qc 5]; [qc 6]], Z.of_nat 1) [qc 7])
  /\ option_map snd (stack_pop (Mat 1 [[qc 5]; [qc 6]], one_hot (2 mod 2) 2))
     = option_map snd
         (IntStack.stack_pop (Mat 1 [[qc 5]; [qc 6]], Z.of_nat 2)).
Proof.
  apply (one_hot_stack_simulates_int_stack 1 2 1 [[qc 5]; [qc 6]] [qc 7]);
    [reflexivity | repeat constructor | reflexivity | lia].
Defined.

(** * The weighted-sum lookup on an array of rank 3 *)

(** C3 as stated fails: on the rank-3 array [example_cube] the lookup with
    the one-hot weights at 1 does not return the entry [arr[1]].  The
    weights run along the second axis, so that the result holds zeros in
    row 0 and the sum of the rows 1 of both planes in row 1. *)
Lemma superposition_lookup_rank3_counterexample :
  wf_tensor3 example_cube
  /\ nth_error (planes example_cube) 1
     = Some [[qc 2; qc 2]; [qc 2; qc 22]]
  /\ exists m,
       superposition_lookup_vectored_rank3
         example_cube (one_hot 1 (length (planes example_cube))) = Some m
       /\ values2 m = [[0; 0]; [3; 33]]%Q
       /\ rows m <> [[qc 2; qc 2]; [qc 2; qc 22]].
Proof.
  split; [repeat constructor|]. split; [reflexivity|].
  eexists. split; [reflexivity|]. split.
  - vm_compute. reflexivity.
  - intros H. apply (f_equal (map values)) in H. vm_compute in H.
    discriminate H.
Qed.

(** * Positions outside the int32 range *)

Section Int32Positions.
Local Open Scope Qc_scope.

Lemma of_Z_in_range (z : Z) :
  (Int32.min_int <= z <= Int32.max_int)%Z -> Int32.of_Z z = z.
Proof.
  intros [H1 H2]. unfold Int32.of_Z.
  apply Z.leb_le in H1, H2. rewrite H1, H2. reflexivity.
Qed.

Lemma of_Z_above (z : Z) :
  (Int32.max_int < z)%Z -> Int32.of_Z z = Int32.min_int.
Proof.
  intros H. unfold Int32.of_Z.
  destruct (Z.leb_spec z Int32.max_int) as [E|_]; [lia|].
  rewrite andb_false_r. reflexivity.
Qed.

Lemma of_Z_nonpos (z : Z) : (z <= 0)%Z -> (Int32.of_Z z <= 0)%Z.
Proof.
  intros H. unfold Int32.of_Z.
  destruct ((Int32.min_int <=? z) && (z <=? Int32.max_int))%Z;
    [exact H|unfold Int32.min_int; lia].
Qed.

Lemma int32_interp_factor_spec (p : Qc) :
  Int32.interp_factor p
  = (fst (fst (interp_factor p)),
     Int32.of_Z (Qfloor p), Int32.of_Z (Qceiling p)).
Proof.
  unfold Int32.interp_factor, Int32.cast_int32, interp_factor.
  rewrite floor_qc, ceil_qc, !cast_int32_qc. reflexivity.
Qed.

(** On a position in the int32 range the cast is exact: [interp_factor]
    as the first part takes it is [interp_factor] as it is computed. *)
Lemma int32_interp_factor_exact (p : Qc) :
  qc Int32.min_int <= p -> p <= qc Int32.max_int ->
  Int32.interp_factor p = interp_factor p.
Proof.
  intros H1 H2. rewrite int32_interp_factor_spec, interp_factor_spec.
  simpl fst.
  pose proof (floor_ge p _ H1). pose proof (ceiling_le p _ H2).
  pose proof (floor_ceiling_gap p).
  rewrite !of_Z_in_range by lia. reflexivity.
Qed.

Lemma int32_bandwidthify_spec (p : Qc) (n : nat) :
  (0 < n)%nat ->
  Int32.bandwidthify p n
  = let t := clip_by_value (fst (fst (interp_factor p))) 0 1 in
    let i1 := clip_by_value_int (Int32.of_Z (Qfloor p)) 0 (Z.of_nat n - 1) in
    let i2 :=
      clip_by_value_int (Int32.of_Z (Qceiling p)) 0 (Z.of_nat n - 1) in
    Some (vadd (map (fun a => t * a) (one_hot (Z.to_nat i1) n))
               (map (fun a => (1 - t) * a) (one_hot (Z.to_nat i2) n))).
Proof.
  intros Hn. unfold Int32.bandwidthify. rewrite int32_interp_factor_spec.
  rewrite !getitem_eye by (apply clip_by_value_int_bounds; exact Hn).
  reflexivity.
Qed.

(** Both indices clipped to one slot give the one-hot vector there. *)
Lemma int32_bandwidthify_slot (p : Qc) (n k : nat) :
  (0 < n)%nat ->
  clip_by_value_int (Int32.of_Z (Qfloor p)) 0 (Z.of_nat n - 1) = Z.of_nat k ->
  clip_by_value_int (Int32.of_Z (Qceiling p)) 0 (Z.of_nat n - 1)
  = Z.of_nat k ->
  Int32.bandwidthify p n = Some (one_hot k n).
Proof.
  intros Hn H1 H2. rewrite int32_bandwidthify_spec by exact Hn. cbv zeta.
  rewrite H1, H2, Nat2Z.id, convex_same. reflexivity.
Qed.

Lemma int32_bandwidthify_below (p : Qc) (n : nat) :
  (0 < n)%nat -> p <= 0 -> Int32.bandwidthify p n = Some (one_hot 0 n).
Proof.
  intros Hn Hp.
  pose proof (of_Z_nonpos _ (floor_nonpos p Hp)).
  pose proof (of_Z_nonpos _ (ceiling_nonpos p Hp)).
  apply int32_bandwidthify_slot; [exact Hn| |];
    unfold clip_by_value_int; lia.
Qed.

Lemma int32_bandwidthify_above (p : Qc) (n : nat) :
  (0 < n)%nat -> qc (Z.of_nat n - 1) <= p -> p <= qc Int32.max_int ->
  Int32.bandwidthify p n = Some (one_hot (n - 1) n).
Proof.
  intros Hn Hp Hmax.
  pose proof (floor_ge p _ Hp). pose proof (ceiling_le p _ Hmax).
  pose proof (floor_ceiling_gap p).
  apply int32_bandwidthify_slot; [exact Hn| |];
    rewrite of_Z_in_range by (unfold Int32.min_int; lia);
    unfold clip_by_value_int; lia.
Qed.

Lemma int32_bandwidthify_overflow (p : Qc) (n : nat) :
  (0 < n)%nat -> qc (Int32.max_int + 1) <= p ->
  Int32.bandwidthify p n = Some (one_hot 0 n).
Proof.
  intros Hn Hp.
  pose proof (floor_ge p _ Hp). pose proof (floor_ceiling_gap p).
  apply int32_bandwidthify_slot; [exact Hn| |];
    rewrite of_Z_above by lia;
    unfold clip_by_value_int, Int32.min_int; lia.
Qed.

(** C4 fails on the code: the position [3000000000] lies above the last
    index of the bandwidth 5, and its encoding is the one-hot vector at
    slot 0, not at the nearest boundary slot 4: the cast to [int32] that
    comes before the clip gives the smallest [int32]. *)
Theorem bandwidthify_overflow_first_slot :
  qc (Z.of_nat 5 - 1) <= qc 3000000000
  /\ Int32.bandwidthify (qc 3000000000) 5 = Some (one_hot 0 5)
  /\ one_hot 0 5 <> one_hot (5 - 1) 5.
Proof.
  split; [vm_compute; discriminate|]. split.
  - apply int32_bandwidthify_overflow; [lia|vm_compute; discriminate].
  - intros H. apply (f_equal values) in H. vm_compute in H. discriminate H.
Qed.

(** X8: on a position in the int32 range, [interp_factor] splits the
    position into its floor and a factor: it returns the floor and the
    ceiling of the position, at most one apart, and a factor [t] with
    [0 <= t < 1] such that the position is the floor plus [t]; the guarded
    division does not fail. *)
Theorem interp_factor_decomposes (p : Qc) :
  qc Int32.min_int <= p -> p <= qc Int32.max_int ->
  exists t,
    Int32.interp_factor p = (t, Qfloor p, Qceiling p)
    /\ (Qfloor p <= Qceiling p <= Qfloor p + 1)%Z
    /\ 0 <= t /\ t < 1
    /\ p = qc (Qfloor p) + t.
Proof.
  intros Hmin Hmax.
  rewrite (int32_interp_factor_exact p Hmin Hmax), interp_factor_spec.
  eexists. split; [reflexivity|].
  split; [apply floor_ceiling_gap|].
  destruct (Z.eqb_spec (Qceiling p) (Qfloor p)) as [E|E].
  - split; [apply Qcle_refl|]. split; [reflexivity|].
    rewrite <- (integral_position p E). ring.
  - pose proof (frac_bounds p) as [H0 _].
    split; [exact H0|]. split.
    + rewrite floor_qc. unfold Qclt. rewrite this_minus, this_qc.
      change (this 1) with 1%Q. pose proof (Qlt_floor p) as H.
      rewrite inject_Z_plus in H. change (inject_Z 1) with 1%Q in H. lra.
    + rewrite floor_qc. ring.
Qed.

(** X10: the scalar-index superposition lookup never reads out of
    bounds: on an array with at least one entry, a position at or below 0
    reads the first entry and a position from the last index up to the
    largest [int32] reads the last entry; a position at or above [2^31]
    reads the first entry. *)
Theorem superposition_lookup_saturates (arr : array) (p : Qc) :
  wf_array arr -> (0 < bandwidth_of arr)%nat ->
  (p <= 0 -> Int32.superposition_lookup arr p = entry arr 0)
  /\ (qc (Z.of_nat (bandwidth_of arr) - 1) <= p -> p <= qc Int32.max_int ->
      Int32.superposition_lookup arr p = entry arr (bandwidth_of arr - 1))
  /\ (qc (Int32.max_int + 1) <= p ->
      Int32.superposition_lookup arr p = entry arr 0)
  /\ entry arr 0 <> None
  /\ entry arr (bandwidth_of arr - 1) <> None.
Proof.
  intros Hwf Hn. unfold Int32.superposition_lookup.
  split; [|split; [|split; [|split]]].
  - intros Hp. rewrite int32_bandwidthify_below by assumption. simpl bind.
    apply entry_lookup; assumption.
  - intros Hp Hmax. rewrite int32_bandwidthify_above by assumption.
    simpl bind. apply entry_lookup; [assumption|lia].
  - intros Hp. rewrite int32_bandwidthify_overflow by assumption.
    simpl bind. apply entry_lookup; assumption.
  - apply entry_lookup; assumption.
  - apply entry_lookup; [assumption|lia].
Qed.

(** X25: on a positive bandwidth [n], [bandwidthify] returns, for every
    position, a vector of length [n] whose entries sum to 1.  A position
    at or below 0 gives the one-hot vector at 0, a position from [n - 1]
    up to the largest [int32] the one-hot vector at [n - 1], and a
    position at or above [2^31] the one-hot vector at 0. *)
Theorem bandwidthify_sums_to_one_everywhere (p : Qc) (n : nat) :
  (0 < n)%nat ->
  exists w,
    Int32.bandwidthify p n = Some w
    /\ length w = n
    /\ vsum w = 1
    /\ (p <= 0 -> w = one_hot 0 n)
    /\ (qc (Z.of_nat n - 1) <= p -> p <= qc Int32.max_int ->
        w = one_hot (n - 1) n)
    /\ (qc (Int32.max_int + 1) <= p -> w = one_hot 0 n).
Proof.
  intros Hn.
  destruct (Int32.bandwidthify p n) as [w|] eqn:E;
    [|rewrite int32_bandwidthify_spec in E by exact Hn; discriminate E].
  exists w. split; [reflexivity|].
  pose proof E as E'. rewrite int32_bandwidthify_spec in E' by exact Hn.
  cbv zeta in E'. injection E' as E'.
  pose proof (clip_by_value_int_bounds (Int32.of_Z (Qfloor p)) n Hn) as H1.
  pose proof (clip_by_value_int_bounds (Int32.of_Z (Qceiling p)) n Hn) as H2.
  split; [|split; [|split; [|split]]].
  - rewrite <- E'.
    rewrite vadd_length; rewrite !length_map, !one_hot_length; reflexivity.
  - rewrite <- E'.
    rewrite vsum_vadd by (rewrite !length_map, !one_hot_length; reflexivity).
    rewrite !vsum_scale, !vsum_one_hot by lia. ring.
  - intros Hp. rewrite int32_bandwidthify_below in E by assumption.
    congruence.
  - intros Hp Hmax. rewrite int32_bandwidthify_above in E by assumption.
    congruence.
  - intros Hp. rewrite int32_bandwidthify_overflow in E by assumption.
    congruence.
Qed.

End Int32Positions.

Lemma interp_factor_decomposes_witness :
  exists t,
    Int32.interp_factor (Q2Qc (5 # 2))
    = (t, Qfloor (Q2Qc (5 # 2)), Qceiling (Q2Qc (5 # 2)))
    /\ (Qfloor (Q2Qc (5 # 2)) <= Qceiling (Q2Qc (5 # 2))
        <= Qfloor (Q2Qc (5 # 2)) + 1)%Z
    /\ (0 <= t)%Qc /\ (t < 1)%Qc
    /\ Q2Qc (5 # 2) = (qc (Qfloor (Q2Qc (5 # 2))) + t)%Qc.
Proof.
  apply (interp_factor_decomposes (Q2Qc (5 # 2)));
    vm_compute; discriminate.
Defined.

Lemma superposition_lookup_saturates_witness :
  Int32.superposition_lookup (Arr1 [qc 1; qc 2; qc 3]) (Q2Qc (-7 # 2))
  = entry (Arr1 [qc 1; qc 2; qc 3]) 0
  /\ Int32.superposition_lookup (Arr1 [qc 1; qc 2; qc 3]) (qc 9)
     = entry (Arr1 [qc 1; qc 2; qc 3])
             (bandwidth_of (Arr1 [qc 1; qc 2; qc 3]) - 1)
  /\ Int32.superposition_lookup (Arr1 [qc 1; qc 2; qc 3]) (qc 3000000000)
     = entry (Arr1 [qc 1; qc 2; qc 3]) 0.
Proof.
  assert (Hn : 0 < bandwidth_of (Arr1 [qc 1; qc 2; qc 3]))
    by (simpl; lia).
  split; [|split].
  - apply (proj1 (superposition_lookup_saturates
                    (Arr1 [qc 1; qc 2; qc 3]) (Q2Qc (-7 # 2)) I Hn)).
    vm_compute. discriminate.
  - apply (proj1 (proj2 (superposition_lookup_saturates
                           (Arr1 [qc 1; qc 2; qc 3]) (qc 9) I Hn)));
      vm_compute; discriminate.
  - apply (proj1 (proj2 (proj2 (superposition_lookup_saturates
                                  (Arr1 [qc 1; qc 2; qc 3])
                                  (qc 3000000000) I Hn)))).
    vm_compute. discriminate.
Defined.

Lemma bandwidthify_sums_to_one_everywhere_witness :
  exists w,
    Int32.bandwidthify (qc 3000000000) 5 = Some w
    /\ length w = 5
    /\ vsum w = Q2Qc 1
    /\ ((qc 3000000000 <= Q2Qc 0)%Qc -> w = one_hot 0 5)
    /\ ((qc (Z.of_nat 5 - 1) <= qc 3000000000)%Qc ->
        (qc 3000000000 <= qc Int32.max_int)%Qc ->
        w = one_hot (5 - 1) 5)
    /\ ((qc (Int32.max_int + 1) <= qc 3000000000)%Qc -> w = one_hot 0 5).
Proof.
  apply (bandwidthify_sums_to_one_everywhere (qc 3000000000) 5). lia.
Defined.
